(** * Tick-to-bar streaming engine: a model of [main.py] and its properties

    The development follows the source file function by function.  Data
    frames are lists of rows, dictionaries are finite maps with string keys,
    Python exceptions are the [Raised] outcome of a result type, and the
    batched reader is the list of batches it still has to deliver together
    with the number of [next_batches] calls made so far.  The loop is
    modelled on the frames that the first step of the sanitizer selects;
    [with_columns_select] is that step on the batches of the reader. *)

From Stdlib Require Import ZArith QArith Qround Lia String Ascii.
From Stdlib Require Import DecimalString DecimalPos DecimalZ.
From stdpp Require Import base list sorting strings gmap.

Local Open Scope Z_scope.

(** ** Python values *)

(** The exceptions the modelled code can raise. *)
Inductive PyError : Type :=
  | ValueError (rule : string)      (* rule_to_seconds *)
  | AttributeError                  (* [m.group] on a failed [re.search] *)
  | KeyError (key : string)         (* dict lookup of an absent key *)
  | ZeroDivisionError               (* [// 0] *)
  | PolarsError.                    (* an exception raised inside polars *)

(** The outcome of a call: a value, or an exception. *)
Inductive result (A : Type) : Type :=
  | Ok (a : A)
  | Raised (e : PyError).
Arguments Ok {A} a.
Arguments Raised {A} e.

#[global] Instance result_ret : MRet result := fun A a => Ok a.
#[global] Instance result_bind : MBind result := fun A B k r =>
  match r with
  | Ok a => k a
  | Raised e => Raised e
  end.

(** [d[k]] on a dict. *)
Definition getitem {V : Type} (d : gmap string V) (k : string) : result V :=
  match d !! k with
  | Some v => Ok v
  | None => Raised (KeyError k)
  end.

(** The longest prefix of [l] whose elements satisfy [p], and what follows
    it. *)
Fixpoint take_while {A : Type} (p : A -> bool) (l : list A) : list A :=
  match l with
  | x :: l' => if p x then x :: take_while p l' else []
  | [] => []
  end.

Fixpoint drop_while {A : Type} (p : A -> bool) (l : list A) : list A :=
  match l with
  | x :: l' => if p x then drop_while p l' else l
  | [] => []
  end.

(** [l] is empty or starts with an element that fails [p]. *)
Definition stops {A : Type} (p : A -> bool) (l : list A) : Prop :=
  match l with
  | [] => True
  | x :: _ => p x = false
  end.

Module Py.

(** Strings are sequences of code points below 256; on that range the
    classes below are those of [str.isspace], of the regular expression
    classes [\s] and [\d], and of [[A-Z]]. *)
Definition isspace (c : ascii) : bool :=
  let n := nat_of_ascii c in
  ((9 <=? n) && (n <=? 13) || (28 <=? n) && (n <=? 32)
   || (n =? 133) || (n =? 160))%nat.

Definition isdigit (c : ascii) : bool :=
  let n := nat_of_ascii c in ((48 <=? n) && (n <=? 57))%nat.

Definition isupper_AZ (c : ascii) : bool :=
  let n := nat_of_ascii c in ((65 <=? n) && (n <=? 90))%nat.

(** [s.strip()] *)
Definition strip (s : list ascii) : list ascii :=
  reverse (drop_while isspace (reverse (drop_while isspace s))).

(** [int(s)] on a string of decimal digits.  Python answers a string of
    more than 4300 digits with [ValueError] (its limit on conversions between
    [int] and [str]); the model reads strings within that limit. *)
Definition digit_value (c : ascii) : Z := Z.of_nat (nat_of_ascii c) - 48.

Definition int_of_digits (ds : list ascii) : Z :=
  fold_left (fun acc c => 10 * acc + digit_value c) ds 0.

(** [str(n)] on an integer: the decimal numeral, with a minus sign for
    negative numbers.  Python answers an integer of more than 4300 digits
    with [ValueError]; the model writes integers within that limit. *)
Definition str (n : Z) : string := NilZero.string_of_int (Z.to_int n).

(** [s[-1]] on a non-empty string (on the empty string Python raises
    [IndexError]; [str] of an integer is never empty, see
    [str_not_empty]). *)
Fixpoint last_char (s : string) : string :=
  match s with
  | EmptyString => EmptyString
  | String c EmptyString => String c EmptyString
  | String _ s' => last_char s'
  end.

End Py.

(** ** filter_symbol_in_files *)

(** Lines 86-108.  [month in {12}] and the like are membership tests on
    integer literals. *)
Definition filter_symbol_in_files (symbol : string) (years month : Z)
  : option string :=
  if month =? 12 then
    Some (symbol +:+ "H" +:+ Py.last_char (Py.str (years + 1)))
  else if (month =? 1) || (month =? 2) || (month =? 3) then
    Some (symbol +:+ "H" +:+ Py.last_char (Py.str years))
  else if (month =? 4) || (month =? 5) || (month =? 6) then
    Some (symbol +:+ "M" +:+ Py.last_char (Py.str years))
  else if (month =? 7) || (month =? 8) || (month =? 9) then
    Some (symbol +:+ "U" +:+ Py.last_char (Py.str years))
  else if (month =? 10) || (month =? 11) then
    Some (symbol +:+ "Z" +:+ Py.last_char (Py.str years))
  else None.

(** ** rule_to_seconds *)

(** Lines 144-148: [re.fullmatch(r"(\d+)\s*s", rule.strip())].  The three
    pieces of the pattern draw on pairwise disjoint character classes, so the
    greedy left-to-right reading below finds the match whenever there is
    one. *)
Definition rule_to_seconds (rule : string) : result Z :=
  let s := Py.strip (list_ascii_of_string rule) in
  let ds := take_while Py.isdigit s in
  let rest := drop_while Py.isdigit s in
  let tail := drop_while Py.isspace rest in
  if bool_decide (ds <> []) && bool_decide (tail = ["s"%char])
  then Ok (Py.int_of_digits ds)
  else Raised (ValueError rule).

(** ** floor_dt_to_seconds *)

(** Instants are counted in microseconds since the Unix epoch, the unit of
    the polars [Datetime] column and of Python's [datetime]. *)
Definition us_per_second : Z := 1000000.

(** Lines 150-153.  [dt.timestamp()] is the float [us / 10^6]; [int(ts)]
    drops its fractional part, that is, rounds towards zero ([Z.quot]); [//]
    is Python's floor division, which is [Z.div]; [datetime.fromtimestamp]
    turns the whole seconds back into an instant.  The float carries the
    microseconds without loss for every instant whose distance from the
    epoch is below 2^34 seconds (about the year 2514), and carries an
    instant on a whole second without loss throughout the range of
    [datetime]; [fromtimestamp] raises [ValueError] when the floored second
    falls outside the years 1 to 9999.  The model covers the instants and
    window lengths within these bounds, see [float_exact]. *)
Definition floor_dt_to_seconds (dt : Z) (sec : Z) : result Z :=
  let ts_int := Z.quot dt us_per_second in
  if sec =? 0 then Raised ZeroDivisionError
  else
    let flo := (ts_int / sec) * sec in
    Ok (flo * us_per_second).

(** ** Data frames *)

(** A canonical tick: a row of a frame with columns [datetime] (microseconds
    since the epoch, UTC) and [mid].  A finite float is carried as the
    rational number it denotes: after the sanitizer the program only compares
    and selects prices.  Ticks whose price is NaN or an infinity are outside
    this type; for the reducer they are in [Floats]. *)
Record Tick : Type := { datetime : Z; mid : Q }.

(** A row of a bar frame; its [datetime] column holds the window start. *)
Record Bar : Type :=
  { window_start : Z; open : Q; high : Q; low : Q; close : Q; volume : Z }.

Inductive DType : Type :=
  | Datetime_us (time_zone : string)
  | Float64
  | Int64
  | UInt32.

#[global] Instance DType_eq_dec : EqDecision DType.
Proof. solve_decision. Defined.

(** A bar frame: column names with their types, and the rows. *)
Record BarFrame : Type :=
  { schema : list (string * DType); rows : list Bar }.

Definition height (f : BarFrame) : nat := length (rows f).

Module Polars.

(** [sort(by)] on an integer key.  Polars leaves the order of rows with
    equal keys open; the model takes the stable order. *)
Section Sort.
Context {A : Type} (key : A -> Z).

Fixpoint insert_sorted (x : A) (l : list A) : list A :=
  match l with
  | [] => [x]
  | y :: l' =>
      if key x <=? key y then x :: l else y :: insert_sorted x l'
  end.

Definition sort (l : list A) : list A := foldr insert_sorted [] l.

(** [unique(subset=[by], keep="last")]: a row stays when no later row
    has its key. *)
Fixpoint unique_last (l : list A) : list A :=
  match l with
  | [] => []
  | x :: l' =>
      if existsb (fun y => key y =? key x) l' then unique_last l'
      else x :: unique_last l'
  end.
End Sort.

(** [select(col.max()).item()]: [None] on a frame without rows. *)
Definition max_item (l : list Z) : option Z :=
  match l with
  | [] => None
  | x :: l' => Some (foldl Z.max x l')
  end.

(** The duration strings of [every] and [period].  Of polars' duration
    language the model reads the one form the program configures, ASCII
    digits followed by [s], as that many seconds (returned in
    microseconds); every other string is reported as a polars error. *)
Definition duration (s : string) : result Z :=
  let cs := list_ascii_of_string s in
  let ds := take_while Py.isdigit cs in
  if bool_decide (ds <> [])
     && bool_decide (drop_while Py.isdigit cs = ["s"%char])
  then Ok (Py.int_of_digits ds * us_per_second)
  else Raised PolarsError.

(** The start of the window of length [every] that holds instant [t]:
    windows are aligned on the epoch, closed on the left and labelled by
    their left end. *)
Definition window_of (every t : Z) : Z := (t / every) * every.

(** [group_by_dynamic(every, period=every, closed="left", label="left")]
    on a frame sorted by its index column: each window that holds rows
    yields one group, the run of consecutive rows that fall in it. *)
Fixpoint group_by_dynamic (every : Z) (l : list Tick)
  : list (Z * list Tick) :=
  match l with
  | [] => []
  | t :: l' =>
      let k := window_of every (datetime t) in
      match group_by_dynamic every l' with
      | (k', g) :: groups =>
          if k =? k' then (k, t :: g) :: groups
          else (k, [t]) :: (k', g) :: groups
      | [] => [(k, [t])]
      end
  end.

Definition qmax (a b : Q) : Q := if Qle_bool a b then b else a.
Definition qmin (a b : Q) : Q := if Qle_bool a b then a else b.

(** [agg(first, max, min, last, len)] on one group followed by
    [drop_nulls]: [first] and the other three are null on a group without
    rows, and such a row is dropped. *)
Definition agg (g : Z * list Tick) : option Bar :=
  match snd g with
  | [] => None
  | t :: ts =>
      Some {| window_start := fst g;
              open := mid t;
              high := foldl qmax (mid t) (mid <$> ts);
              low := foldl qmin (mid t) (mid <$> ts);
              close := mid (List.last ts t);
              volume := Z.of_nat (length (t :: ts)) |}
  end.

(** [pl.concat(frames, how="vertical")]: the frames must agree on their
    schema. *)
Definition concat (fs : list BarFrame) : result BarFrame :=
  match fs with
  | [] => Raised PolarsError
  | f :: fs' =>
      if forallb (fun g => bool_decide (schema g = schema f)) fs'
      then Ok {| schema := schema f; rows := List.concat (rows <$> fs) |}
      else Raised PolarsError
  end.

End Polars.

(** ** bars_from_ticks *)

(** The schema of a reduced frame: the index column keeps the type the
    sanitizer gave it, the four prices are floats, and [pl.len()] has polars'
    row-count type, [UInt32]. *)
Definition bars_schema : list (string * DType) :=
  [("datetime", Datetime_us "UTC"); ("open", Float64); ("high", Float64);
   ("low", Float64); ("close", Float64); ("volume", UInt32)].

(** Lines 110-128. *)
Definition bars_from_ticks (ticks : list Tick) (rule : string)
  : result BarFrame :=
  every ← Polars.duration rule;
  if every <=? 0 then Raised PolarsError
  else
    let bars := omap Polars.agg (Polars.group_by_dynamic every ticks) in
    Ok {| schema := bars_schema;
          rows := Polars.sort window_start bars |}.

(** ** bars_from_ticks on any float prices *)

Module Floats.

(** A cell of a [Float64] column that is not null: a finite float, carried
    as the rational number it denotes, an infinity, or NaN. *)
Inductive float64 : Type :=
  | finite (q : Q)
  | infinity (negative : bool)
  | NaN.

(** The comparison [a <= b] of floats: false whenever one side is NaN. *)
Definition le (a b : float64) : bool :=
  match a, b with
  | NaN, _ | _, NaN => false
  | infinity true, _ | _, infinity false => true
  | infinity false, _ | _, infinity true => false
  | finite x, finite y => Qle_bool x y
  end.

(** The steps of polars' [max] and [min], which pass over NaN: a NaN stays
    only as long as nothing else has been met. *)
Definition max (a b : float64) : float64 :=
  match a, b with
  | NaN, _ => b
  | _, NaN => a
  | _, _ => if le a b then b else a
  end.

Definition min (a b : float64) : float64 :=
  match a, b with
  | NaN, _ => b
  | _, NaN => a
  | _, _ => if le a b then a else b
  end.

(** A row with non-null [datetime] and [mid], and a row of a bar frame. *)
Record Tick : Type := { datetime : Z; mid : float64 }.

Record Bar : Type :=
  { window_start : Z; open : float64; high : float64; low : float64;
    close : float64; volume : Z }.

(** [group_by_dynamic], as [Polars.group_by_dynamic]. *)
Fixpoint group_by_dynamic (every : Z) (l : list Tick)
  : list (Z * list Tick) :=
  match l with
  | [] => []
  | t :: l' =>
      let k := Polars.window_of every (datetime t) in
      match group_by_dynamic every l' with
      | (k', g) :: groups =>
          if k =? k' then (k, t :: g) :: groups
          else (k, [t]) :: (k', g) :: groups
      | [] => [(k, [t])]
      end
  end.

(** [agg(first, max, min, last, len)] on one group followed by
    [drop_nulls]: NaN is not null, so a bar with a NaN stays. *)
Definition agg (g : Z * list Tick) : option Bar :=
  match snd g with
  | [] => None
  | t :: ts =>
      Some {| window_start := fst g;
              open := mid t;
              high := foldl max (mid t) (mid <$> ts);
              low := foldl min (mid t) (mid <$> ts);
              close := mid (List.last ts t);
              volume := Z.of_nat (length (t :: ts)) |}
  end.

(** Lines 110-128: the rows of the frame returned. *)
Definition bars_from_ticks (ticks : list Tick) (rule : string)
  : result (list Bar) :=
  every ← Polars.duration rule;
  if every <=? 0 then Raised PolarsError
  else
    Ok (Polars.sort window_start
          (omap agg (group_by_dynamic every ticks))).

End Floats.

(** The tick and the bar of finite prices among those of any float
    prices. *)
Definition float_tick (t : Tick) : Floats.Tick :=
  {| Floats.datetime := datetime t; Floats.mid := Floats.finite (mid t) |}.

Definition float_bar (b : Bar) : Floats.Bar :=
  {| Floats.window_start := window_start b;
     Floats.open := Floats.finite (open b);
     Floats.high := Floats.finite (high b);
     Floats.low := Floats.finite (low b);
     Floats.close := Floats.finite (close b);
     Floats.volume := volume b |}.

(** ** The sanitizer *)

(** A row of the frame that the first step of [clean_tick_batch] (lines
    68-82) selects: [ts_event] after [strptime] and the conversion to UTC,
    [price] after the cast and the scaling by [1e-9], each null ([None])
    where the cell could not be read, and the symbol cell.  The frames this
    step can return are those of [with_columns_select] below. *)
Record RawRow : Type :=
  { ts_event : option Z; price : option Q; symbol : option string }.

Record RawBatch : Type :=
  { has_symbol_column : bool; raw_rows : list RawRow }.

#[global] Instance Qle_bool_dec (a b : Q) : Decision (Qle_bool a b = true).
Proof. solve_decision. Defined.

(** Lines 130-142, on the selected columns. *)
Definition sanity_check_tick_data (out : RawBatch)
    (symbol_filter : option string) (sanity_min_price sanity_max_price : option Q)
  : list Tick :=
  let out1 :=
    filter (fun r => is_Some (ts_event r) /\ is_Some (price r)) (raw_rows out) in
  let out2 :=
    if has_symbol_column out
    then filter (fun r => is_Some (symbol r) /\ symbol r = symbol_filter) out1
    else out1 in
  let ticks :=
    omap (fun r => d ← ts_event r; p ← price r;
                   Some {| datetime := d; mid := p |}) out2 in
  let ticks3 :=
    match sanity_min_price with
    | Some lo => filter (fun t => Qle_bool lo (mid t) = true) ticks
    | None => ticks
    end in
  let ticks4 :=
    match sanity_max_price with
    | Some hi => filter (fun t => Qle_bool (mid t) hi = true) ticks3
    | None => ticks3
    end in
  Polars.sort datetime ticks4.

(** Lines 83-84: what [clean_tick_batch] does with the frame selected in
    lines 68-82. *)
Definition clean_tick_batch (df_pl : RawBatch)
    (symbol_filter : option string) (sanity_min_price sanity_max_price : option Q)
  : list Tick :=
  sanity_check_tick_data df_pl symbol_filter sanity_min_price sanity_max_price.

(** A row of a batch as the reader delivers it, each cell seen through the
    expression of lines 69-76 that reads it.  [ts_event_seconds] is what
    [strptime] makes of the [ts_event] cell with the format
    [%Y-%m-%dT%H:%M:%S%Z]: the format has no field below the second (what
    follows the seconds in the cell is taken by [%Z]), so the instant read
    is a whole number of seconds from the epoch; with [strict=False] a cell
    that is null or does not match gives null.  [price_scaled] is the
    [price] cell after the cast to [Float64] and the scaling by [1e-9], a
    finite float as in [Tick], null where the cell is null or cannot be
    cast. *)
Record CsvRow : Type :=
  { ts_event_seconds : option Z;
    price_scaled : option Q;
    symbol_cell : option string }.

(** The [ts_event] column of a batch: missing, of strings, or of a type
    polars inferred from cells that are all numbers. *)
Inductive TsEventColumn : Type :=
  | ts_event_missing
  | ts_event_strings
  | ts_event_numbers.

Record CsvBatch : Type :=
  { ts_event_column : TsEventColumn;
    has_price_column : bool;
    symbol_column : bool;
    csv_rows : list CsvRow }.

(** Lines 68-82: [with_columns] and [select].  A column that is missing
    makes polars raise [ColumnNotFoundError], and [str.strptime] on a column
    that does not hold strings makes it raise [SchemaError]. *)
Definition with_columns_select (df_pl : CsvBatch) : result RawBatch :=
  match ts_event_column df_pl with
  | ts_event_strings =>
      if has_price_column df_pl then
        Ok {| has_symbol_column := symbol_column df_pl;
              raw_rows :=
                (fun row =>
                   {| ts_event :=
                        (fun s => s * us_per_second) <$> ts_event_seconds row;
                      price := price_scaled row;
                      symbol := symbol_cell row |}) <$> csv_rows df_pl |}
      else Raised PolarsError
  | ts_event_missing | ts_event_numbers => Raised PolarsError
  end.

(** ** loop_through_files *)

(** The object of lines 9-18.  [reader] holds the batches the reader has not
    delivered yet; [buffers] and [bars_out] are the two dictionaries the loop
    updates in place. *)
Record LoopThroughFilesInputData : Type :=
  { reader : list RawBatch;
    rules : list string;
    rule_secs : gmap string Z;
    symbol_filter : option string;
    buffers : gmap string (list Tick);
    bars_out : gmap string (list BarFrame);
    sanity_min_price : option Q;
    sanity_max_price : option Q }.

(** What the loop changes: the two dictionaries. *)
Definition Dicts : Type :=
  (gmap string (list Tick) * gmap string (list BarFrame))%type.

(** [for r in rules: body], where [body] may raise. *)
Fixpoint for_rules {S : Type} (body : string -> S -> result S)
    (rs : list string) (st : S) : result S :=
  match rs with
  | [] => Ok st
  | r :: rs' => st' ← body r st; for_rules body rs' st'
  end.

(** Lines 53-56 and again 62-65: reduce a frame that has rows and append the
    bars, when there are any, to the list of granularity [r]. *)
Definition reduce_and_append (r : string) (ticks : list Tick)
    (out : gmap string (list BarFrame)) : result (gmap string (list BarFrame)) :=
  match ticks with
  | [] => Ok out
  | _ :: _ =>
      b ← bars_from_ticks ticks r;
      if (height b =? 0)%nat then Ok out
      else fs ← getitem out r; Ok (<[r := fs ++ [b]]> out)
  end.

(** Lines 40-58: one granularity takes in one sanitized batch. *)
Definition ingest (secs : gmap string Z) (ticks : list Tick)
    (r : string) (st : Dicts) : result Dicts :=
  buf ← getitem st.1 r;
  let combined := Polars.sort datetime (buf ++ ticks) in
  match Polars.max_item (datetime <$> combined) with
  | None => Ok (<[r := combined]> st.1, st.2)
  | Some last_dt =>
      sec ← getitem secs r;
      cutoff ← floor_dt_to_seconds last_dt sec;
      let to_finalize := filter (fun t => datetime t < cutoff) combined in
      let to_keep := filter (fun t => cutoff <= datetime t) combined in
      out ← reduce_and_append r to_finalize st.2;
      Ok (<[r := to_keep]> st.1, out)
  end.

(** Lines 60-65: the flush of one granularity at the end of the input. *)
Definition flush (r : string) (st : Dicts) : result Dicts :=
  buf ← getitem st.1 r;
  out ← reduce_and_append r buf st.2;
  Ok (st.1, out).

(** Lines 29-58.  Each turn of [while True] calls [next_batches(1)]; the
    second component counts these calls, the last of which finds the reader
    exhausted and leaves the loop. *)
Fixpoint batch_loop (data : LoopThroughFilesInputData)
    (pending : list RawBatch) (calls : nat) (st : Dicts)
  : result Dicts * nat :=
  match pending with
  | [] => (Ok st, S calls)
  | raw :: pending' =>
      let ticks := clean_tick_batch raw (symbol_filter data)
                     (sanity_min_price data) (sanity_max_price data) in
      match ticks with
      | [] => batch_loop data pending' (S calls) st
      | _ :: _ =>
          match for_rules (ingest (rule_secs data) ticks) (rules data) st with
          | Ok st' => batch_loop data pending' (S calls) st'
          | Raised e => (Raised e, S calls)
          end
      end
  end.

(** Lines 28-65.  The result is the pair of dictionaries as the call leaves
    them, or the exception that ended it, with the number of batches asked
    of the reader. *)
Definition loop_through_files (data : LoopThroughFilesInputData)
  : result Dicts * nat :=
  match batch_loop data (reader data) 0 (buffers data, bars_out data) with
  | (Ok st, calls) => (for_rules flush (rules data) st, calls)
  | (Raised e, calls) => (Raised e, calls)
  end.

(** ** merge_data *)

(** The schema written out in lines 164-173. *)
Definition empty_schema : list (string * DType) :=
  [("datetime", Datetime_us "UTC"); ("open", Float64); ("high", Float64);
   ("low", Float64); ("close", Float64); ("volume", Int64)].

(** Lines 158-173: the body of the loop for one granularity. *)
Definition merge_rule (bars_out : gmap string (list BarFrame)) (r : string)
    (final_bars : gmap string BarFrame) : result (gmap string BarFrame) :=
  fs ← getitem bars_out r;
  match fs with
  | _ :: _ =>
      all_bars ← Polars.concat fs;
      let sorted := Polars.sort window_start (rows all_bars) in
      let unique := Polars.unique_last window_start sorted in
      Ok (<[r := {| schema := schema all_bars;
                    rows := Polars.sort window_start unique |}]> final_bars)
  | [] => Ok (<[r := {| schema := empty_schema; rows := [] |}]> final_bars)
  end.

(** Lines 155-174. *)
Definition merge_data (bars_out : gmap string (list BarFrame))
    (rules : list string) : result (gmap string BarFrame) :=
  for_rules (merge_rule bars_out) rules ∅.

(** ** build_bars_from_ticks *)

(** The object of lines 20-26.  [data] stands for the file behind the path,
    a file that [read_csv_batched] opens (line 188): the batches the reader
    will deliver.  [timeframemap] lists the dictionary's items in insertion
    order. *)
Record BuildBarsFromTicksOutputData : Type :=
  { data : list RawBatch;
    file_name : string;
    timeframemap : list (string * string);
    build_sanity_min_price : option Q;
    build_sanity_max_price : option Q }.

(** Line 194: [re.search] with the pattern
    [^([A-Z]+)[-_](20\d{2})[-_]?(\d{2})\.csv$]; the three groups of the
    match, if there is one.  [$] also matches before a final newline. *)
Definition is_dash_or_underscore (c : ascii) : bool :=
  bool_decide (c = "-"%char) || bool_decide (c = "_"%char).

Definition re_search_file_name (name : string)
  : option (list ascii * list ascii * list ascii) :=
  let cs := list_ascii_of_string name in
  let sym := take_while Py.isupper_AZ cs in
  match sym, drop_while Py.isupper_AZ cs with
  | _ :: _, sep :: "2"%char :: "0"%char :: y1 :: y2 :: rest =>
      let rest' :=
        match rest with
        | c :: r => if is_dash_or_underscore c then r else rest
        | [] => rest
        end in
      match rest' with
      | m1 :: m2 :: "."%char :: "c"%char :: "s"%char :: "v"%char :: tail =>
          if is_dash_or_underscore sep && Py.isdigit y1 && Py.isdigit y2
             && Py.isdigit m1 && Py.isdigit m2
             && (bool_decide (tail = []) || bool_decide (tail = ["010"%char]))
          then Some (sym, ["2"%char; "0"%char; y1; y2], [m1; m2])
          else None
      | _ => None
      end
  | _, _ => None
  end.

(** Line 179: the dictionary comprehension stops at the first rule that
    [rule_to_seconds] refuses. *)
Definition rule_secs_of (rules : list string) : result (gmap string Z) :=
  for_rules (fun r d => sec ← rule_to_seconds r; Ok (<[r := sec]> d)) rules ∅.

(** Lines 176-206, on a file the reader opens.  Line 188 creates the reader
    before line 194 matches the file name; on such a file that step neither
    raises nor asks for a batch, and the model goes from the dictionaries to
    the match.  [build_bars_from_path] below has line 188 in its place. *)
Definition build_bars_from_ticks (d : BuildBarsFromTicksOutputData)
  : result (gmap string BarFrame) * nat :=
  let rules := (timeframemap d).*2 in
  match rule_secs_of rules with
  | Raised e => (Raised e, 0%nat)
  | Ok rule_secs =>
      let bars_out : gmap string (list BarFrame) :=
        list_to_map ((fun r => (r, [])) <$> rules) in
      let buffers : gmap string (list Tick) :=
        list_to_map ((fun r => (r, [])) <$> rules) in
      match re_search_file_name (file_name d) with
      | None => (Raised AttributeError, 0%nat)
      | Some (symbol, year, month) =>
          let symbol_filter :=
            filter_symbol_in_files (string_of_list_ascii symbol)
              (Py.int_of_digits year) (Py.int_of_digits month) in
          let loop :=
            {| reader := data d; rules := rules; rule_secs := rule_secs;
               symbol_filter := symbol_filter; buffers := buffers;
               bars_out := bars_out;
               sanity_min_price := build_sanity_min_price d;
               sanity_max_price := build_sanity_max_price d |} in
          match loop_through_files loop with
          | (Ok st, calls) => (merge_data st.2 rules, calls)
          | (Raised e, calls) => (Raised e, calls)
          end
      end
  end.

(** The run [build_bars_from_ticks] hands to [loop_through_files] (lines
    181-202), once the window-length strings are read as [secs] and the file
    name is split into [symbol], [year] and [month]. *)
Definition started_run (d : BuildBarsFromTicksOutputData)
    (secs : gmap string Z) (symbol year month : list ascii)
  : LoopThroughFilesInputData :=
  {| reader := data d;
     rules := (timeframemap d).*2;
     rule_secs := secs;
     symbol_filter :=
       filter_symbol_in_files (string_of_list_ascii symbol)
         (Py.int_of_digits year) (Py.int_of_digits month);
     buffers := list_to_map ((fun r => (r, [])) <$> (timeframemap d).*2);
     bars_out := list_to_map ((fun r => (r, [])) <$> (timeframemap d).*2);
     sanity_min_price := build_sanity_min_price d;
     sanity_max_price := build_sanity_max_price d |}.

(** The file behind the path that line 188 hands to [read_csv_batched]: a
    file the reader opens, with the batches it will deliver, or a file it
    refuses, as one that is missing or has no bytes, for which polars
    raises. *)
Inductive CsvFile : Type :=
  | opens (batches : list RawBatch)
  | refused.

(** Lines 176-206 with line 188 in its place: the window-length strings are
    read first, then the reader is created, then the file name is
    matched. *)
Definition build_bars_from_path (path : CsvFile) (name : string)
    (timeframemap : list (string * string)) (lo hi : option Q)
  : result (gmap string BarFrame) * nat :=
  match rule_secs_of timeframemap.*2 with
  | Raised e => (Raised e, 0%nat)
  | Ok _ =>
      match path with
      | refused => (Raised PolarsError, 0%nat)
      | opens batches =>
          build_bars_from_ticks
            {| data := batches; file_name := name;
               timeframemap := timeframemap;
               build_sanity_min_price := lo;
               build_sanity_max_price := hi |}
      end
  end.

(** ** main *)

(** The dictionary of lines 231-232, in insertion order. *)
Definition timeframe_map : list (string * string) :=
  [("1m", "60s"); ("5m", "300s"); ("15m", "900s"); ("30m", "1800s");
   ("1h", "3600s"); ("2h", "7200s"); ("4h", "14400s"); ("12h", "43200s");
   ("1d", "86400s")].

(** The options of the two price selectors (lines 213-218); a selector
    returns one of its options, the first one until the user picks
    another. *)
Definition sanity_price_options : list Q :=
  [0%Q; 5000%Q; 10000%Q; 20000%Q; 30000%Q; 40000%Q; 50000%Q; 60000%Q;
   70000%Q; 80000%Q; 90000%Q; 100000%Q].

(** What the widgets return in one run of the script: the uploaded file, as
    its name and the batches its content is read in, the two prices
    selected and the timeframe selected. *)
Record Widgets : Type :=
  { file : option (string * list RawBatch);
    sanity_min_choice : Q;
    sanity_max_choice : Q;
    product : string }.

(** What the script shows below the widgets: the instructions (lines
    272-281), the chart of a series (lines 243-258), the warnings of lines
    260-261, or the error of lines 263-267. *)
Inductive Page : Type :=
  | upload_info
  | plotly_chart (df : BarFrame)
  | no_data_warning
  | error_box (e : PyError).

(** Lines 208-281, as a function from what the widgets return to what the
    page shows below them.  Every exception raised between the upload and
    the chart is caught and shown. *)
Definition main (w : Widgets) : Page :=
  match file w with
  | None => upload_info
  | Some (name, batches) =>
      let input_data :=
        {| data := batches;
           file_name := name;
           timeframemap := timeframe_map;
           build_sanity_min_price := Some (sanity_min_choice w);
           build_sanity_max_price := Some (sanity_max_choice w) |} in
      match
        (bars ← (build_bars_from_ticks input_data).1;
         selected_rule ← getitem (list_to_map timeframe_map) (product w);
         getitem bars selected_rule)
      with
      | Ok df => if (0 <? height df)%nat then plotly_chart df
                 else no_data_warning
      | Raised e => error_box e
      end
  end.

(** ** The specification's vocabulary *)

(** *** The symbol filter *)

(** The decimal digit [d] as a one-character string. *)
Definition digit_str (d : Z) : string :=
  String (ascii_of_nat (48 + Z.to_nat d)) EmptyString.

(** The rollover calendar: the contract-month code of a calendar month, and
    the year of the contract (December belongs to next year's March
    contract). *)
Definition contract_month_code (month : Z) : string :=
  if (month =? 12) || (month <=? 3) then "H"
  else if month <=? 6 then "M"
  else if month <=? 9 then "U"
  else "Z".

Definition contract_year (years month : Z) : Z :=
  if month =? 12 then years + 1 else years.

(** *** Window-length strings *)

(** The whole-seconds form [<N>s] of a window-length string: decimal
    digits, at least one, followed by the letter [s]. *)
Definition whole_seconds_form (rule : string) : Prop :=
  exists ds : list ascii,
    ds <> [] /\ Forall (fun c => Py.isdigit c = true) ds
    /\ list_ascii_of_string rule = ds ++ ["s"%char].

(** The same form with white space allowed around it and between the digits
    and the letter. *)
Definition spaced_seconds_form (rule : string) : Prop :=
  exists pre ds gap post : list ascii,
    Forall (fun c => Py.isspace c = true) pre
    /\ ds <> [] /\ Forall (fun c => Py.isdigit c = true) ds
    /\ Forall (fun c => Py.isspace c = true) gap
    /\ Forall (fun c => Py.isspace c = true) post
    /\ list_ascii_of_string rule = pre ++ ds ++ gap ++ ["s"%char] ++ post.

(** A granularity is configured with [sec] seconds: its key is of the
    whole-seconds form, spells [sec], and [sec] is positive. *)
Definition configured (r : string) (sec : Z) : Prop :=
  whole_seconds_form r /\ rule_to_seconds r = Ok sec /\ 0 < sec.

(** The sentence of the specification on configuration defects, for one
    run: a window-length string that is not of the whole-seconds form makes
    the run fail before a batch is asked of the reader. *)
Definition config_defect_is_fatal (d : BuildBarsFromTicksOutputData) : Prop :=
  (exists rule, rule ∈ (timeframemap d).*2 /\ ~ whole_seconds_form rule) ->
  exists e, build_bars_from_ticks d = (Raised e, 0%nat).

(** *** Instants and windows *)

Definition us_per_day : Z := 86400 * us_per_second.

(** The number of seconds, possibly fractional and possibly negative, from
    the epoch to an instant, and the instant whose epoch seconds are
    [floor(epoch_seconds(dt) / sec) * sec]. *)
Definition epoch_seconds (dt : Z) : Q := inject_Z dt / inject_Z us_per_second.

Definition floor_to_window (dt sec : Z) : Z :=
  (Qfloor (epoch_seconds dt / inject_Z sec) * sec) * us_per_second.

(** An instant at which [floor_dt_to_seconds] floors: not before the epoch,
    or on a whole second. *)
Definition floors_exactly (t : Z) : Prop :=
  0 <= t \/ t mod us_per_second = 0.

(** [floor_dt_to_seconds] floors instant [t] for windows of [sec] seconds:
    it returns the start of the window that holds [t]. *)
Definition floors_at (sec t : Z) : Prop :=
  floor_dt_to_seconds t sec = Ok (Polars.window_of (sec * us_per_second) t).

(** The instants and window lengths on which the float arithmetic of
    [floor_dt_to_seconds] is exact and [fromtimestamp] returns: the instant
    is less than 2^34 seconds from the epoch, and the window is no longer
    than 2^34 seconds, which keeps the floored second within the years 1 to
    9999. *)
Definition float_exact (dt sec : Z) : Prop :=
  - 2 ^ 34 * us_per_second < dt < 2 ^ 34 * us_per_second
  /\ 0 < sec <= 2 ^ 34.

(** The ticks of the window that starts at [k] and lasts [every]: closed on
    the left, open on the right; in the order of the frame. *)
Definition in_window (every k : Z) (t : Tick) : Prop :=
  k <= datetime t < k + every.

Definition window_ticks (every k : Z) (ticks : list Tick) : list Tick :=
  filter (in_window every k) ticks.

(** *** Frames and bars *)

(** Order of the rows of a frame by an integer column: never decreasing,
    and strictly increasing. *)
Definition sorted_on {A : Type} (key : A -> Z) (l : list A) : Prop :=
  StronglySorted (fun a b => key a <= key b) l.

Definition ascending_on {A : Type} (key : A -> Z) (l : list A) : Prop :=
  StronglySorted (fun a b => key a < key b) l.

(** [x] is the largest, respectively the smallest, of the prices [l]. *)
Definition is_max_of (x : Q) (l : list Q) : Prop :=
  x ∈ l /\ forall y, y ∈ l -> (y <= x)%Q.

Definition is_min_of (x : Q) (l : list Q) : Prop :=
  x ∈ l /\ forall y, y ∈ l -> (x <= y)%Q.

(** [bars] reduce [ticks] by windows of length [every]: the window starts of
    the bars increase strictly, every tick's window has a bar, and each bar
    starts on a multiple of [every] and summarises the ticks of its window,
    of which there is at least one: first and last price in the order of the
    frame, largest and smallest price, and their number. *)
Definition reduced_by_window (every : Z) (ticks : list Tick)
    (bars : list Bar) : Prop :=
  ascending_on window_start bars
  /\ (forall t, t ∈ ticks ->
        exists b, b ∈ bars
          /\ window_start b = Polars.window_of every (datetime t))
  /\ (forall b, b ∈ bars ->
        window_start b mod every = 0
        /\ exists first rest,
             window_ticks every (window_start b) ticks = first :: rest
             /\ open b = mid first
             /\ close b = mid (List.last rest first)
             /\ is_max_of (high b) (mid <$> first :: rest)
             /\ is_min_of (low b) (mid <$> first :: rest)
             /\ volume b = Z.of_nat (length (first :: rest))).

(** The bars of a sorted frame of ticks for a window of [sec] seconds. *)
Definition bars_of (sec : Z) (ticks : list Tick) : list Bar :=
  omap Polars.agg (Polars.group_by_dynamic (sec * us_per_second) ticks).

(** The last row of [l] whose window start is [k], if there is one. *)
Definition last_with_start (k : Z) (l : list Bar) : option Bar :=
  last (filter (fun b => window_start b = k) l).

(** The accumulated bar lists a call of [merge_data] can be given: every
    configured granularity has its list, and the frames of one list have one
    schema. *)
Definition well_formed_out (rules : list string)
    (bars_out : gmap string (list BarFrame)) : Prop :=
  forall r, r ∈ rules ->
    exists fs, bars_out !! r = Some fs
      /\ forall f g, f ∈ fs -> g ∈ fs -> schema f = schema g.

(** *** The loop, one granularity at a time *)

(** The sanitized batches of a run, in the order of arrival. *)
Definition cleaned (data : LoopThroughFilesInputData)
    (batches : list RawBatch) : list (list Tick) :=
  (fun raw => clean_tick_batch raw (symbol_filter data)
                (sanity_min_price data) (sanity_max_price data)) <$> batches.

(** Timestamp order is kept across batch boundaries: no tick of a batch is
    later than a tick of a batch that follows. *)
Fixpoint ordered_batches (batches : list (list Tick)) : Prop :=
  match batches with
  | [] => True
  | b :: batches' =>
      (forall t t', t ∈ b -> t' ∈ List.concat batches' ->
         datetime t <= datetime t')
      /\ ordered_batches batches'
  end.

(** The dictionaries hold, for every granularity of [rules], its seconds, a
    buffer and a bar list. *)
Definition ready (rules : list string) (secs : gmap string Z) (st : Dicts)
  : Prop :=
  forall r, r ∈ rules ->
    exists sec, configured r sec /\ secs !! r = Some sec
      /\ is_Some (st.1 !! r) /\ is_Some (st.2 !! r).

(** The run as [build_bars_from_ticks] starts it: the granularities are
    distinct, each is configured with its seconds, and each has an empty
    buffer and an empty bar list. *)
Definition fresh_run (data : LoopThroughFilesInputData) : Prop :=
  NoDup (rules data)
  /\ forall r, r ∈ rules data ->
       exists sec, configured r sec /\ rule_secs data !! r = Some sec
         /\ buffers data !! r = Some [] /\ bars_out data !! r = Some [].

(** The bar list after the bars of [to_finalize] have been appended, when
    there are ticks to finalize. *)
Definition append_bars (sec : Z) (fs : list BarFrame)
    (to_finalize : list Tick) : list BarFrame :=
  match to_finalize with
  | [] => fs
  | _ :: _ =>
      fs ++ [ {| schema := bars_schema; rows := bars_of sec to_finalize |} ]
  end.

(** One ingest seen from one granularity: from the buffer [buf] and the bar
    list [fs] to [buf'] and [fs'], on the sanitized batch [ticks]. *)
Definition ingested (sec : Z) (ticks buf : list Tick) (fs : list BarFrame)
    (buf' : list Tick) (fs' : list BarFrame) : Prop :=
  let combined := Polars.sort datetime (buf ++ ticks) in
  exists last_dt cutoff,
    Polars.max_item (datetime <$> combined) = Some last_dt
    /\ floor_dt_to_seconds last_dt sec = Ok cutoff
    /\ buf' = filter (fun t => cutoff <= datetime t) combined
    /\ fs' = append_bars sec fs
               (filter (fun t => datetime t < cutoff) combined).

(** The batch loop seen from one granularity: the sanitized batches, in the
    order of arrival, each ingested unless it is empty. *)
Fixpoint streamed (sec : Z) (batches : list (list Tick))
    (buf : list Tick) (fs : list BarFrame)
    (buf' : list Tick) (fs' : list BarFrame) : Prop :=
  match batches with
  | [] => buf' = buf /\ fs' = fs
  | [] :: batches' => streamed sec batches' buf fs buf' fs'
  | ticks :: batches' =>
      exists buf1 fs1,
        ingested sec ticks buf fs buf1 fs1
        /\ streamed sec batches' buf1 fs1 buf' fs'
  end.

(** The flush seen from one granularity. *)
Definition flushed (r : string) (buf : list Tick) (fs fs' : list BarFrame)
  : Prop :=
  match buf with
  | [] => fs' = fs
  | _ :: _ =>
      exists b, bars_from_ticks buf r = Ok b
        /\ fs' = if (height b =? 0)%nat then fs else fs ++ [b]
  end.

(** Lines 204-206: the loop, and then [merge_data] on the bar lists it
    leaves. *)
Definition stream_and_merge (data : LoopThroughFilesInputData)
  : result (gmap string BarFrame) :=
  match loop_through_files data with
  | (Ok st, _) => merge_data st.2 (rules data)
  | (Raised e, _) => Raised e
  end.

(** What the watermark keeps true for one granularity, after the ticks [seen]
    have been ingested in timestamp order: for some window start [c] not
    later than the latest tick, the buffer holds the ticks from [c] on and
    the bar list holds the bars of the ticks before [c]. *)
Definition watermark_invariant (sec : Z) (seen buf : list Tick)
    (fs : list BarFrame) : Prop :=
  sorted_on datetime seen
  /\ Forall (fun f => schema f = bars_schema) fs
  /\ exists c,
       c mod (sec * us_per_second) = 0
       /\ (seen <> [] -> exists a, a ∈ seen /\ c <= datetime a)
       /\ buf = filter (fun t => c <= datetime t) seen
       /\ List.concat (rows <$> fs)
          = bars_of sec (filter (fun t => datetime t < c) seen).

(** The buffer invariant of the specification, for one granularity with
    windows of [every] microseconds: the buffer is sorted by timestamp, and
    its ticks lie in the window of the latest tick seen so far. *)
Definition buffer_invariant (every : Z) (seen buf : list Tick) : Prop :=
  sorted_on datetime buf
  /\ forall m, Polars.max_item (datetime <$> seen) = Some m ->
       forall t, t ∈ buf -> in_window every (Polars.window_of every m) t.

(** What makes the buffer invariant inductive: the buffer is sorted, holds
    only ticks seen, among them the latest, and none before the window start
    of the latest. *)
Definition buffer_holds_latest (every : Z) (seen buf : list Tick) : Prop :=
  sorted_on datetime buf
  /\ (forall t, t ∈ buf -> t ∈ seen)
  /\ forall m, Polars.max_item (datetime <$> seen) = Some m ->
       (exists t, t ∈ buf /\ datetime t = m)
       /\ forall t, t ∈ buf -> Polars.window_of every m <= datetime t.

(** What keeps the buffer invariant true when batches arrive in timestamp
    order: the buffer is sorted and holds ticks seen, none before the window
    start of the latest. *)
Definition buffer_within (every : Z) (seen buf : list Tick) : Prop :=
  sorted_on datetime buf
  /\ forall t, t ∈ buf ->
       t ∈ seen
       /\ forall m, Polars.max_item (datetime <$> seen) = Some m ->
            Polars.window_of every m <= datetime t.

(** *** Runs, sanitized rows and candles *)

(** A raw row passes the sanitizer of a run: both cells were read, the
    symbol matches when the batch has a symbol column, and the price lies
    within the bounds that are set. *)
Definition passes (has_symbol : bool) (symbol_filter : option string)
    (lo hi : option Q) (row : RawRow) (t : Tick) : Prop :=
  ts_event row = Some (datetime t)
  /\ price row = Some (mid t)
  /\ (has_symbol = true -> is_Some (symbol row) /\ symbol row = symbol_filter)
  /\ (forall l, lo = Some l -> (l <= mid t)%Q)
  /\ (forall h, hi = Some h -> (mid t <= h)%Q).

(** The tick a raw row leaves when it passes the sanitizer of a run, and
    nothing when it is dropped. *)
Definition row_tick (has_symbol : bool) (symbol_filter : option string)
    (lo hi : option Q) (row : RawRow) : option Tick :=
  d ← ts_event row;
  p ← price row;
  if (if has_symbol
      then bool_decide (is_Some (symbol row) /\ symbol row = symbol_filter)
      else true)
     && from_option (fun l => Qle_bool l p) true lo
     && from_option (fun h => Qle_bool p h) true hi
  then Some {| datetime := d; mid := p |}
  else None.

(** The number of ticks the bars of a frame account for. *)
Definition total_volume (bars : list Bar) : Z :=
  foldr (fun b acc => volume b + acc) 0 bars.

(** A bar that can be drawn as a candle: the low and the high bracket the
    open and the close, and at least one tick stands behind it. *)
Definition valid_candle (b : Bar) : Prop :=
  (low b <= open b)%Q /\ (open b <= high b)%Q
  /\ (low b <= close b)%Q /\ (close b <= high b)%Q
  /\ 1 <= volume b.

(** The run [data] over other batches, and the run reduced to the one
    granularity [r]. *)
Definition with_reader (data : LoopThroughFilesInputData)
    (batches : list RawBatch) : LoopThroughFilesInputData :=
  {| reader := batches; rules := rules data; rule_secs := rule_secs data;
     symbol_filter := symbol_filter data; buffers := buffers data;
     bars_out := bars_out data;
     sanity_min_price := sanity_min_price data;
     sanity_max_price := sanity_max_price data |}.

Definition only_rule (data : LoopThroughFilesInputData) (r : string)
  : LoopThroughFilesInputData :=
  {| reader := reader data; rules := [r]; rule_secs := rule_secs data;
     symbol_filter := symbol_filter data; buffers := buffers data;
     bars_out := bars_out data;
     sanity_min_price := sanity_min_price data;
     sanity_max_price := sanity_max_price data |}.

(** *** Bars of any float prices *)

Definition float_is_finite (x : Floats.float64) : Prop :=
  exists q, x = Floats.finite q.





(** [valid_candle] for a bar of any float prices. *)
Definition float_valid_candle (b : Floats.Bar) : Prop :=
  Floats.le (Floats.low b) (Floats.open b) = true
  /\ Floats.le (Floats.open b) (Floats.high b) = true
  /\ Floats.le (Floats.low b) (Floats.close b) = true
  /\ Floats.le (Floats.close b) (Floats.high b) = true
  /\ 1 <= Floats.volume b.

(** *** File names *)

(** The names [build_bars_from_ticks] recognises: an upper-case root symbol,
    a dash or an underscore, a year of this century, optionally a dash or an
    underscore, a two-digit month and the extension [.csv], optionally
    followed by a line feed; with the symbol, the year and the month they
    spell. *)
Definition file_name_form (name : string) (sym year month : list ascii)
  : Prop :=
  exists (sep y1 y2 m1 m2 : ascii) (sep2 nl : list ascii),
    sym <> [] /\ Forall (fun c => Py.isupper_AZ c = true) sym
    /\ is_dash_or_underscore sep = true
    /\ Py.isdigit y1 = true /\ Py.isdigit y2 = true
    /\ Py.isdigit m1 = true /\ Py.isdigit m2 = true
    /\ (sep2 = [] \/ exists c, sep2 = [c] /\ is_dash_or_underscore c = true)
    /\ (nl = [] \/ nl = ["010"%char])
    /\ year = ["2"%char; "0"%char; y1; y2] /\ month = [m1; m2]
    /\ list_ascii_of_string name
       = sym ++ sep :: year ++ sep2 ++ month
           ++ ["."%char; "c"%char; "s"%char; "v"%char] ++ nl.

(** ** Runs used as examples *)

(** A batch of canonical ticks as the reader delivers it: every cell read,
    no symbol column. *)
Definition canonical_batch (ticks : list Tick) : RawBatch :=
  {| has_symbol_column := false;
     raw_rows := (fun t => {| ts_event := Some (datetime t);
                              price := Some (mid t);
                              symbol := None |}) <$> ticks |}.

(** A fresh run with the single granularity ["60s"] over batches of
    canonical ticks, without price bounds. *)
Definition run_60s (batches : list (list Tick)) : LoopThroughFilesInputData :=
  {| reader := canonical_batch <$> batches;
     rules := ["60s"];
     rule_secs := {["60s" := 60]};
     symbol_filter := None;
     buffers := {["60s" := []]};
     bars_out := {["60s" := []]};
     sanity_min_price := None;
     sanity_max_price := None |}.

(** The four ticks of the specification's example, on the day that starts
    [day] microseconds after the epoch: 09:00:00.100, 09:00:00.900,
    09:00:01.200 and 09:01:05.000. *)
Definition example_ticks (day : Z) : list Tick :=
  [ {| datetime := day + 32400100000; mid := 100 |};
    {| datetime := day + 32400900000; mid := 101 |};
    {| datetime := day + 32401200000; mid := 99.5 |};
    {| datetime := day + 32465000000; mid := 102 |} ].

(** The two bars of the specification's example, on the day that starts
    [day] microseconds after the epoch: the windows of 09:00 and 09:01. *)
Definition example_bars (day : Z) : list Bar :=
  [ {| window_start := day + 32400000000;
       open := 100; high := 101; low := 99.5; close := 99.5; volume := 3 |};
    {| window_start := day + 32460000000;
       open := 102; high := 102; low := 102; close := 102; volume := 1 |} ].

(** 2020-03-02T00:00:00Z. *)
Definition day_2020_03_02 : Z := 18323 * 86400 * us_per_second.

(** A bar list in which the window of 09:00 on 2020-03-02 was finalized by
    two passes, the second appended after the first. *)
Definition twice_finalized : gmap string (list BarFrame) :=
  {[ "60s" :=
       [ {| schema := bars_schema;
            rows := [ {| window_start := day_2020_03_02 + 32400000000;
                         open := 100; high := 101; low := 99.5;
                         close := 99.5; volume := 3 |} ] |};
         {| schema := bars_schema;
            rows := [ {| window_start := day_2020_03_02 + 32400000000;
                         open := 98; high := 98; low := 98;
                         close := 98; volume := 1 |};
                      {| window_start := day_2020_03_02 + 32460000000;
                         open := 102; high := 102; low := 102;
                         close := 102; volume := 1 |} ] |} ] ]}.

(** A file without rows, read with one granularity written with a space. *)
Definition spaced_run : BuildBarsFromTicksOutputData :=
  {| data := [];
     file_name := "NQ_2020_03.csv";
     timeframemap := [("1m", "60 s")];
     build_sanity_min_price := None;
     build_sanity_max_price := None |}.

(** A run whose second granularity is written in minutes. *)
Definition minutes_run : BuildBarsFromTicksOutputData :=
  {| data := [];
     file_name := "NQ_2020_03.csv";
     timeframemap := [("1m", "60s"); ("5m", "5m")];
     build_sanity_min_price := None;
     build_sanity_max_price := None |}.

(** A file of the four example ticks, read with a window of no seconds. *)
Definition zero_window_run : BuildBarsFromTicksOutputData :=
  {| data := [canonical_batch (example_ticks day_2020_03_02)];
     file_name := "NQ_2020_03.csv";
     timeframemap := [("0", "0s")];
     build_sanity_min_price := None;
     build_sanity_max_price := None |}.

(** A bar list whose two frames were finalized one after the other, the
    windows of 09:00 and 09:01 on 2020-03-02. *)
Definition finalized_in_order : gmap string (list BarFrame) :=
  {[ "60s" :=
       [ {| schema := bars_schema;
            rows := [ {| window_start := day_2020_03_02 + 32400000000;
                         open := 100; high := 101; low := 99.5;
                         close := 99.5; volume := 3 |} ] |};
         {| schema := bars_schema;
            rows := [ {| window_start := day_2020_03_02 + 32460000000;
                         open := 102; high := 102; low := 102;
                         close := 102; volume := 1 |} ] |} ] ]}.

(** A batch with a symbol column that holds the four example ticks under
    the contract symbol [NQH0]. *)
Definition symbol_batch : RawBatch :=
  {| has_symbol_column := true;
     raw_rows := (fun t => {| ts_event := Some (datetime t);
                              price := Some (mid t);
                              symbol := Some "NQH0" |})
                   <$> example_ticks day_2020_03_02 |}.

(** The example ticks in two batches, in a file named for March 2020 and in
    a file named for a thirteenth month. *)
Definition march_run : BuildBarsFromTicksOutputData :=
  {| data := [canonical_batch (take 2 (example_ticks day_2020_03_02));
              canonical_batch (drop 2 (example_ticks day_2020_03_02))];
     file_name := "NQ_2020_03.csv";
     timeframemap := [("1m", "60s"); ("5m", "300s")];
     build_sanity_min_price := None;
     build_sanity_max_price := None |}.

Definition thirteenth_month_run : BuildBarsFromTicksOutputData :=
  {| data := [symbol_batch];
     file_name := "NQ_2020_13.csv";
     timeframemap := [("1m", "60s")];
     build_sanity_min_price := None;
     build_sanity_max_price := None |}.

(** The example ticks uploaded under a recognised name, with both price
    selectors left on their first option. *)
Definition default_selection : Widgets :=
  {| file := Some ("NQ_2020_03.csv"%string,
                   [canonical_batch (example_ticks day_2020_03_02)]);
     sanity_min_choice := hd 0%Q sanity_price_options;
     sanity_max_choice := hd 0%Q sanity_price_options;
     product := "1m" |}.

(** The example ticks in two batches of two, with the granularity
    ["60s"]. *)
Definition split_run : LoopThroughFilesInputData :=
  run_60s [take 2 (example_ticks day_2020_03_02);
           drop 2 (example_ticks day_2020_03_02)].

(** ** Batches of the reader used as examples *)

(** A row whose [ts_event] cell reads as [s] seconds from the epoch and
    whose price, scaled, is [p]; and a batch of such rows with a [ts_event]
    column of strings, a [price] column and no symbol column. *)
Definition csv_row (s : Z) (p : Q) : CsvRow :=
  {| ts_event_seconds := Some s; price_scaled := Some p;
     symbol_cell := None |}.

Definition csv_batch (rows : list CsvRow) : CsvBatch :=
  {| ts_event_column := ts_event_strings; has_price_column := true;
     symbol_column := false; csv_rows := rows |}.

(** The frames lines 68-82 select from the batches that pass them. *)
Definition selected (csv : list CsvBatch) : list RawBatch :=
  omap (fun df => match with_columns_select df with
                  | Ok out => Some out
                  | Raised _ => None
                  end) csv.

(** A fresh run with the granularities ["60s"] and ["300s"] over given
    frames, without symbol filter and without price bounds. *)
Definition run_60s_300s (frames : list RawBatch) : LoopThroughFilesInputData :=
  {| reader := frames;
     rules := ["60s"; "300s"];
     rule_secs := {["60s" := 60; "300s" := 300]};
     symbol_filter := None;
     buffers := {["60s" := []; "300s" := []]};
     bars_out := {["60s" := []; "300s" := []]};
     sanity_min_price := None;
     sanity_max_price := None |}.

(** Two batches around the epoch, in timestamp order across their boundary
    and out of order inside the first: 23:59:58 and 23:58:59 on 1969-12-31,
    then 23:59:59 and 00:00:05 on 1970-01-01.  The window of 23:59 spans the
    two batches. *)
Definition new_year_csv : list CsvBatch :=
  [ csv_batch [csv_row (-2) 100; csv_row (-61) 99];
    csv_batch [csv_row (-1) 101; csv_row 5 102] ].

Definition new_year_run : LoopThroughFilesInputData :=
  run_60s_300s (selected new_year_csv).

(** A batch that arrives late: 23:59:59 on 1969-12-31, then a batch with
    the older tick of 23:58:19. *)
Definition straggler_csv : list CsvBatch :=
  [ csv_batch [csv_row (-1) 100]; csv_batch [csv_row (-101) 101] ].

Definition straggler_run : LoopThroughFilesInputData :=
  run_60s_300s (selected straggler_csv).

(** Bar lists of two granularities: one frame under ["60s"], none under
    ["300s"]. *)
Definition two_bar_lists : gmap string (list BarFrame) :=
  {[ "60s" :=
       [ {| schema := bars_schema;
            rows := [ {| window_start := day_2020_03_02 + 32400000000;
                         open := 100; high := 101; low := 99.5;
                         close := 99.5; volume := 3 |} ] |} ];
     "300s" := [] ]}.

(** What [merge_data] makes of these bar lists. *)
Definition two_series : gmap string BarFrame :=
  {[ "60s" :=
       {| schema := bars_schema;
          rows := [ {| window_start := day_2020_03_02 + 32400000000;
                       open := 100; high := 101; low := 99.5;
                       close := 99.5; volume := 3 |} ] |};
     "300s" := {| schema := empty_schema; rows := [] |} ]}.

(** The series of the example ticks for windows of one and of five
    minutes. *)
Definition march_series : gmap string BarFrame :=
  {[ "60s" :=
       {| schema := bars_schema; rows := example_bars day_2020_03_02 |};
     "300s" :=
       {| schema := bars_schema;
          rows := [ {| window_start := day_2020_03_02 + 32400000000;
                       open := 100; high := 102; low := 99.5;
                       close := 102; volume := 4 |} ] |} ]}.

(** A run whose granularity has no buffer, over a batch without rows
    followed by the example ticks in two batches. *)
Definition unbuffered_late_run : LoopThroughFilesInputData :=
  {| reader := [canonical_batch [];
                canonical_batch (take 2 (example_ticks day_2020_03_02));
                canonical_batch (drop 2 (example_ticks day_2020_03_02))];
     rules := ["60s"];
     rule_secs := {["60s" := 60]};
     symbol_filter := None;
     buffers := ∅;
     bars_out := {["60s" := []]};
     sanity_min_price := None;
     sanity_max_price := None |}.


(** The example ticks uploaded under a recognised name, with the price
    selectors on 0 and 100000. *)
Definition march_upload : Widgets :=
  {| file := Some ("NQ_2020_03.csv"%string,
                   [canonical_batch (example_ticks day_2020_03_02)]);
     sanity_min_choice := 0;
     sanity_max_choice := 100000;
     product := "1m" |}.

(** ** Proof tools *)

(** Case analysis on a character that a pattern compares with a literal:
    the cases in which the comparison fails are closed. *)
Ltac case_char c :=
  destruct c as [[] [] [] [] [] [] [] []]; try discriminate.

(** * Properties *)

(** ** Python's [str] on integers *)

Section DecimalNumerals.
Import Decimal.

Lemma string_of_uint_nonempty d :
  d <> Nil -> NilEmpty.string_of_uint d <> EmptyString.
Proof. destruct d; simpl; congruence. Qed.

Lemma string_of_uint_nonnil d :
  d <> Nil -> NilZero.string_of_uint d = NilEmpty.string_of_uint d.
Proof. destruct d; simpl; congruence. Qed.

Lemma last_char_cons c s :
  s <> EmptyString -> Py.last_char (String c s) = Py.last_char s.
Proof. destruct s; simpl; congruence. Qed.

(** Reversing a numeral onto a non-empty one keeps the last digit. *)
Lemma last_char_revapp d acc :
  acc <> Nil ->
  Py.last_char (NilEmpty.string_of_uint (revapp d acc))
  = Py.last_char (NilEmpty.string_of_uint acc).
Proof.
  revert acc.
  induction d; intros acc Hacc; simpl; [done | ..];
    (rewrite IHd by done; simpl NilEmpty.string_of_uint;
     apply last_char_cons, string_of_uint_nonempty, Hacc).
Qed.

Lemma last_char_rev d :
  d <> Nil ->
  Py.last_char (NilEmpty.string_of_uint (rev d))
  = digit_str (Z.of_N (Unsigned.hd d)).
Proof.
  intros Hd. unfold rev.
  destruct d; [done | ..]; simpl revapp;
    (rewrite last_char_revapp by done; reflexivity).
Qed.

Lemma hd_mod_10 d : Unsigned.hd d = (Unsigned.of_lu d mod 10)%N.
Proof.
  rewrite (Unsigned.of_lu_eqn d).
  rewrite N.Div0.add_mod, (N.mul_comm 10), N.Div0.mod_mul, N.add_0_r.
  rewrite N.Div0.mod_mod.
  symmetry. apply N.mod_small. destruct d; simpl; lia.
Qed.

Lemma little_uint_value p : Unsigned.of_lu (Pos.to_little_uint p) = Npos p.
Proof.
  rewrite <- Unsigned.of_lu_rev. apply Unsigned.of_to.
Qed.

Lemma last_char_pos p :
  Py.last_char (NilZero.string_of_uint (Pos.to_uint p))
  = digit_str (Zpos p mod 10).
Proof.
  rewrite string_of_uint_nonnil by apply Unsigned.to_uint_nonnil.
  unfold Pos.to_uint. rewrite last_char_rev.
  - rewrite hd_mod_10, little_uint_value.
    rewrite N2Z.inj_mod. reflexivity.
  - intros H. pose proof (little_uint_value p) as E.
    rewrite H in E. discriminate.
Qed.

(** [str(n)[-1]] is the last decimal digit of [n]. *)
Lemma last_char_str n : Py.last_char (Py.str n) = digit_str (Z.abs n mod 10).
Proof.
  unfold Py.str. destruct n as [|p|p]; simpl Z.to_int; simpl Z.abs.
  - reflexivity.
  - simpl NilZero.string_of_int. apply last_char_pos.
  - simpl NilZero.string_of_int.
    rewrite last_char_cons; [apply last_char_pos|].
    rewrite string_of_uint_nonnil by apply Unsigned.to_uint_nonnil.
    apply string_of_uint_nonempty, Unsigned.to_uint_nonnil.
Qed.

Lemma str_not_empty n : Py.str n <> EmptyString.
Proof.
  unfold Py.str. destruct n as [|p|p]; simpl Z.to_int;
    simpl NilZero.string_of_int; try discriminate.
  rewrite string_of_uint_nonnil by apply Unsigned.to_uint_nonnil.
  apply string_of_uint_nonempty, Unsigned.to_uint_nonnil.
Qed.
End DecimalNumerals.

(** ** The symbol filter *)

(** C8.  For every root symbol and every 4-digit year [Y], the filter of
    month 12 is the symbol, code [H] and the digit of year [Y + 1]; months
    1-3 give [H] of year [Y], months 4-6 [M], months 7-9 [U], months 10-11
    [Z]; any month outside 1-12 gives no filter. *)
Theorem filter_symbol_month_mapping (symbol : string) (Y : Z) :
  1000 <= Y <= 9999 ->
  filter_symbol_in_files symbol Y 12
    = Some (symbol +:+ "H" +:+ digit_str ((Y + 1) mod 10))
  /\ (forall m, 1 <= m <= 3 ->
        filter_symbol_in_files symbol Y m
        = Some (symbol +:+ "H" +:+ digit_str (Y mod 10)))
  /\ (forall m, 4 <= m <= 6 ->
        filter_symbol_in_files symbol Y m
        = Some (symbol +:+ "M" +:+ digit_str (Y mod 10)))
  /\ (forall m, 7 <= m <= 9 ->
        filter_symbol_in_files symbol Y m
        = Some (symbol +:+ "U" +:+ digit_str (Y mod 10)))
  /\ (forall m, 10 <= m <= 11 ->
        filter_symbol_in_files symbol Y m
        = Some (symbol +:+ "Z" +:+ digit_str (Y mod 10)))
  /\ (forall m, ~ 1 <= m <= 12 -> filter_symbol_in_files symbol Y m = None).
Proof.
  intros HY.
  assert (HabsY : Z.abs Y = Y) by lia.
  assert (HabsY1 : Z.abs (Y + 1) = Y + 1) by lia.
  repeat split.
  - unfold filter_symbol_in_files. simpl. by rewrite last_char_str, HabsY1.
  - intros m Hm. unfold filter_symbol_in_files.
    rewrite !last_char_str, HabsY.
    assert (m = 1 \/ m = 2 \/ m = 3) as [->|[->| ->]] by lia; reflexivity.
  - intros m Hm. unfold filter_symbol_in_files.
    rewrite !last_char_str, HabsY.
    assert (m = 4 \/ m = 5 \/ m = 6) as [->|[->| ->]] by lia; reflexivity.
  - intros m Hm. unfold filter_symbol_in_files.
    rewrite !last_char_str, HabsY.
    assert (m = 7 \/ m = 8 \/ m = 9) as [->|[->| ->]] by lia; reflexivity.
  - intros m Hm. unfold filter_symbol_in_files.
    rewrite !last_char_str, HabsY.
    assert (m = 10 \/ m = 11) as [->| ->] by lia; reflexivity.
  - intros m Hm. unfold filter_symbol_in_files.
    repeat match goal with
           | |- context [?a =? ?b] =>
               destruct (Z.eqb_spec a b); [lia | simpl]
           end.
    reflexivity.
Qed.

Lemma filter_symbol_month_mapping_witness :
  filter_symbol_in_files "NQ" 2019 12 = Some "NQH0"
  /\ filter_symbol_in_files "NQ" 2020 3 = Some "NQH0"
  /\ filter_symbol_in_files "NQ" 2020 5 = Some "NQM0"
  /\ filter_symbol_in_files "NQ" 2020 13 = None.
Proof.
  assert (H19 : 1000 <= 2019 <= 9999) by lia.
  assert (H20 : 1000 <= 2020 <= 9999) by lia.
  destruct (filter_symbol_month_mapping "NQ" 2019 H19) as [Hdec _].
  destruct (filter_symbol_month_mapping "NQ" 2020 H20)
    as (_ & Hh & Hm & _ & _ & Hnone).
  split; [exact Hdec|].
  split; [apply (Hh 3); lia|].
  split; [apply (Hm 5); lia|].
  apply (Hnone 13); lia.
Defined.

(** C10.  For every symbol, year and month in 1-12 the filter is the symbol,
    the contract-month code and the last decimal digit of the contract year
    (the year after for December); hence, for a year that is not negative,
    the filter of year [y] is that of year [y + 10]. *)
Theorem filter_symbol_last_digit (s : string) (y m : Z) :
  1 <= m <= 12 ->
  filter_symbol_in_files s y m
    = Some (s +:+ contract_month_code m
              +:+ digit_str (Z.abs (contract_year y m) mod 10))
  /\ (0 <= y ->
      filter_symbol_in_files s y m = filter_symbol_in_files s (y + 10) m).
Proof.
  intros Hm.
  assert (Hform : forall y',
    filter_symbol_in_files s y' m
    = Some (s +:+ contract_month_code m
              +:+ digit_str (Z.abs (contract_year y' m) mod 10))).
  { intros y'. unfold filter_symbol_in_files, contract_year.
    rewrite !last_char_str.
    assert (m = 1 \/ m = 2 \/ m = 3 \/ m = 4 \/ m = 5 \/ m = 6 \/ m = 7
            \/ m = 8 \/ m = 9 \/ m = 10 \/ m = 11 \/ m = 12) as Hcases by lia.
    repeat (destruct Hcases as [-> | Hcases]; [reflexivity|]).
    subst m. reflexivity. }
  split; [apply Hform|].
  intros Hy. rewrite !Hform. do 3 f_equal.
  unfold contract_year. destruct (m =? 12).
  - rewrite !Z.abs_eq by lia.
    replace (y + 10 + 1) with (y + 1 + 1 * 10) by lia.
    by rewrite Z.mod_add.
  - rewrite !Z.abs_eq by lia.
    replace (y + 10) with (y + 1 * 10) by lia.
    by rewrite Z.mod_add.
Qed.

Lemma filter_symbol_last_digit_witness :
  filter_symbol_in_files "NQ" 2020 3 = Some "NQH0"
  /\ filter_symbol_in_files "NQ" 2020 3 = filter_symbol_in_files "NQ" 2030 3.
Proof.
  assert (Hm : 1 <= 3 <= 12) by lia.
  destruct (filter_symbol_last_digit "NQ" 2020 3 Hm) as [Hform Hperiod].
  split; [exact Hform|].
  apply Hperiod. lia.
Defined.

(** ** floor_dt_to_seconds *)

(** The specified floor is the start of the epoch-aligned window. *)
Lemma floor_to_window_div (dt sec : Z) :
  0 < sec -> floor_to_window dt sec = Polars.window_of (sec * us_per_second) dt.
Proof.
  intros Hsec. unfold floor_to_window, Polars.window_of, epoch_seconds.
  assert (E : (inject_Z dt / inject_Z us_per_second / inject_Z sec
               == dt # Z.to_pos (sec * us_per_second))%Q).
  { unfold Qeq, Qdiv, Qmult, Qinv, inject_Z, us_per_second. simpl.
    destruct sec as [|p|p]; try lia. simpl. lia. }
  rewrite (Qfloor_comp _ _ E). unfold Qfloor.
  rewrite Z2Pos.id by (unfold us_per_second; lia). lia.
Qed.

(** From the epoch on, and at every whole second, the code computes the
    specified floor. *)
Lemma floor_dt_to_seconds_floor (dt sec : Z) :
  0 < sec -> 0 <= dt \/ dt mod us_per_second = 0 ->
  floor_dt_to_seconds dt sec = Ok (Polars.window_of (sec * us_per_second) dt).
Proof.
  intros Hsec Hdt. unfold floor_dt_to_seconds, Polars.window_of.
  destruct (Z.eqb_spec sec 0); [lia|]. f_equal.
  assert (Hq : dt ÷ us_per_second = dt / us_per_second).
  { destruct Hdt as [Hdt|Hdt].
    - apply Z.quot_div_nonneg; unfold us_per_second; lia.
    - apply Z.mod_divide in Hdt; [|unfold us_per_second; lia].
      destruct Hdt as [k ->].
      rewrite Z.quot_mul, Z.div_mul; unfold us_per_second; lia. }
  rewrite Hq, Z.div_div by (unfold us_per_second; lia).
  rewrite (Z.mul_comm us_per_second sec). lia.
Qed.

(** There the code returns the instant the specification describes. *)
Lemma floor_dt_to_seconds_spec (dt sec : Z) :
  0 < sec -> 0 <= dt \/ dt mod us_per_second = 0 ->
  floor_dt_to_seconds dt sec = Ok (floor_to_window dt sec).
Proof.
  intros Hsec Hdt. rewrite floor_to_window_div by done.
  by apply floor_dt_to_seconds_floor.
Qed.

Lemma floors_exactly_at (sec t : Z) :
  0 < sec -> floors_exactly t -> floors_at sec t.
Proof. intros Hsec Ht. by apply floor_dt_to_seconds_floor. Qed.

(** Truncation moves an instant up by less than a second; unless the instant
    is in the last second of its window, the window stays the same. *)
Lemma floors_at_inside (sec t : Z) :
  0 < sec -> (t / us_per_second) mod sec <> sec - 1 -> floors_at sec t.
Proof.
  intros Hsec Hlast. unfold floors_at, floor_dt_to_seconds, Polars.window_of.
  destruct (Z.eqb_spec sec 0); [lia|]. f_equal.
  assert (Hu : 0 < us_per_second) by (unfold us_per_second; lia).
  set (u := us_per_second) in *.
  set (q := t / u) in *. set (q' := t ÷ u).
  assert (Hq : q <= q' <= q + 1).
  { pose proof (Z.div_mod t u ltac:(lia)) as Hdiv.
    pose proof (Z.mod_pos_bound t u Hu) as Hmod.
    pose proof (Z.quot_rem' t u) as Hquot.
    pose proof (Z.rem_bound_abs t u ltac:(lia)) as Hrem.
    fold q in Hdiv. fold q' in Hquot. nia. }
  assert (Hdiv : q' / sec = q / sec).
  { pose proof (Z.div_mod q sec ltac:(lia)) as Hdm.
    pose proof (Z.mod_pos_bound q sec Hsec) as Hmb.
    symmetry. apply (Z.div_unique q' sec (q / sec) (q mod sec + (q' - q)));
      lia. }
  rewrite Hdiv. unfold q.
  rewrite Z.div_div by lia. rewrite (Z.mul_comm u sec). lia.
Qed.

(** C3, the floor of an instant, before the epoch.  Half a second before
    the epoch, with windows of one second, the code answers the epoch
    itself, whereas the floor of -0.5 is -1: the instant asked for is one
    second before the epoch. *)
Theorem floor_dt_to_seconds_before_epoch :
  floor_dt_to_seconds (-500000) 1 = Ok 0
  /\ floor_to_window (-500000) 1 = -1000000.
Proof. split; reflexivity. Qed.


(** ** rule_to_seconds and the configuration *)

Section TakeDrop.
Context {A : Type} (p : A -> bool).

Lemma take_drop_while l : take_while p l ++ drop_while p l = l.
Proof. induction l as [|x l IH]; simpl; [done|]. destruct (p x); simpl; congruence. Qed.

Lemma take_while_all l : Forall (fun x => p x = true) (take_while p l).
Proof.
  induction l as [|x l IH]; simpl; [constructor|].
  destruct (p x) eqn:E; constructor; done.
Qed.

Lemma drop_while_stops l : stops p (drop_while p l).
Proof.
  induction l as [|x l IH]; simpl; [done|].
  destruct (p x) eqn:E; simpl; done.
Qed.

Lemma take_while_app a b :
  Forall (fun x => p x = true) a -> stops p b -> take_while p (a ++ b) = a.
Proof.
  intros Ha Hb. induction Ha as [|x a Hx Ha IH]; simpl.
  - destruct b as [|y b]; simpl in *; [done|]. by rewrite Hb.
  - rewrite Hx. by f_equal.
Qed.

Lemma drop_while_app a b :
  Forall (fun x => p x = true) a -> stops p b -> drop_while p (a ++ b) = b.
Proof.
  intros Ha Hb. induction Ha as [|x a Hx Ha IH]; simpl.
  - destruct b as [|y b]; simpl in *; [done|]. by rewrite Hb.
  - by rewrite Hx.
Qed.

Lemma drop_while_all a : Forall (fun x => p x = true) a -> drop_while p a = [].
Proof.
  intros Ha. rewrite <- (app_nil_r a). by apply drop_while_app.
Qed.
End TakeDrop.

Lemma digit_not_space c : Py.isdigit c = true -> Py.isspace c = false.
Proof.
  unfold Py.isdigit, Py.isspace. generalize (nat_of_ascii c). intros n H.
  apply andb_true_iff in H as [H1 H2].
  apply Nat.leb_le in H1, H2.
  repeat (apply orb_false_iff; split);
    try (apply andb_false_iff);
    try (right; apply Nat.leb_gt; lia);
    try (apply Nat.eqb_neq; lia).
Qed.

Lemma space_not_digit c : Py.isspace c = true -> Py.isdigit c = false.
Proof.
  intros H. destruct (Py.isdigit c) eqn:E; [|done].
  apply digit_not_space in E. congruence.
Qed.

Lemma Forall_reverse {A : Type} (P : A -> Prop) (l : list A) :
  Forall P l -> Forall P (reverse l).
Proof. intros H. rewrite reverse_Permutation. done. Qed.

(** [strip] removes the white space around a core that neither starts nor
    ends with white space. *)
Lemma strip_core (pre core post : list ascii) :
  Forall (fun c => Py.isspace c = true) pre ->
  Forall (fun c => Py.isspace c = true) post ->
  stops Py.isspace core -> stops Py.isspace (reverse core) ->
  Py.strip (pre ++ core ++ post) = core.
Proof.
  intros Hpre Hpost Hhd Hlast. unfold Py.strip.
  destruct core as [|x core].
  - simpl. rewrite (drop_while_all _ (pre ++ post)) by (by apply Forall_app).
    done.
  - rewrite drop_while_app; [|done|done].
    rewrite reverse_app, drop_while_app; [|by apply Forall_reverse|done].
    by rewrite reverse_involutive.
Qed.

(** What [strip] leaves neither starts nor ends with white space, and what
    it removes is white space. *)
Lemma strip_split (cs : list ascii) :
  exists pre post,
    Forall (fun c => Py.isspace c = true) pre
    /\ Forall (fun c => Py.isspace c = true) post
    /\ cs = pre ++ Py.strip cs ++ post.
Proof.
  unfold Py.strip.
  exists (take_while Py.isspace cs),
    (reverse (take_while Py.isspace (reverse (drop_while Py.isspace cs)))).
  split; [apply take_while_all|].
  split; [apply Forall_reverse, take_while_all|].
  rewrite <- reverse_app, take_drop_while, reverse_involutive.
  by rewrite take_drop_while.
Qed.

(** [rule_to_seconds] accepts exactly the strings of the spaced form. *)
Lemma rule_to_seconds_accepts (rule : string) :
  (exists n, rule_to_seconds rule = Ok n) <-> spaced_seconds_form rule.
Proof.
  unfold rule_to_seconds. split.
  - intros [n Hn].
    destruct (strip_split (list_ascii_of_string rule))
      as (pre & post & Hpre & Hpost & Hcs).
    set (s := Py.strip (list_ascii_of_string rule)) in *.
    pose proof (take_drop_while Py.isdigit s) as Hs.
    pose proof (take_while_all Py.isdigit s) as Hds.
    remember (drop_while Py.isdigit s) as rest eqn:Erest.
    pose proof (take_drop_while Py.isspace rest) as Hrest.
    pose proof (take_while_all Py.isspace rest) as Hgap.
    remember (take_while Py.isspace rest) as gap eqn:Egap.
    remember (take_while Py.isdigit s) as ds eqn:Eds.
    destruct (bool_decide (ds <> [])) eqn:Hne; [|done].
    destruct (bool_decide (drop_while Py.isspace rest = ["s"%char])) eqn:Htail;
      [|done].
    apply bool_decide_eq_true in Hne, Htail.
    exists pre, ds, gap, post.
    repeat split; try done.
    rewrite Hcs, <- Hs, <- Hrest, Htail. by rewrite <- !app_assoc.
  - intros (pre & ds & gap & post & Hpre & Hne & Hds & Hgap & Hpost & Hcs).
    rewrite Hcs.
    replace (pre ++ ds ++ gap ++ ["s"%char] ++ post)
      with (pre ++ (ds ++ gap ++ ["s"%char]) ++ post)
      by (by rewrite <- !app_assoc).
    assert (Hstop : stops Py.isdigit (gap ++ ["s"%char])).
    { destruct gap as [|g gap]; [done|]. simpl.
      apply space_not_digit. by inversion Hgap. }
    rewrite strip_core; try done.
    + rewrite take_while_app, drop_while_app by done.
      rewrite drop_while_app by done.
      rewrite !bool_decide_eq_true_2 by done. simpl. eauto.
    + destruct ds as [|d ds]; [done|]. simpl.
      apply digit_not_space. by inversion Hds.
    + rewrite !reverse_app. done.
Qed.

Lemma rule_to_seconds_raises (rule : string) :
  ~ spaced_seconds_form rule -> rule_to_seconds rule = Raised (ValueError rule).
Proof.
  intros H. destruct (rule_to_seconds rule) as [n|e] eqn:E.
  - destruct H. apply rule_to_seconds_accepts. eauto.
  - revert E. unfold rule_to_seconds. by case_match.
Qed.

(** The comprehension of line 179 raises at the first rule that is not of
    the spaced form, whatever it has collected so far. *)
Lemma rule_secs_raises (rules : list string) (acc : gmap string Z) :
  Exists (fun r => ~ spaced_seconds_form r) rules ->
  exists r, r ∈ rules /\ ~ spaced_seconds_form r
    /\ for_rules (fun r d => sec ← rule_to_seconds r; Ok (<[r := sec]> d))
         rules acc = Raised (ValueError r).
Proof.
  revert acc. induction rules as [|r rs IH]; intros acc Hex.
  - inversion Hex.
  - simpl. destruct (rule_to_seconds r) as [n|e] eqn:E.
    + assert (Hr : spaced_seconds_form r)
        by (apply rule_to_seconds_accepts; eauto).
      inversion Hex as [? ? Hbad|? ? Hrs]; subst; [done|].
      destruct (IH (<[r := n]> acc) Hrs) as (r' & Hin & Hbad & Hrun).
      exists r'. repeat split; [by right|done|done].
    + assert (Hr : ~ spaced_seconds_form r).
      { intros Hr. apply rule_to_seconds_accepts in Hr as [n Hn]. congruence. }
      rewrite (rule_to_seconds_raises r Hr) in E.
      exists r. repeat split; [by left|done|]. simpl. congruence.
Qed.

(** C9, as the code has it.  If a configured window-length string is not of
    the form digits, optional white space, [s] (white space around it
    ignored), the run raises [ValueError] for such a string, no batch has
    been asked of the reader, and no mapping is returned. *)
Theorem malformed_rule_aborts_run (d : BuildBarsFromTicksOutputData) :
  (exists rule, rule ∈ (timeframemap d).*2 /\ ~ spaced_seconds_form rule) ->
  exists r, r ∈ (timeframemap d).*2 /\ ~ spaced_seconds_form r
    /\ build_bars_from_ticks d = (Raised (ValueError r), 0%nat).
Proof.
  intros (rule & Hin & Hbad).
  assert (Hex : Exists (fun r => ~ spaced_seconds_form r) (timeframemap d).*2)
    by (apply Exists_exists; eauto).
  destruct (rule_secs_raises _ ∅ Hex) as (r & Hr & Hrbad & Hrun).
  exists r. repeat split; [done|done|].
  unfold build_bars_from_ticks, rule_secs_of. by rewrite Hrun.
Qed.

Lemma minutes_not_spaced : ~ spaced_seconds_form "5m".
Proof.
  intros H. apply rule_to_seconds_accepts in H as [n Hn].
  vm_compute in Hn. discriminate Hn.
Defined.

Lemma malformed_rule_aborts_run_witness :
  exists r, r ∈ (timeframemap minutes_run).*2 /\ ~ spaced_seconds_form r
    /\ build_bars_from_ticks minutes_run = (Raised (ValueError r), 0%nat).
Proof.
  apply (malformed_rule_aborts_run minutes_run).
  exists "5m". split.
  - simpl. set_solver.
  - exact minutes_not_spaced.
Defined.

(** C9, as stated, fails on a run whose window length is written ["60 s"]:
    the string is not of the whole-seconds form, yet the run asks the reader
    for a batch, meets the end of the input and returns its mapping. *)
Lemma spaced_rule_run_returns : ~ config_defect_is_fatal spaced_run.
Proof.
  intros H. destruct H as [e He].
  - exists "60 s". split; [simpl; set_solver|].
    intros (ds & Hne & Hds & Heq).
    change (list_ascii_of_string "60 s")
      with (["6"; "0"; " "]%char ++ ["s"%char]) in Heq.
    apply app_inj_tail in Heq as [<- _].
    apply Forall_cons in Hds as [_ Hds].
    apply Forall_cons in Hds as [_ Hds].
    apply Forall_cons in Hds as [Hsp _]. discriminate Hsp.
  - vm_compute in He. discriminate He.
Qed.

(** ** Sorting *)

Section SortFacts.
Context {A : Type} (key : A -> Z).

Lemma insert_sorted_perm x l : Polars.insert_sorted key x l ≡ₚ x :: l.
Proof.
  induction l as [|y l IH]; simpl; [done|].
  case_match; [done|]. rewrite IH. apply Permutation_swap.
Qed.

Lemma sort_perm l : Polars.sort key l ≡ₚ l.
Proof.
  induction l as [|x l IH]; simpl; [done|].
  by rewrite insert_sorted_perm, IH.
Qed.

Lemma insert_sorted_sorted x l :
  sorted_on key l -> sorted_on key (Polars.insert_sorted key x l).
Proof.
  unfold sorted_on. induction 1 as [|y l Hl IH Hy]; simpl.
  - repeat constructor.
  - destruct (Z.leb_spec (key x) (key y)) as [Hxy|Hxy].
    + constructor; [by constructor|].
      constructor; [done|].
      eapply Forall_impl; [exact Hy|]. simpl. intros; lia.
    + constructor; [done|].
      rewrite insert_sorted_perm. constructor; [lia|done].
Qed.

Lemma sort_sorted l : sorted_on key (Polars.sort key l).
Proof.
  induction l as [|x l IH]; simpl; [constructor|].
  by apply insert_sorted_sorted.
Qed.

(** Sorting a frame that is in order leaves it as it is. *)
Lemma sort_id l : sorted_on key l -> Polars.sort key l = l.
Proof.
  unfold sorted_on. induction 1 as [|x l Hl IH Hx]; simpl; [done|].
  rewrite IH. destruct Hx as [|y l Hy _]; simpl; [done|].
  destruct (Z.leb_spec (key x) (key y)); [done|lia].
Qed.

(** The sort is stable: rows with the same key keep their order. *)
Lemma insert_sorted_filter k x l :
  sorted_on key l ->
  filter (fun y => key y = k) (Polars.insert_sorted key x l)
  = filter (fun y => key y = k) (x :: l).
Proof.
  unfold sorted_on. induction 1 as [|y l Hl IH Hy]; simpl; [done|].
  destruct (Z.leb_spec (key x) (key y)) as [Hxy|Hxy]; [done|].
  rewrite !filter_cons, IH, !filter_cons.
  destruct (decide (key y = k)) as [Hyk|Hyk];
    destruct (decide (key x = k)) as [Hxk|Hxk]; try done.
  lia.
Qed.

Lemma sort_stable k l :
  filter (fun y => key y = k) (Polars.sort key l)
  = filter (fun y => key y = k) l.
Proof.
  induction l as [|x l IH]; simpl; [done|].
  rewrite insert_sorted_filter by apply sort_sorted.
  by rewrite !filter_cons, IH.
Qed.

Lemma ascending_sorted l : ascending_on key l -> sorted_on key l.
Proof.
  unfold ascending_on, sorted_on. induction 1 as [|x l Hl IH Hx]; constructor;
    [done|].
  eapply Forall_impl; [exact Hx|]. simpl. intros; lia.
Qed.

Lemma sorted_app l1 l2 :
  sorted_on key l1 -> sorted_on key l2 ->
  (forall a b, a ∈ l1 -> b ∈ l2 -> key a <= key b) ->
  sorted_on key (l1 ++ l2).
Proof.
  unfold sorted_on. intros H1 H2 H12.
  induction H1 as [|x l1 Hl1 IH Hx]; simpl; [done|].
  constructor.
  - apply IH. intros a b Ha Hb. apply H12; [by right|done].
  - apply Forall_app. split; [done|].
    apply Forall_forall. intros b Hb. apply H12; [by left|done].
Qed.

Lemma sorted_filter (P : A -> Prop) `{!forall x, Decision (P x)} l :
  sorted_on key l -> sorted_on key (filter P l).
Proof.
  unfold sorted_on. induction 1 as [|x l Hl IH Hx]; [constructor|].
  rewrite filter_cons. case_decide; [|done].
  constructor; [done|].
  apply Forall_forall. intros y Hy%list_elem_of_filter.
  rewrite Forall_forall in Hx. apply Hx, Hy.
Qed.
End SortFacts.

(** ** Window lengths in whole seconds *)

(** On a string of the whole-seconds form the program's reading and polars'
    reading of the window length agree. *)
Lemma whole_seconds_parsers (rule : string) :
  whole_seconds_form rule ->
  exists sec, rule_to_seconds rule = Ok sec
    /\ Polars.duration rule = Ok (sec * us_per_second).
Proof.
  intros (ds & Hne & Hds & Hcs).
  exists (Py.int_of_digits ds).
  assert (Hstop : stops Py.isdigit ["s"%char]) by done.
  unfold rule_to_seconds, Polars.duration. rewrite Hcs.
  assert (Hstrip : Py.strip (ds ++ ["s"%char]) = ds ++ ["s"%char]).
  { rewrite <- (app_nil_r (ds ++ _)) at 1.
    apply (strip_core [] (ds ++ ["s"%char]) []); try done.
    - destruct ds as [|d ds]; [done|]. simpl.
      apply digit_not_space. by inversion Hds.
    - by rewrite reverse_app. }
  rewrite Hstrip, take_while_app, drop_while_app by done.
  simpl drop_while.
  by rewrite !bool_decide_eq_true_2 by done.
Qed.

(** ** Windows and groups *)

Lemma filter_none {A : Type} (P : A -> Prop) `{!forall x, Decision (P x)}
    (l : list A) :
  (forall x, x ∈ l -> ~ P x) -> filter P l = [].
Proof.
  induction l as [|x l IH]; intros Hnone; [done|].
  rewrite filter_cons_False by (apply Hnone; by left).
  apply IH. intros y Hy. apply Hnone. by right.
Qed.

Section Windows.
Context (every : Z) (Hevery : 0 < every).

Lemma window_of_mono a b :
  a <= b -> Polars.window_of every a <= Polars.window_of every b.
Proof.
  intros Hab. unfold Polars.window_of.
  apply Z.mul_le_mono_nonneg_r; [lia|]. by apply Z.div_le_mono.
Qed.

Lemma window_of_bounds t :
  Polars.window_of every t <= t < Polars.window_of every t + every.
Proof.
  unfold Polars.window_of.
  pose proof (Z.div_mod t every ltac:(lia)).
  pose proof (Z.mod_pos_bound t every Hevery). lia.
Qed.

Lemma window_of_aligned t : Polars.window_of every t mod every = 0.
Proof. unfold Polars.window_of. apply Z.mod_mul. lia. Qed.

Lemma window_of_unique k t :
  k mod every = 0 -> k <= t < k + every -> Polars.window_of every t = k.
Proof.
  intros Hk Ht. apply Z.mod_divide in Hk as [q ->]; [|lia].
  unfold Polars.window_of. f_equal.
  symmetry. apply (Z.div_unique t every q (t - q * every)); lia.
Qed.

(** For an aligned start, being in the window is having it as window start. *)
Lemma in_window_iff k t :
  k mod every = 0 ->
  in_window every k t <-> Polars.window_of every (datetime t) = k.
Proof.
  intros Hk. unfold in_window. split.
  - by apply window_of_unique.
  - intros <-. apply window_of_bounds.
Qed.

(** The groups of a sorted frame: their starts increase strictly, each group
    holds the rows of its window in the order of the frame and is not empty,
    and every row is in the group of its window. *)
Lemma group_by_dynamic_spec (l : list Tick) :
  sorted_on datetime l ->
  let gs := Polars.group_by_dynamic every l in
  ascending_on fst gs
  /\ (forall k g, (k, g) ∈ gs ->
        g <> []
        /\ g = filter (fun t => Polars.window_of every (datetime t) = k) l)
  /\ (forall t, t ∈ l ->
        exists g, (Polars.window_of every (datetime t), g) ∈ gs)
  /\ match l with
     | [] => gs = []
     | t :: _ =>
         exists g rest, gs = (Polars.window_of every (datetime t), g) :: rest
     end.
Proof.
  unfold sorted_on, ascending_on.
  induction 1 as [|t l Hl IH Ht]; simpl.
  { split_and!; [constructor|set_solver|set_solver|done]. }
  destruct IH as (Hasc & Hgrp & Hcov & Hhd).
  set (k := Polars.window_of every (datetime t)).
  assert (Hge : forall t', t' ∈ l ->
            k <= Polars.window_of every (datetime t')).
  { intros t' Ht'. apply window_of_mono.
    rewrite Forall_forall in Ht. by apply Ht. }
  destruct (Polars.group_by_dynamic every l) as [|[k' g'] gs'] eqn:Egs.
  { destruct l as [|t' l']; [|by destruct Hhd as (? & ? & ?)].
    split_and!.
    - repeat constructor.
    - intros k0 g0 Hin%list_elem_of_singleton.
      injection Hin as -> ->. split; [done|]. by rewrite filter_cons_True.
    - intros t' Ht'%list_elem_of_singleton. subst t'. exists [t]. by left.
    - eauto. }
  assert (Hk' : k <= k').
  { destruct l as [|t' l']; [done|].
    destruct Hhd as (? & ? & [= -> _ _]). apply Hge. by left. }
  assert (Hge' : forall t', t' ∈ l ->
            k' <= Polars.window_of every (datetime t')).
  { destruct l as [|t0 l0]; [done|].
    destruct Hhd as (? & ? & [= -> _ _]).
    apply StronglySorted_inv in Hl as [_ Hl0]. rewrite Forall_forall in Hl0.
    intros t' [->|Ht']%elem_of_cons; [lia|].
    apply window_of_mono. by apply Hl0. }
  pose proof Hasc as Hasc'.
  apply StronglySorted_inv in Hasc' as [Hasc' Hlt].
  rewrite Forall_forall in Hlt.
  destruct (Z.eqb_spec k k') as [<-|Hne].
  - split_and!.
    + constructor; [done|]. apply Forall_forall. intros x Hx. by apply Hlt.
    + intros k0 g [[= -> ->]|Hin]%elem_of_cons.
      * split; [done|]. rewrite filter_cons_True by done. f_equal.
        apply (Hgrp k g'). by left.
      * split; [by apply (Hgrp k0 g); right|].
        rewrite filter_cons_False.
        { apply (Hgrp k0 g). by right. }
        specialize (Hlt _ Hin). simpl in Hlt. fold k. lia.
    + intros t' [->|Ht']%elem_of_cons.
      * exists (t :: g'). by left.
      * destruct (Hcov t' Ht') as [g Hg].
        apply elem_of_cons in Hg as [[= Hkk ->]|Hg].
        -- exists (t :: g'). rewrite Hkk. by left.
        -- exists g. by right.
    + eauto.
  - split_and!.
    + constructor; [done|]. constructor; [simpl; lia|].
      apply Forall_forall. intros x Hx. specialize (Hlt _ Hx).
      simpl in *. lia.
    + intros k0 g [[= -> ->]|Hin]%elem_of_cons.
      * split; [done|]. rewrite filter_cons_True by done. f_equal.
        symmetry. apply filter_none. intros t' Ht'.
        specialize (Hge' t' Ht'). lia.
      * split; [by apply (Hgrp k0 g)|].
        rewrite filter_cons_False; [by apply (Hgrp k0 g)|].
        fold k. apply elem_of_cons in Hin as [[= -> ->]|Hin]; [lia|].
        specialize (Hlt _ Hin). simpl in Hlt. lia.
    + intros t' [->|Ht']%elem_of_cons.
      * exists [t]. by left.
      * destruct (Hcov t' Ht') as [g Hg]. exists g. by right.
    + eauto.
Qed.
End Windows.

(** ** The reducer *)

Lemma qmax_cases a b :
  (Polars.qmax a b = a \/ Polars.qmax a b = b)
  /\ (a <= Polars.qmax a b)%Q /\ (b <= Polars.qmax a b)%Q.
Proof.
  unfold Polars.qmax. destruct (Qle_bool a b) eqn:E.
  - apply Qle_bool_iff in E. split_and!; [by right|done|apply Qle_refl].
  - assert (b <= a)%Q.
    { apply Qlt_le_weak, Qnot_le_lt. intros H%Qle_bool_iff. congruence. }
    split_and!; [by left|apply Qle_refl|done].
Qed.

Lemma qmin_cases a b :
  (Polars.qmin a b = a \/ Polars.qmin a b = b)
  /\ (Polars.qmin a b <= a)%Q /\ (Polars.qmin a b <= b)%Q.
Proof.
  unfold Polars.qmin. destruct (Qle_bool a b) eqn:E.
  - apply Qle_bool_iff in E. split_and!; [by left|apply Qle_refl|done].
  - assert (b <= a)%Q.
    { apply Qlt_le_weak, Qnot_le_lt. intros H%Qle_bool_iff. congruence. }
    split_and!; [by right|done|apply Qle_refl].
Qed.

Lemma foldl_qmax a l : is_max_of (foldl Polars.qmax a l) (a :: l).
Proof.
  revert a. induction l as [|x l IH]; intros a; simpl.
  - split; [by left|]. intros y ->%list_elem_of_singleton. apply Qle_refl.
  - destruct (IH (Polars.qmax a x)) as [Hin Hub].
    destruct (qmax_cases a x) as (Hc & Ha & Hx).
    split.
    + apply elem_of_cons in Hin as [->|Hin].
      * destruct Hc as [-> | ->]; [by left|by right; left].
      * by do 2 right.
    + intros y [->|[->|Hy]%elem_of_cons]%elem_of_cons.
      * eapply Qle_trans; [exact Ha|]. apply Hub. by left.
      * eapply Qle_trans; [exact Hx|]. apply Hub. by left.
      * apply Hub. by right.
Qed.

Lemma foldl_qmin a l : is_min_of (foldl Polars.qmin a l) (a :: l).
Proof.
  revert a. induction l as [|x l IH]; intros a; simpl.
  - split; [by left|]. intros y ->%list_elem_of_singleton. apply Qle_refl.
  - destruct (IH (Polars.qmin a x)) as [Hin Hlb].
    destruct (qmin_cases a x) as (Hc & Ha & Hx).
    split.
    + apply elem_of_cons in Hin as [->|Hin].
      * destruct Hc as [-> | ->]; [by left|by right; left].
      * by do 2 right.
    + intros y [->|[->|Hy]%elem_of_cons]%elem_of_cons.
      * eapply Qle_trans; [|exact Ha]. apply Hlb. by left.
      * eapply Qle_trans; [|exact Hx]. apply Hlb. by left.
      * apply Hlb. by right.
Qed.

(** The bars of groups whose starts increase have increasing starts. *)
Lemma agg_ascending (gs : list (Z * list Tick)) :
  ascending_on fst gs -> ascending_on window_start (omap Polars.agg gs).
Proof.
  unfold ascending_on. induction 1 as [|[k g] gs Hgs IH Hk]; simpl.
  { constructor. }
  unfold Polars.agg at 1. simpl. destruct g as [|t ts]; [done|].
  constructor; [done|].
  apply Forall_forall. intros b (x & Hx & Hb)%list_elem_of_omap.
  rewrite Forall_forall in Hk. specialize (Hk x Hx).
  unfold Polars.agg in Hb. destruct (x.2); [done|].
  injection Hb as <-. simpl in *. done.
Qed.

(** What [bars_from_ticks] returns on a sorted frame, for a window of
    [every] microseconds. *)
Lemma bars_of_sorted (every : Z) (ticks : list Tick) :
  0 < every -> sorted_on datetime ticks ->
  let bars := Polars.sort window_start
                (omap Polars.agg (Polars.group_by_dynamic every ticks)) in
  bars = omap Polars.agg (Polars.group_by_dynamic every ticks)
  /\ ascending_on window_start bars.
Proof.
  intros Hevery Hsorted.
  destruct (group_by_dynamic_spec every Hevery ticks Hsorted) as (Hasc & _).
  apply agg_ascending in Hasc.
  simpl. rewrite sort_id by (by apply ascending_sorted). done.
Qed.

Lemma bars_reduce_windows (every : Z) (ticks : list Tick) :
  0 < every -> sorted_on datetime ticks ->
  reduced_by_window every ticks
    (omap Polars.agg (Polars.group_by_dynamic every ticks)).
Proof.
  intros Hevery Hsorted.
  destruct (group_by_dynamic_spec every Hevery ticks Hsorted)
    as (Hasc & Hgrp & Hcov & _).
  split_and!.
  - by apply agg_ascending.
  - intros t Ht. destruct (Hcov t Ht) as [g Hg].
    destruct (Hgrp _ _ Hg) as [Hne _].
    destruct g as [|t0 ts]; [done|].
    eexists. split.
    + apply list_elem_of_omap. eexists. split; [exact Hg|reflexivity].
    + reflexivity.
  - intros b ([k g] & Hg & Hb)%list_elem_of_omap.
    destruct (Hgrp _ _ Hg) as [Hne Hfilter].
    unfold Polars.agg in Hb. simpl in Hb.
    destruct g as [|first rest]; [done|]. injection Hb as <-. simpl.
    assert (Hk : k mod every = 0).
    { assert (Hfirst : first ∈ filter
                (fun t => Polars.window_of every (datetime t) = k) ticks)
        by (rewrite <- Hfilter; by left).
      apply list_elem_of_filter in Hfirst as [<- _].
      by apply window_of_aligned. }
    split; [done|]. exists first, rest. split_and!; try done.
    + unfold window_ticks. rewrite Hfilter.
      apply list_filter_iff. intros t. by apply in_window_iff.
    + apply foldl_qmax.
    + apply foldl_qmin.
Qed.

(** On a non-empty frame of ticks sorted by timestamp, and for a window
    length written in whole seconds, [bars_from_ticks] returns a frame whose
    bars are sorted by strictly increasing window start, one for each window
    that holds a tick; each bar starts on a multiple of the window length and
    carries the first price, the largest, the smallest and the last price of
    the ticks [t] with [window_start <= t < window_start + length], and their
    number. *)
Theorem bars_from_ticks_windows (ticks : list Tick) (rule : string) (sec : Z) :
  whole_seconds_form rule -> rule_to_seconds rule = Ok sec -> 0 < sec ->
  ticks <> [] -> sorted_on datetime ticks ->
  exists frame,
    bars_from_ticks ticks rule = Ok frame
    /\ rows frame <> []
    /\ reduced_by_window (sec * us_per_second) ticks (rows frame).
Proof.
  intros Hform Hsec Hpos Hne Hsorted.
  destruct (whole_seconds_parsers rule Hform) as (sec' & Hsec' & Hdur).
  assert (sec' = sec) as -> by congruence.
  assert (Hevery : 0 < sec * us_per_second) by (unfold us_per_second; lia).
  unfold bars_from_ticks. rewrite Hdur. simpl.
  destruct (Z.leb_spec (sec * us_per_second) 0) as [|_]; [lia|].
  eexists. split; [reflexivity|]. simpl.
  destruct (bars_of_sorted _ ticks Hevery Hsorted) as [-> _].
  pose proof (bars_reduce_windows _ ticks Hevery Hsorted) as Hred.
  split; [|done].
  destruct ticks as [|t ticks]; [done|].
  destruct Hred as (_ & Hcov & _).
  destruct (Hcov t) as (b & Hb & _); [by left|].
  intros E. rewrite E in Hb. by apply elem_of_nil in Hb.
Qed.

Lemma whole_seconds_60s : whole_seconds_form "60s".
Proof.
  exists ["6"; "0"]%char. split_and!; [done| |done].
  by repeat constructor.
Defined.

Lemma example_ticks_sorted : sorted_on datetime (example_ticks day_2020_03_02).
Proof.
  unfold sorted_on. apply (bool_decide_unpack _). vm_compute. exact I.
Defined.

Lemma bars_from_ticks_windows_witness :
  exists frame,
    bars_from_ticks (example_ticks day_2020_03_02) "60s" = Ok frame
    /\ rows frame <> []
    /\ reduced_by_window (60 * us_per_second)
         (example_ticks day_2020_03_02) (rows frame).
Proof.
  apply (bars_from_ticks_windows (example_ticks day_2020_03_02) "60s" 60).
  - exact whole_seconds_60s.
  - reflexivity.
  - lia.
  - discriminate.
  - exact example_ticks_sorted.
Defined.

(** ** Deduplication *)

Section UniqueLast.
Context {A : Type} (key : A -> Z).

Lemma existsb_key x l :
  existsb (fun y => key y =? key x) l = true
  <-> exists y, y ∈ l /\ key y = key x.
Proof.
  rewrite existsb_exists. split.
  - intros (y & Hy & E). exists y. split; [by apply list_elem_of_In|lia].
  - intros (y & Hy & E). exists y. split; [by apply list_elem_of_In|lia].
Qed.

Lemma unique_last_subseteq l : Polars.unique_last key l ⊆ l.
Proof.
  induction l as [|x l IH]; simpl; [done|].
  destruct (existsb _ l); intros y Hy.
  - right. by apply IH.
  - apply elem_of_cons in Hy as [->|Hy]; [by left|]. right. by apply IH.
Qed.

(** The rows that stay are those that are the last of their key. *)
Lemma unique_last_elem_of l b :
  b ∈ Polars.unique_last key l
  <-> last (filter (fun y => key y = key b) l) = Some b.
Proof.
  induction l as [|x l IH]; simpl.
  { split; [by intros ?%elem_of_nil|done]. }
  destruct (existsb (fun y => key y =? key x) l) eqn:E.
  - apply existsb_key in E as (y & Hy & Hkey).
    rewrite IH, filter_cons. case_decide as Hx; [|done].
    assert (Hin : y ∈ filter (fun y => key y = key b) l).
    { apply list_elem_of_filter. split; [congruence|done]. }
    destruct (filter _ l); [by apply elem_of_nil in Hin|done].
  - assert (Hnone : forall y, y ∈ l -> key y <> key x).
    { intros y Hy Hkey.
      assert (existsb (fun y => key y =? key x) l = true)
        by (apply existsb_key; eauto).
      congruence. }
    rewrite elem_of_cons, IH, filter_cons. case_decide as Hx.
    + rewrite filter_none by (intros y Hy; rewrite <- Hx; by apply Hnone).
      simpl. split; [|by intros [= ->]; left].
      intros [->|Hb]; [done|]. by destruct (filter _ l).
    + split; [|by right]. intros [->|Hb]; done.
Qed.

(** On a sorted frame the rows that stay have strictly increasing keys. *)
Lemma unique_last_ascending l :
  sorted_on key l -> ascending_on key (Polars.unique_last key l).
Proof.
  unfold sorted_on, ascending_on. induction 1 as [|x l Hl IH Hx]; simpl.
  { constructor. }
  destruct (existsb (fun y => key y =? key x) l) eqn:E; [done|].
  constructor; [done|].
  apply Forall_forall. intros y Hy%unique_last_subseteq.
  rewrite Forall_forall in Hx. specialize (Hx y Hy).
  assert (key y <> key x); [|lia].
  intros Hkey.
  assert (existsb (fun y => key y =? key x) l = true)
    by (apply existsb_key; eauto).
  congruence.
Qed.
End UniqueLast.

(** ** merge_data *)

Lemma concat_same_schema (fs : list BarFrame) :
  fs <> [] -> (forall f g, f ∈ fs -> g ∈ fs -> schema f = schema g) ->
  exists f, f ∈ fs
    /\ Polars.concat fs
       = Ok {| schema := schema f; rows := List.concat (rows <$> fs) |}.
Proof.
  intros Hne Hsame. destruct fs as [|f fs]; [done|].
  exists f. split; [by left|]. unfold Polars.concat.
  assert (forallb (fun g => bool_decide (schema g = schema f)) fs = true)
    as ->; [|done].
  apply forallb_forall. intros g Hg%list_elem_of_In.
  apply bool_decide_eq_true. apply Hsame; [by right|by left].
Qed.

(** One turn of the loop of [merge_data] writes the entry of its
    granularity, whatever the mapping built so far. *)
Lemma merge_rule_entry (bars_out : gmap string (list BarFrame))
    (r : string) (fs : list BarFrame) :
  bars_out !! r = Some fs ->
  (forall f g, f ∈ fs -> g ∈ fs -> schema f = schema g) ->
  exists frame,
    (forall acc, merge_rule bars_out r acc = Ok (<[r := frame]> acc))
    /\ (fs = [] -> frame = {| schema := empty_schema; rows := [] |})
    /\ (fs <> [] ->
        (exists f, f ∈ fs /\ schema frame = schema f)
        /\ rows frame
           = Polars.unique_last window_start
               (Polars.sort window_start (List.concat (rows <$> fs)))).
Proof.
  intros Hr Hsame. unfold merge_rule, getitem. rewrite Hr. simpl.
  destruct fs as [|f0 fs0] eqn:Efs.
  { eexists. split_and!; [done|done|done]. }
  destruct (concat_same_schema (f0 :: fs0)) as (f & Hf & ->); [done|done|].
  simpl. eexists. split_and!; [done|done|].
  intros _. simpl. split; [eauto|].
  apply sort_id, ascending_sorted, unique_last_ascending, sort_sorted.
Qed.

Lemma merge_data_entries (bars_out : gmap string (list BarFrame))
    (rules : list string) (acc : gmap string BarFrame) :
  well_formed_out rules bars_out ->
  exists final,
    for_rules (merge_rule bars_out) rules acc = Ok final
    /\ (forall r, r ∉ rules -> final !! r = acc !! r)
    /\ (forall r, r ∈ rules ->
          exists frame,
            final !! r = Some frame
            /\ forall acc', merge_rule bars_out r acc'
                            = Ok (<[r := frame]> acc')).
Proof.
  revert acc. induction rules as [|r rules IH]; intros acc Hwf; simpl.
  { exists acc. split_and!; [done|done|]. by intros r ?%elem_of_nil. }
  destruct (Hwf r) as (fs & Hfs & Hsame); [by left|].
  destruct (merge_rule_entry bars_out r fs Hfs Hsame) as (frame & Hrun & _).
  rewrite Hrun. simpl.
  destruct (IH (<[r := frame]> acc)) as (final & Hfinal & Hout & Hin).
  { intros r' Hr'. apply Hwf. by right. }
  exists final. split_and!; [done| |].
  - intros r' [Hne Hr']%not_elem_of_cons.
    by rewrite Hout, lookup_insert_ne.
  - intros r' Hr'.
    destruct (decide (r' ∈ rules)) as [Hin'|Hnin]; [by apply Hin|].
    apply elem_of_cons in Hr' as [->|]; [|done].
    exists frame. by rewrite Hout, lookup_insert_eq.
Qed.

(** What [merge_data] returns for a granularity is what one turn of its loop
    computes from that granularity's list. *)
Lemma merge_data_lookup (bars_out : gmap string (list BarFrame))
    (rules : list string) (r : string) (fs : list BarFrame) :
  well_formed_out rules bars_out -> r ∈ rules -> bars_out !! r = Some fs ->
  exists final frame,
    merge_data bars_out rules = Ok final
    /\ (forall r', r' ∈ rules -> is_Some (final !! r'))
    /\ final !! r = Some frame
    /\ (fs = [] -> frame = {| schema := empty_schema; rows := [] |})
    /\ (fs <> [] ->
        (exists f, f ∈ fs /\ schema frame = schema f)
        /\ rows frame
           = Polars.unique_last window_start
               (Polars.sort window_start (List.concat (rows <$> fs)))).
Proof.
  intros Hwf Hr Hfs.
  destruct (merge_data_entries bars_out rules ∅ Hwf)
    as (final & Hfinal & _ & Hin).
  destruct (Hin r Hr) as (frame & Hframe & Hrun).
  destruct (Hwf r Hr) as (fs' & Hfs' & Hsame).
  assert (fs' = fs) as -> by congruence.
  destruct (merge_rule_entry bars_out r fs Hfs Hsame)
    as (frame' & Hrun' & Hempty & Hfull).
  assert (frame' = frame) as ->.
  { specialize (Hrun ∅). rewrite Hrun' in Hrun.
    assert (E : <[r := frame']> (∅ : gmap string BarFrame) !! r
                = <[r := frame]> (∅ : gmap string BarFrame) !! r)
      by congruence.
    rewrite !lookup_insert_eq in E. congruence. }
  exists final, frame. split_and!; try done.
  intros r' Hr'. destruct (Hin r' Hr') as (? & -> & _). eauto.
Qed.

(** C6.  For a granularity whose accumulated list is not empty,
    [merge_data] returns a series whose window starts increase strictly (it
    is sorted, without duplicate keys); every row it keeps is the last row
    with its window start in the accumulated frames, taken in the order in
    which they were appended, and every window start that occurs there keeps
    that last row.  (The sort of the model is stable, so the last row of a
    window start after sorting is the last one appended.) *)
Theorem merge_data_keeps_last (bars_out : gmap string (list BarFrame))
    (rules : list string) (r : string) (fs : list BarFrame) :
  well_formed_out rules bars_out ->
  r ∈ rules -> bars_out !! r = Some fs -> fs <> [] ->
  exists final frame,
    merge_data bars_out rules = Ok final
    /\ final !! r = Some frame
    /\ ascending_on window_start (rows frame)
    /\ (forall b, b ∈ rows frame ->
          last_with_start (window_start b) (List.concat (rows <$> fs))
          = Some b)
    /\ (forall k b,
          last_with_start k (List.concat (rows <$> fs)) = Some b ->
          b ∈ rows frame /\ window_start b = k).
Proof.
  intros Hwf Hr Hfs Hne.
  destruct (merge_data_lookup bars_out rules r fs Hwf Hr Hfs)
    as (final & frame & Hfinal & _ & Hframe & _ & Hfull).
  destruct (Hfull Hne) as [_ Hrows].
  assert (Hiff : forall b, b ∈ rows frame
            <-> last_with_start (window_start b) (List.concat (rows <$> fs))
                = Some b).
  { intros b. rewrite Hrows, unique_last_elem_of.
    unfold last_with_start. by rewrite sort_stable. }
  exists final, frame. split_and!; [done|done| | |].
  - rewrite Hrows. apply unique_last_ascending, sort_sorted.
  - intros b. apply Hiff.
  - intros k b Hlast.
    assert (Hk : window_start b = k).
    { unfold last_with_start in Hlast. apply last_Some_elem_of in Hlast.
      by apply list_elem_of_filter in Hlast as [? _]. }
    split; [|done]. apply Hiff. by rewrite Hk.
Qed.

Lemma twice_finalized_well_formed : well_formed_out ["60s"] twice_finalized.
Proof.
  intros r Hr%list_elem_of_singleton. subst r.
  eexists. split; [reflexivity|].
  intros f g Hf Hg.
  repeat (apply elem_of_cons in Hf as [->|Hf]);
    repeat (apply elem_of_cons in Hg as [->|Hg]);
    try reflexivity; by apply elem_of_nil in Hf || by apply elem_of_nil in Hg.
Defined.

Lemma merge_data_keeps_last_witness :
  exists final frame,
    merge_data twice_finalized ["60s"] = Ok final
    /\ final !! "60s" = Some frame
    /\ ascending_on window_start (rows frame)
    /\ (forall b, b ∈ rows frame ->
          last_with_start (window_start b)
            (List.concat (rows <$> default [] (twice_finalized !! "60s")))
          = Some b)
    /\ (forall k b,
          last_with_start k
            (List.concat (rows <$> default [] (twice_finalized !! "60s")))
          = Some b ->
          b ∈ rows frame /\ window_start b = k).
Proof.
  apply (merge_data_keeps_last twice_finalized ["60s"] "60s").
  - exact twice_finalized_well_formed.
  - by left.
  - reflexivity.
  - discriminate.
Defined.

(** ** The schema of the returned series *)

(** The mapping [merge_data] returns has an entry for every configured
    granularity, and a granularity whose bar list is empty is mapped to the
    empty series with the schema written out in the source. *)
Lemma merge_data_complete (bars_out : gmap string (list BarFrame))
    (rules : list string) :
  well_formed_out rules bars_out ->
  exists final,
    merge_data bars_out rules = Ok final
    /\ (forall r, r ∈ rules -> is_Some (final !! r))
    /\ (forall r, r ∈ rules -> bars_out !! r = Some [] ->
          final !! r = Some {| schema := empty_schema; rows := [] |}).
Proof.
  intros Hwf.
  destruct (merge_data_entries bars_out rules ∅ Hwf) as (final & Hrun & _ & Hin).
  exists final. split_and!; [done| |].
  - intros r Hr. destruct (Hin r Hr) as (? & -> & _). eauto.
  - intros r Hr Hempty.
    destruct (merge_data_lookup bars_out rules r [] Hwf Hr Hempty)
      as (final' & frame & Hrun' & _ & Hframe & Hnil & _).
    assert (final' = final) as -> by (unfold merge_data in Hrun'; congruence).
    by rewrite Hframe, Hnil.
Qed.

(** C7, the types of the empty series.  A run without ticks maps its
    granularity to the empty series, whose [volume] column is [Int64]; the
    run of the end-to-end example maps it to a series whose [volume] column,
    made by [pl.len()], is [UInt32]. *)
Theorem volume_types_differ :
  stream_and_merge (run_60s [])
    = Ok {[ "60s" := {| schema := empty_schema; rows := [] |} ]}
  /\ empty_schema !! 5%nat = Some ("volume", Int64)
  /\ exists final series,
       stream_and_merge (run_60s [example_ticks day_2020_03_02]) = Ok final
       /\ final !! "60s" = Some series
       /\ rows series <> []
       /\ schema series !! 5%nat = Some ("volume", UInt32)
       /\ schema series <> empty_schema.
Proof.
  split; [by vm_compute|]. split; [reflexivity|].
  eexists _, _. split_and!; [by vm_compute|by vm_compute|..];
    by vm_compute.
Qed.

(** ** The loop, one granularity at a time *)

Lemma bars_from_ticks_sorted (r : string) (sec : Z) (ticks : list Tick) :
  configured r sec -> sorted_on datetime ticks ->
  bars_from_ticks ticks r
  = Ok {| schema := bars_schema; rows := bars_of sec ticks |}
  /\ ascending_on window_start (bars_of sec ticks)
  /\ (ticks <> [] -> bars_of sec ticks <> []).
Proof.
  intros (Hform & Hsec & Hpos) Hsorted.
  destruct (whole_seconds_parsers r Hform) as (sec' & Hsec' & Hdur).
  assert (sec' = sec) as -> by congruence.
  assert (Hevery : 0 < sec * us_per_second) by (unfold us_per_second; lia).
  destruct (bars_of_sorted _ ticks Hevery Hsorted) as [Hsort Hasc].
  unfold bars_from_ticks, bars_of. rewrite Hdur. simpl.
  destruct (Z.leb_spec (sec * us_per_second) 0) as [|_]; [lia|].
  rewrite Hsort. split_and!; [done|by rewrite <- Hsort|].
  intros Hne E.
  destruct (bars_reduce_windows _ ticks Hevery Hsorted) as (_ & Hcov & _).
  destruct ticks as [|t ticks]; [done|].
  destruct (Hcov t) as (b & Hb & _); [by left|].
  rewrite E in Hb. by apply elem_of_nil in Hb.
Qed.

Lemma max_item_is_Some (l : list Z) : l <> [] -> is_Some (Polars.max_item l).
Proof. destruct l; [done|]. simpl. eauto. Qed.

Lemma sort_nonempty {A : Type} (key : A -> Z) (l : list A) :
  l <> [] -> Polars.sort key l <> [].
Proof.
  intros Hne E. apply Hne. apply Permutation_nil_r.
  rewrite <- E. by rewrite sort_perm.
Qed.

(** One turn of the loop over the granularities, for a granularity that is
    configured and has its entries. *)
Lemma ingest_entry (secs : gmap string Z) (ticks : list Tick) (r : string)
    (st : Dicts) (sec : Z) (buf : list Tick) (fs : list BarFrame) :
  configured r sec -> secs !! r = Some sec ->
  st.1 !! r = Some buf -> st.2 !! r = Some fs -> ticks <> [] ->
  exists buf' fs',
    ingest secs ticks r st = Ok (<[r := buf']> st.1, <[r := fs']> st.2)
    /\ ingested sec ticks buf fs buf' fs'.
Proof.
  intros Hconf Hsec Hbuf Hfs Hne.
  pose proof Hconf as (_ & _ & Hpos).
  unfold ingest, ingested, getitem. rewrite Hbuf, Hsec. simpl.
  set (combined := Polars.sort datetime (buf ++ ticks)).
  assert (Hcomb : combined <> []).
  { apply sort_nonempty. by destruct buf, ticks. }
  destruct (max_item_is_Some (datetime <$> combined)) as [last_dt Hlast].
  { by destruct combined. }
  rewrite Hlast.
  assert (Hfloor : exists cutoff, floor_dt_to_seconds last_dt sec = Ok cutoff).
  { unfold floor_dt_to_seconds.
    destruct (Z.eqb_spec sec 0); [lia|eauto]. }
  destruct Hfloor as [cutoff Hcut]. rewrite Hcut. simpl.
  remember (filter (fun t => datetime t < cutoff) combined) as fin eqn:Efin.
  assert (Hfin : sorted_on datetime fin).
  { subst fin. apply sorted_filter, sort_sorted. }
  destruct (bars_from_ticks_sorted r sec fin Hconf Hfin) as (Hbars & _ & Hrows).
  unfold reduce_and_append.
  destruct fin as [|t0 fin0].
  - simpl. exists (filter (fun t => cutoff <= datetime t) combined), fs.
    split; [by rewrite (insert_id (st.2) r fs)|].
    exists last_dt, cutoff. split_and!; [done|done|done|].
    by rewrite <- Efin.
  - rewrite Hbars. simpl.
    destruct (bars_of sec (t0 :: fin0)) as [|b0 bs] eqn:Ebars;
      [by destruct Hrows|].
    unfold height, getitem. simpl. rewrite Hfs. simpl.
    eexists _, _. split; [reflexivity|].
    exists last_dt, cutoff. split_and!; [done|done|done|].
    rewrite <- Efin. unfold append_bars. by rewrite Ebars.
Qed.

(** A turn for one granularity leaves the entries of the others alone. *)
Lemma for_rules_ingest (secs : gmap string Z) (ticks : list Tick)
    (rules : list string) (st : Dicts) :
  NoDup rules -> ready rules secs st -> ticks <> [] ->
  exists st',
    for_rules (ingest secs ticks) rules st = Ok st'
    /\ (forall r, r ∉ rules ->
          st'.1 !! r = st.1 !! r /\ st'.2 !! r = st.2 !! r)
    /\ (forall r sec buf fs, r ∈ rules ->
          secs !! r = Some sec ->
          st.1 !! r = Some buf -> st.2 !! r = Some fs ->
          exists buf' fs',
            st'.1 !! r = Some buf' /\ st'.2 !! r = Some fs'
            /\ ingested sec ticks buf fs buf' fs').
Proof.
  intros Hnodup Hready Hne. revert st Hready.
  induction Hnodup as [|r rules Hr Hnodup IH]; intros st Hready; simpl.
  { exists st. split_and!; [done|done|]. by intros ? ? ? ? ?%elem_of_nil. }
  destruct (Hready r) as (sec & Hconf & Hsec & [buf Hbuf] & [fs Hfs]);
    [by left|].
  destruct (ingest_entry secs ticks r st sec buf fs)
    as (buf' & fs' & Hrun & Hstep); try done.
  rewrite Hrun. simpl.
  destruct (IH (<[r := buf']> st.1, <[r := fs']> st.2))
    as (st' & Hrest & Hout & Hin).
  { intros r' Hr'. destruct (Hready r') as (sec' & ? & ? & ? & ?);
      [by right|].
    exists sec'. simpl. split_and!; [done|done| |].
    - destruct (decide (r = r')) as [->|Hneq];
        [rewrite lookup_insert_eq; eauto|by rewrite lookup_insert_ne].
    - destruct (decide (r = r')) as [->|Hneq];
        [rewrite lookup_insert_eq; eauto|by rewrite lookup_insert_ne]. }
  exists st'. split_and!; [done| |].
  - intros r' [Hneq Hr']%not_elem_of_cons.
    destruct (Hout r' Hr') as [-> ->]. simpl.
    by rewrite !lookup_insert_ne.
  - intros r' sec' buf0 fs0 [->|Hr']%elem_of_cons Hsec' Hbuf0 Hfs0.
    + destruct (Hout r Hr) as [-> ->]. simpl.
      rewrite !lookup_insert_eq.
      assert (sec' = sec) as -> by congruence.
      assert (buf0 = buf) as -> by congruence.
      assert (fs0 = fs) as -> by congruence.
      eauto.
    + assert (r <> r') by (intros ->; done).
      apply (Hin r' sec' buf0 fs0); simpl; try done;
        by rewrite lookup_insert_ne.
Qed.

Lemma bars_from_ticks_total (r : string) (sec : Z) (ticks : list Tick) :
  configured r sec ->
  exists b, bars_from_ticks ticks r = Ok b /\ schema b = bars_schema.
Proof.
  intros (Hform & Hsec & Hpos).
  destruct (whole_seconds_parsers r Hform) as (sec' & Hsec' & Hdur).
  assert (sec' = sec) as -> by congruence.
  unfold bars_from_ticks. rewrite Hdur. simpl.
  destruct (Z.leb_spec (sec * us_per_second) 0) as [|_];
    [unfold us_per_second in *; lia|].
  eauto.
Qed.

Lemma ready_insert (rules : list string) (secs : gmap string Z) (st st' : Dicts) :
  ready rules secs st ->
  (forall r, r ∈ rules -> is_Some (st'.1 !! r) /\ is_Some (st'.2 !! r)) ->
  ready rules secs st'.
Proof.
  intros Hready Hsome r Hr.
  destruct (Hready r Hr) as (sec & ? & ? & _).
  exists sec. destruct (Hsome r Hr). done.
Qed.

(** The batch loop returns, having asked the reader once per batch and once
    more to find it exhausted, and each granularity has seen the sanitized
    batches in order. *)
Lemma batch_loop_streamed (data : LoopThroughFilesInputData)
    (pending : list RawBatch) (calls : nat) (st : Dicts) :
  NoDup (rules data) -> ready (rules data) (rule_secs data) st ->
  exists st',
    batch_loop data pending calls st = (Ok st', S (calls + length pending))
    /\ ready (rules data) (rule_secs data) st'
    /\ (forall r sec buf fs, r ∈ rules data ->
          rule_secs data !! r = Some sec ->
          st.1 !! r = Some buf -> st.2 !! r = Some fs ->
          exists buf' fs',
            st'.1 !! r = Some buf' /\ st'.2 !! r = Some fs'
            /\ streamed sec (cleaned data pending) buf fs buf' fs').
Proof.
  intros Hnodup. revert calls st.
  induction pending as [|raw pending IH]; intros calls st Hready; simpl.
  { exists st. rewrite Nat.add_0_r. split_and!; [done|done|]. eauto 10. }
  destruct (clean_tick_batch raw _ _ _) as [|t ticks] eqn:Eclean.
  - destruct (IH (S calls) st Hready) as (st' & Hrun & Hready' & Hin).
    exists st'. split_and!; [|done|done].
    rewrite Hrun. do 2 f_equal. lia.
  - destruct (for_rules_ingest (rule_secs data) (t :: ticks) (rules data) st)
      as (st1 & Hrun1 & _ & Hin1); [done|done|done|].
    rewrite Hrun1.
    assert (Hready1 : ready (rules data) (rule_secs data) st1).
    { apply (ready_insert _ _ st); [done|]. intros r Hr.
      destruct (Hready r Hr) as (sec & _ & Hsec & [buf Hbuf] & [fs Hfs]).
      destruct (Hin1 r sec buf fs) as (? & ? & -> & -> & _); eauto. }
    destruct (IH (S calls) st1 Hready1) as (st' & Hrun & Hready' & Hin).
    exists st'. split_and!; [|done|].
    + rewrite Hrun. do 2 f_equal. lia.
    + intros r sec buf fs Hr Hsec Hbuf Hfs.
      destruct (Hin1 r sec buf fs) as (buf1 & fs1 & Hbuf1 & Hfs1 & Hstep);
        try done.
      destruct (Hin r sec buf1 fs1) as (buf' & fs' & ? & ? & Hrest);
        try done.
      exists buf', fs'. split_and!; [done|done|].
      exists buf1, fs1. done.
Qed.

Lemma flush_entry (r : string) (sec : Z) (st : Dicts)
    (buf : list Tick) (fs : list BarFrame) :
  configured r sec -> st.1 !! r = Some buf -> st.2 !! r = Some fs ->
  exists fs',
    flush r st = Ok (st.1, <[r := fs']> st.2) /\ flushed r buf fs fs'.
Proof.
  intros Hconf Hbuf Hfs. unfold flush, flushed, getitem. rewrite Hbuf. simpl.
  unfold reduce_and_append. destruct buf as [|t buf].
  - simpl. exists fs. by rewrite insert_id.
  - destruct (bars_from_ticks_total r sec (t :: buf) Hconf) as (b & Hb & _).
    rewrite Hb. simpl. destruct (height b =? 0)%nat eqn:Eh.
    + simpl. exists fs. rewrite insert_id by done. split; [done|].
      exists b. by rewrite Eh.
    + unfold getitem. rewrite Hfs. simpl. eexists. split; [done|].
      exists b. by rewrite Eh.
Qed.

Lemma for_rules_flush (rules : list string) (secs : gmap string Z) (st : Dicts) :
  NoDup rules -> ready rules secs st ->
  exists out,
    for_rules flush rules st = Ok (st.1, out)
    /\ (forall r, r ∉ rules -> out !! r = st.2 !! r)
    /\ (forall r buf fs, r ∈ rules ->
          st.1 !! r = Some buf -> st.2 !! r = Some fs ->
          exists fs', out !! r = Some fs' /\ flushed r buf fs fs').
Proof.
  intros Hnodup. revert st.
  induction Hnodup as [|r rules Hr Hnodup IH]; intros st Hready; simpl.
  { exists st.2. split_and!; [by destruct st|done|].
    by intros ? ? ? ?%elem_of_nil. }
  destruct (Hready r) as (sec & Hconf & Hsec & [buf Hbuf] & [fs Hfs]);
    [by left|].
  destruct (flush_entry r sec st buf fs) as (fs1 & Hrun & Hstep); try done.
  rewrite Hrun. simpl.
  destruct (IH (st.1, <[r := fs1]> st.2)) as (out & Hrest & Hout & Hin).
  { intros r' Hr'. destruct (Hready r') as (sec' & ? & ? & ? & ?);
      [by right|].
    exists sec'. simpl. split_and!; [done|done|done|].
    destruct (decide (r = r')) as [->|Hneq];
      [rewrite lookup_insert_eq; eauto|by rewrite lookup_insert_ne]. }
  exists out. split_and!; [done| |].
  - intros r' [Hneq Hr']%not_elem_of_cons.
    rewrite (Hout r' Hr'). simpl. by rewrite lookup_insert_ne.
  - intros r' buf0 fs0 [->|Hr']%elem_of_cons Hbuf0 Hfs0.
    + rewrite (Hout r Hr). simpl. rewrite lookup_insert_eq.
      assert (buf0 = buf) as -> by congruence.
      assert (fs0 = fs) as -> by congruence.
      eauto.
    + assert (r <> r') by (intros ->; done).
      apply (Hin r' buf0 fs0); simpl; try done.
      by rewrite lookup_insert_ne.
Qed.

(** ** Facts on lists used by the invariants *)

Lemma filter_all {A : Type} (P : A -> Prop) `{!forall x, Decision (P x)}
    (l : list A) :
  (forall x, x ∈ l -> P x) -> filter P l = l.
Proof.
  induction l as [|x l IH]; intros Hall; [done|].
  rewrite filter_cons_True by (apply Hall; by left).
  f_equal. apply IH. intros y Hy. apply Hall. by right.
Qed.

(** A sorted frame is the rows before a threshold followed by the rows from
    it on. *)
Lemma sorted_split {A : Type} (key : A -> Z) (c : Z) (l : list A) :
  sorted_on key l ->
  l = filter (fun x => key x < c) l ++ filter (fun x => c <= key x) l.
Proof.
  unfold sorted_on. induction 1 as [|x l Hl IH Hx]; [done|].
  rewrite Forall_forall in Hx.
  destruct (decide (key x < c)) as [Hlt|Hge].
  - rewrite filter_cons_True, filter_cons_False by lia.
    simpl. by f_equal.
  - rewrite filter_cons_False, filter_cons_True by lia.
    rewrite filter_none by (intros y Hy; specialize (Hx y Hy); lia).
    rewrite filter_all by (intros y Hy; specialize (Hx y Hy); lia).
    done.
Qed.

Lemma foldl_max_spec (x : Z) (l : list Z) :
  (foldl Z.max x l = x \/ foldl Z.max x l ∈ l)
  /\ x <= foldl Z.max x l
  /\ forall y, y ∈ l -> y <= foldl Z.max x l.
Proof.
  revert x. induction l as [|a l IH]; intros x; simpl.
  { split_and!; [by left|lia|]. by intros y ?%elem_of_nil. }
  destruct (IH (Z.max x a)) as (Hin & Hx & Hl).
  split_and!.
  - destruct Hin as [E|Hin]; [|right; by right].
    rewrite E. destruct (Z.max_spec x a) as [[_ ->]|[_ ->]];
      [right; by left|by left].
  - lia.
  - intros y [->|Hy]%elem_of_cons; [lia|by apply Hl].
Qed.

(** [max_item] is the largest element. *)
Lemma max_item_Some (l : list Z) (m : Z) :
  Polars.max_item l = Some m <-> m ∈ l /\ forall x, x ∈ l -> x <= m.
Proof.
  destruct l as [|x l]; simpl.
  { split; [done|]. by intros [?%elem_of_nil _]. }
  destruct (foldl_max_spec x l) as (Hin & Hx & Hl).
  split.
  - intros [= <-]. split.
    + destruct Hin as [->|Hin]; [by left|by right].
    + intros y [->|Hy]%elem_of_cons; [done|by apply Hl].
  - intros [Hm Hub]. f_equal. apply Z.le_antisymm.
    + apply Hub. destruct Hin as [->|Hin]; [by left|by right].
    + apply elem_of_cons in Hm as [->|Hm]; [done|by apply Hl].
Qed.

Lemma max_item_None (l : list Z) : Polars.max_item l = None <-> l = [].
Proof. by destruct l. Qed.

(** ** Groups of a frame cut at a window start *)

Section GroupCut.
Context (every : Z) (Hevery : 0 < every).

Lemma group_by_dynamic_head (t : Tick) (l : list Tick) :
  exists g rest,
    Polars.group_by_dynamic every (t :: l)
    = (Polars.window_of every (datetime t), g) :: rest.
Proof.
  simpl. destruct (Polars.group_by_dynamic every l) as [|[k' g'] rest];
    [eauto|].
  destruct (_ =? k'); eauto.
Qed.

(** Cutting a frame at a window start cuts its groups. *)
Lemma group_by_dynamic_app (c : Z) (l1 l2 : list Tick) :
  c mod every = 0 ->
  (forall t, t ∈ l1 -> datetime t < c) ->
  (forall t, t ∈ l2 -> c <= datetime t) ->
  Polars.group_by_dynamic every (l1 ++ l2)
  = Polars.group_by_dynamic every l1 ++ Polars.group_by_dynamic every l2.
Proof.
  intros Hc H1 H2. induction l1 as [|t l1 IH]; [done|].
  simpl. rewrite IH by (intros t' Ht'; apply H1; by right).
  destruct l1 as [|t1 l1].
  - simpl. destruct l2 as [|t2 l2]; [done|].
    destruct (group_by_dynamic_head t2 l2) as (g & rest & ->).
    assert (Hlt : Polars.window_of every (datetime t)
                  < Polars.window_of every (datetime t2)).
    { assert (datetime t < c) by (apply H1; by left).
      assert (c <= datetime t2) by (apply H2; by left).
      pose proof (window_of_bounds every Hevery (datetime t)).
      assert (Hwc : Polars.window_of every c = c)
        by (apply window_of_unique; [done|done|lia]).
      assert (Polars.window_of every c
              <= Polars.window_of every (datetime t2))
        by (by apply window_of_mono).
      lia. }
    destruct (Z.eqb_spec (Polars.window_of every (datetime t))
                (Polars.window_of every (datetime t2))); [lia|done].
  - destruct (group_by_dynamic_head t1 l1) as (g & rest & ->).
    simpl. by destruct (_ =? _).
Qed.
End GroupCut.

Lemma bars_of_app (sec c : Z) (l1 l2 : list Tick) :
  0 < sec -> c mod (sec * us_per_second) = 0 ->
  (forall t, t ∈ l1 -> datetime t < c) ->
  (forall t, t ∈ l2 -> c <= datetime t) ->
  bars_of sec (l1 ++ l2) = bars_of sec l1 ++ bars_of sec l2.
Proof.
  intros Hsec Hc H1 H2. unfold bars_of.
  assert (Hevery : 0 < sec * us_per_second) by (unfold us_per_second; lia).
  rewrite (group_by_dynamic_app _ Hevery c) by done.
  apply omap_app.
Qed.

(** ** The watermark invariant *)

Lemma rows_of_appended (sec : Z) (fs : list BarFrame) (fin : list Tick) :
  List.concat (rows <$> append_bars sec fs fin)
  = List.concat (rows <$> fs) ++ bars_of sec fin.
Proof.
  destruct fin as [|t fin]; unfold append_bars.
  - by rewrite app_nil_r.
  - rewrite fmap_app, concat_app. simpl. by rewrite app_nil_r.
Qed.

Lemma schema_of_appended (sec : Z) (fs : list BarFrame) (fin : list Tick) :
  Forall (fun f => schema f = bars_schema) fs ->
  Forall (fun f => schema f = bars_schema) (append_bars sec fs fin).
Proof.
  intros Hfs. destruct fin; [done|]. unfold append_bars.
  apply Forall_app. split; [done|]. by constructor.
Qed.

(** Ingesting a batch that follows the ticks seen so far keeps the
    invariant. *)
Lemma watermark_step (sec : Z) (ticks seen buf : list Tick)
    (fs : list BarFrame) (buf' : list Tick) (fs' : list BarFrame) :
  0 < sec ->
  watermark_invariant sec seen buf fs ->
  ingested sec ticks buf fs buf' fs' ->
  ticks <> [] -> sorted_on datetime ticks ->
  (forall a b, a ∈ seen -> b ∈ ticks -> datetime a <= datetime b) ->
  (forall t, t ∈ ticks -> floors_at sec (datetime t)) ->
  watermark_invariant sec (seen ++ ticks) buf' fs'.
Proof.
  intros Hsec (Hsorted & Hschema & c0 & Hc0 & Hle0 & Hbuf & Hrows)
    (last_dt & cutoff & Hmax & Hfloor & -> & ->) Hne Hticks Hcross Hexact.
  set (every := sec * us_per_second) in *.
  assert (Hevery : 0 < every) by (unfold every, us_per_second; lia).
  (* the latest tick of the batch *)
  destruct (max_item_is_Some (datetime <$> ticks)) as [mt Hmt].
  { by destruct ticks. }
  apply max_item_Some in Hmt as [Hmt_in Hmt_ub].
  apply list_elem_of_fmap in Hmt_in as (tm & -> & Htm).
  assert (Hub : forall t, t ∈ ticks -> datetime t <= datetime tm).
  { intros t Ht. apply Hmt_ub. by apply list_elem_of_fmap_2. }
  (* a window start between the finalized ticks and the batch *)
  assert (exists c,
            c mod every = 0
            /\ (forall t, t ∈ ticks -> c <= datetime t)
            /\ buf = filter (fun t => c <= datetime t) seen
            /\ List.concat (rows <$> fs)
               = bars_of sec (filter (fun t => datetime t < c) seen))
    as (c & Hc & Hcle & Hbufc & Hrowsc).
  { destruct seen as [|a seen].
    - destruct ticks as [|t1 ticks]; [done|].
      exists (Polars.window_of every (datetime t1)).
      split_and!; [by apply window_of_aligned| |done|done].
      intros t Ht. apply StronglySorted_inv in Hticks as [_ Hall].
      rewrite Forall_forall in Hall.
      pose proof (window_of_bounds every Hevery (datetime t1)).
      apply elem_of_cons in Ht as [->|Ht]; [lia|].
      specialize (Hall t Ht). simpl in Hall. lia.
    - destruct Hle0 as (a0 & Ha0 & Hca0); [done|].
      exists c0. split_and!; [done| |done|done].
      intros t Ht. specialize (Hcross a0 t Ha0 Ht). lia. }
  clear c0 Hc0 Hle0 Hbuf Hrows.
  assert (Hsorted' : sorted_on datetime (seen ++ ticks))
    by (by apply sorted_app).
  assert (Hcomb : sorted_on datetime (buf ++ ticks)).
  { apply sorted_app; [subst buf; by apply sorted_filter|done|].
    intros a b Ha Hb. apply Hcross; [|done].
    subst buf. by apply list_elem_of_filter in Ha as [_ Ha]. }
  rewrite (sort_id _ _ Hcomb) in *.
  (* the cutoff is the window start of the latest tick *)
  assert (last_dt = datetime tm) as ->.
  { apply max_item_Some in Hmax as [Hin Hlub].
    apply Z.le_antisymm.
    - apply list_elem_of_fmap in Hin as (x & -> & Hx).
      apply elem_of_app in Hx as [Hx|Hx]; [|by apply Hub].
      apply Hcross; [|done].
      subst buf. by apply list_elem_of_filter in Hx as [_ Hx].
    - apply Hlub. apply list_elem_of_fmap_2. apply elem_of_app. by right. }
  rewrite (Hexact tm Htm) in Hfloor.
  injection Hfloor as <-. fold every.
  set (c' := Polars.window_of every (datetime tm)).
  assert (Hcc' : c <= c').
  { assert (Hwc : Polars.window_of every c = c)
      by (apply window_of_unique; [done|done|lia]).
    assert (Polars.window_of every c <= c')
      by (apply window_of_mono; [done|by apply Hcle]).
    lia. }
  assert (Hfin : filter (fun t => datetime t < c') (seen ++ ticks)
                 = filter (fun t => datetime t < c) seen
                   ++ filter (fun t => datetime t < c') (buf ++ ticks)).
  { rewrite !filter_app, app_assoc. f_equal.
    rewrite (sorted_split datetime c seen Hsorted) at 1.
    rewrite filter_app, <- Hbufc. f_equal.
    rewrite list_filter_filter. apply list_filter_iff. intros t. lia. }
  split_and!; [done|by apply schema_of_appended|].
  exists c'. split_and!.
  - by apply window_of_aligned.
  - intros _. exists tm. split; [apply elem_of_app; by right|].
    apply window_of_bounds. done.
  - rewrite !filter_app. f_equal. subst buf.
    rewrite list_filter_filter. apply list_filter_iff. intros t. lia.
  - rewrite rows_of_appended, Hrowsc, Hfin.
    symmetry. apply (bars_of_app sec c); [done|done| |].
    + by intros t [? _]%list_elem_of_filter.
    + intros t [_ Ht]%list_elem_of_filter.
      apply elem_of_app in Ht as [Ht|Ht]; [|by apply Hcle].
      subst buf. by apply list_elem_of_filter in Ht as [? _].
Qed.

Lemma watermark_start (sec : Z) : watermark_invariant sec [] [] [].
Proof.
  split_and!; [constructor|constructor|].
  exists 0. split_and!; [apply Zmod_0_l|done|done|done].
Qed.

(** The invariant holds after the batches of a run that arrive in timestamp
    order. *)
Lemma watermark_streamed (sec : Z) (batches : list (list Tick)) :
  0 < sec ->
  forall (seen buf : list Tick) (fs : list BarFrame)
         (buf' : list Tick) (fs' : list BarFrame),
  watermark_invariant sec seen buf fs ->
  streamed sec batches buf fs buf' fs' ->
  Forall (sorted_on datetime) batches -> ordered_batches batches ->
  (forall a b, a ∈ seen -> b ∈ List.concat batches ->
     datetime a <= datetime b) ->
  (forall t, t ∈ List.concat batches -> floors_at sec (datetime t)) ->
  watermark_invariant sec (seen ++ List.concat batches) buf' fs'.
Proof.
  intros Hsec. induction batches as [|b batches IH];
    intros seen buf fs buf' fs' Hinv Hrun Hsorted Hord Hcross Hexact.
  { destruct Hrun as [-> ->]. simpl. by rewrite app_nil_r. }
  apply Forall_cons in Hsorted as [Hb Hsorted].
  destruct Hord as [Hnext Hord].
  destruct b as [|t b].
  { simpl in *. by apply (IH seen buf fs). }
  destruct Hrun as (buf1 & fs1 & Hstep & Hrest).
  change (List.concat ((t :: b) :: batches))
    with ((t :: b) ++ List.concat batches) in *.
  rewrite app_assoc.
  apply (IH (seen ++ t :: b) buf1 fs1); try done.
  - apply (watermark_step sec (t :: b) seen buf fs); try done.
    + intros a c Ha Hc. apply Hcross; [done|].
      apply elem_of_app. by left.
    + intros c Hc. apply Hexact. apply elem_of_app. by left.
  - intros a c [Ha|Ha]%elem_of_app Hc.
    + apply Hcross; [done|]. apply elem_of_app. by right.
    + by apply Hnext.
  - intros c Hc. apply Hexact. apply elem_of_app. by right.
Qed.

(** After the flush the bar list holds the bars of all the ticks seen. *)
Lemma flush_completes (r : string) (sec : Z) (seen buf : list Tick)
    (fs fs' : list BarFrame) :
  configured r sec ->
  watermark_invariant sec seen buf fs -> flushed r buf fs fs' ->
  Forall (fun f => schema f = bars_schema) fs'
  /\ List.concat (rows <$> fs') = bars_of sec seen.
Proof.
  intros Hconf (Hsorted & Hschema & c & Hc & _ & Hbuf & Hrows) Hflush.
  pose proof Hconf as (_ & _ & Hsec).
  assert (Hbufs : sorted_on datetime buf)
    by (subst buf; by apply sorted_filter).
  assert (Hall : bars_of sec seen
                 = List.concat (rows <$> fs) ++ bars_of sec buf).
  { rewrite (sorted_split datetime c seen Hsorted) at 1.
    rewrite Hrows, Hbuf. apply (bars_of_app sec c); [done|done| |].
    - by intros t [? _]%list_elem_of_filter.
    - by intros t [? _]%list_elem_of_filter. }
  destruct (bars_from_ticks_sorted r sec buf Hconf Hbufs)
    as (Hbars & _ & Hne).
  unfold flushed in Hflush. destruct buf as [|t buf].
  - subst fs'. split; [done|]. by rewrite Hall, app_nil_r.
  - destruct Hflush as (b & Hb & ->).
    rewrite Hbars in Hb. injection Hb as <-. unfold height. simpl.
    destruct (bars_of sec (t :: buf)) as [|b0 bs] eqn:E; [by destruct Hne|].
    simpl. split.
    + apply Forall_app. split; [done|]. by constructor.
    + rewrite Hall, fmap_app, concat_app. simpl. by rewrite app_nil_r.
Qed.

Lemma unique_last_id {A : Type} (key : A -> Z) (l : list A) :
  ascending_on key l -> Polars.unique_last key l = l.
Proof.
  unfold ascending_on. induction 1 as [|x l Hl IH Hx]; simpl; [done|].
  rewrite IH.
  assert (existsb (fun y => key y =? key x) l = false) as ->; [|done].
  apply not_true_is_false. intros (y & Hy & E)%existsb_key.
  rewrite Forall_forall in Hx. specialize (Hx y Hy). lia.
Qed.

Lemma cleaned_sorted (data : LoopThroughFilesInputData)
    (batches : list RawBatch) :
  Forall (sorted_on datetime) (cleaned data batches).
Proof.
  unfold cleaned. apply Forall_fmap, Forall_forall. intros raw _.
  apply sort_sorted.
Qed.

(** The bar lists a fresh run leaves behind, for inputs that arrive in
    timestamp order and on whose ticks [floor_dt_to_seconds] floors: the
    loop returns, and for every granularity the flushed bar list holds the
    bars of all the sanitized ticks. *)
Lemma loop_through_files_bars (data : LoopThroughFilesInputData) :
  fresh_run data ->
  ordered_batches (cleaned data (reader data)) ->
  (forall r sec t, r ∈ rules data -> rule_secs data !! r = Some sec ->
     t ∈ List.concat (cleaned data (reader data)) ->
     floors_at sec (datetime t)) ->
  exists st,
    loop_through_files data = (Ok st, S (length (reader data)))
    /\ forall r sec, r ∈ rules data -> rule_secs data !! r = Some sec ->
         sorted_on datetime (List.concat (cleaned data (reader data)))
         /\ exists fs,
              st.2 !! r = Some fs
              /\ Forall (fun f => schema f = bars_schema) fs
              /\ List.concat (rows <$> fs)
                 = bars_of sec (List.concat (cleaned data (reader data))).
Proof.
  intros [Hnodup Hfresh] Hord Hexact.
  assert (Hready : ready (rules data) (rule_secs data)
                     (buffers data, bars_out data)).
  { intros r Hr. destruct (Hfresh r Hr) as (sec & ? & ? & Hb & Ho).
    exists sec. simpl. rewrite Hb, Ho. eauto. }
  destruct (batch_loop_streamed data (reader data) 0 _ Hnodup Hready)
    as (st1 & Hloop & Hready1 & Hin1).
  destruct (for_rules_flush (rules data) (rule_secs data) st1 Hnodup Hready1)
    as (out & Hflush & _ & Hin2).
  exists (st1.1, out). split.
  { unfold loop_through_files. by rewrite Hloop, Hflush. }
  intros r sec Hr Hsec.
  destruct (Hfresh r Hr) as (sec' & Hconf & Hsec' & Hb & Ho).
  assert (sec' = sec) as -> by congruence.
  pose proof Hconf as (_ & _ & Hpos).
  destruct (Hin1 r sec [] [] Hr Hsec Hb Ho)
    as (buf1 & fs1 & Hbuf1 & Hfs1 & Hstream).
  destruct (Hin2 r buf1 fs1 Hr Hbuf1 Hfs1) as (fs & Hfs & Hflushed).
  pose proof (watermark_streamed sec _ Hpos [] [] [] buf1 fs1
                (watermark_start sec) Hstream (cleaned_sorted _ _) Hord)
    as Hinv.
  simpl in Hinv.
  specialize (Hinv ltac:(by intros ? ? ?%elem_of_nil)
                (fun t Ht => Hexact r sec t Hr Hsec Ht)).
  destruct (flush_completes r sec _ buf1 fs1 fs Hconf Hinv Hflushed)
    as [Hschema Hrows].
  split; [by destruct Hinv|]. exists fs. done.
Qed.

(** Batch-size invariance, wherever [floor_dt_to_seconds] floors.  However
    a fresh run's input is cut into batches that keep timestamp order across
    their boundaries, the loop with its flush followed by [merge_data]
    returns, for every granularity, the bars that [bars_from_ticks] makes of
    all the sanitized ticks sorted once. *)
Theorem batch_invariance_floored (data : LoopThroughFilesInputData)
    (r : string) :
  fresh_run data -> r ∈ rules data ->
  ordered_batches (cleaned data (reader data)) ->
  (forall r sec t, r ∈ rules data -> rule_secs data !! r = Some sec ->
     t ∈ List.concat (cleaned data (reader data)) ->
     floors_at sec (datetime t)) ->
  exists final series direct,
    stream_and_merge data = Ok final
    /\ final !! r = Some series
    /\ bars_from_ticks
         (Polars.sort datetime (List.concat (cleaned data (reader data)))) r
       = Ok direct
    /\ rows series = rows direct.
Proof.
  intros Hfresh Hr Hord Hexact.
  destruct (loop_through_files_bars data Hfresh Hord Hexact)
    as (st & Hloop & Hbars).
  destruct Hfresh as [Hnodup Hfresh].
  assert (Hwf : well_formed_out (rules data) st.2).
  { intros r' Hr'. destruct (Hfresh r' Hr') as (sec' & _ & Hsec' & _).
    destruct (Hbars r' sec' Hr' Hsec') as (_ & fs & Hfs & Hschema & _).
    exists fs. split; [done|]. rewrite Forall_forall in Hschema.
    intros f g Hf Hg. by rewrite (Hschema f Hf), (Hschema g Hg). }
  destruct (Hfresh r Hr) as (sec & Hconf & Hsec & _).
  destruct (Hbars r sec Hr Hsec) as (Hsorted & fs & Hfs & Hschema & Hrows).
  destruct (merge_data_lookup st.2 (rules data) r fs Hwf Hr Hfs)
    as (final & series & Hmerge & _ & Hseries & Hempty & Hfull).
  destruct (bars_from_ticks_sorted r sec _ Hconf Hsorted)
    as (Hdirect & Hasc & _).
  exists final, series, {| schema := bars_schema;
    rows := bars_of sec (List.concat (cleaned data (reader data))) |}.
  split_and!.
  - unfold stream_and_merge. by rewrite Hloop.
  - done.
  - by rewrite sort_id.
  - simpl. destruct fs as [|f fs].
    + rewrite Hempty by done. simpl. by rewrite <- Hrows.
    + destruct Hfull as [_ ->]; [done|].
      rewrite Hrows, sort_id by (by apply ascending_sorted).
      by apply unique_last_id.
Qed.

(** X25.  Batch-size invariance from the epoch on.  However the input of a
    fresh run is cut into batches that keep timestamp order across their
    boundaries, when no tick is both before the epoch and off the whole
    seconds the loop with its flush followed by [merge_data] returns, for
    every granularity, the rows that [bars_from_ticks] makes of all the
    sanitized ticks sorted once. *)
Corollary batch_invariance (data : LoopThroughFilesInputData) (r : string) :
  fresh_run data -> r ∈ rules data ->
  ordered_batches (cleaned data (reader data)) ->
  (forall t, t ∈ List.concat (cleaned data (reader data)) ->
     floors_exactly (datetime t)) ->
  exists final series direct,
    stream_and_merge data = Ok final
    /\ final !! r = Some series
    /\ bars_from_ticks
         (Polars.sort datetime (List.concat (cleaned data (reader data)))) r
       = Ok direct
    /\ rows series = rows direct.
Proof.
  intros Hfresh Hr Hord Hexact.
  apply batch_invariance_floored; try done.
  intros r' sec t Hr' Hsec Ht.
  destruct Hfresh as [_ Hfresh].
  destruct (Hfresh r' Hr') as (sec' & (_ & _ & Hpos) & Hsec' & _).
  assert (sec' = sec) as -> by congruence.
  apply floors_exactly_at; [done|by apply Hexact].
Qed.

(** ** Runs over canonical ticks *)

Lemma clean_canonical (ticks : list Tick) (symbol_filter : option string) :
  clean_tick_batch (canonical_batch ticks) symbol_filter None None
  = Polars.sort datetime ticks.
Proof.
  unfold clean_tick_batch, sanity_check_tick_data, canonical_batch. simpl.
  f_equal. induction ticks as [|[d p] ticks IH]; [done|].
  rewrite fmap_cons, filter_cons_True by (simpl; eauto).
  simpl. f_equal. exact IH.
Qed.

Lemma configured_60s : configured "60s" 60.
Proof.
  split_and!; [|reflexivity|lia].
  exists ["6"; "0"]%char. split_and!; [done| |done].
  by repeat constructor.
Defined.

Lemma fresh_run_60s (batches : list (list Tick)) : fresh_run (run_60s batches).
Proof.
  split; simpl.
  - apply NoDup_singleton.
  - intros r Hr%list_elem_of_singleton. subst r.
    exists 60. split_and!; [exact configured_60s|done|done|done].
Defined.

Lemma cleaned_run_60s (batches : list (list Tick)) :
  cleaned (run_60s batches) (reader (run_60s batches))
  = Polars.sort datetime <$> batches.
Proof.
  unfold cleaned. simpl. rewrite <- list_fmap_compose.
  apply list_fmap_ext. intros i b _. simpl. apply clean_canonical.
Qed.

(** The pieces of a sorted frame are sorted and follow each other. *)
Lemma sorted_concat (batches : list (list Tick)) :
  sorted_on datetime (List.concat batches) ->
  Forall (sorted_on datetime) batches /\ ordered_batches batches.
Proof.
  unfold sorted_on. induction batches as [|b batches IH]; simpl.
  { by split; [constructor|]. }
  intros (Hcross & Hb & Hrest)%StronglySorted_app.
  destruct (IH Hrest) as [Hall Hord].
  split; [by constructor|]. split; [|done].
  intros t t' Ht Ht'. by apply Hcross.
Qed.

Lemma sort_batches_id (batches : list (list Tick)) :
  Forall (sorted_on datetime) batches ->
  Polars.sort datetime <$> batches = batches.
Proof.
  induction 1 as [|b batches Hb _ IH]; [done|].
  rewrite fmap_cons, IH. f_equal. by apply sort_id.
Qed.

(** ** The end-to-end example *)

Lemma example_ticks_sorted_on (day : Z) :
  sorted_on datetime (example_ticks day).
Proof.
  unfold sorted_on, example_ticks.
  repeat (constructor; [|repeat (constructor; [simpl; lia|]); constructor]).
  constructor.
Qed.

(** The window of 60 seconds of an instant of day number [d]. *)
Lemma window_of_day (d off k : Z) :
  k mod 60000000 = 0 -> k <= off < k + 60000000 ->
  Polars.window_of 60000000 (d * us_per_day + off) = d * us_per_day + k.
Proof.
  intros Hk Hoff. apply window_of_unique; [lia| |lia].
  apply Z.mod_divide in Hk as [q ->]; [|lia].
  apply Z.mod_divide; [lia|].
  exists (d * 1440 + q). unfold us_per_day, us_per_second. lia.
Qed.

Lemma example_bars_of (d : Z) :
  bars_of 60 (example_ticks (d * us_per_day)) = example_bars (d * us_per_day).
Proof.
  unfold bars_of, example_ticks, example_bars.
  change (60 * us_per_second) with 60000000.
  cbn [Polars.group_by_dynamic datetime].
  rewrite (window_of_day d 32465000000 32460000000) by (by vm_compute || lia).
  rewrite (window_of_day d 32401200000 32400000000) by (by vm_compute || lia).
  rewrite (window_of_day d 32400900000 32400000000) by (by vm_compute || lia).
  rewrite (window_of_day d 32400100000 32400000000) by (by vm_compute || lia).
  destruct (Z.eqb_spec (d * us_per_day + 32400000000)
              (d * us_per_day + 32460000000)) as [E|_]; [lia|].
  cbn iota. rewrite Z.eqb_refl.
  cbn iota. rewrite Z.eqb_refl. reflexivity.
Qed.

(** On the example's ticks, which are all in the first six seconds of their
    minute, [floor_dt_to_seconds] floors whatever the day. *)
Lemma example_ticks_floored (d : Z) (t : Tick) :
  t ∈ example_ticks (d * us_per_day) -> floors_at 60 (datetime t).
Proof.
  intros Ht. apply floors_at_inside; [lia|].
  assert (Hsec : forall off,
            (d * us_per_day + off) / us_per_second
            = d * 86400 + off / us_per_second).
  { intros off. unfold us_per_day.
    rewrite Z.mul_assoc. apply Z.div_add_l. unfold us_per_second. lia. }
  assert (Hmin : forall k, (d * 86400 + k) mod 60 = k mod 60).
  { intros k. replace (d * 86400 + k) with (k + d * 1440 * 60) by lia.
    apply Z.mod_add. lia. }
  unfold example_ticks in Ht.
  repeat (apply elem_of_cons in Ht as [->|Ht];
          [simpl datetime; rewrite Hsec, Hmin; by vm_compute|]).
  by apply elem_of_nil in Ht.
Qed.

(** C2.  On any day, and however the four ticks of the example are cut into
    batches, the streaming pipeline for the single granularity ["60s"], with
    its flush at the end of the input, returns exactly the two bars of the
    example: the window of 09:00:00 with open 100.0, high 101.0, low 99.5,
    close 99.5 and volume 3, and the window of 09:01:00 with all four prices
    102.0 and volume 1. *)
Theorem end_to_end_example (d : Z) (batches : list (list Tick)) :
  List.concat batches = example_ticks (d * us_per_day) ->
  exists final series,
    stream_and_merge (run_60s batches) = Ok final
    /\ final !! "60s" = Some series
    /\ rows series = example_bars (d * us_per_day).
Proof.
  intros Hcut.
  pose proof (example_ticks_sorted_on (d * us_per_day)) as Hsorted.
  rewrite <- Hcut in Hsorted.
  destruct (sorted_concat batches Hsorted) as [Hall Hord].
  assert (Hclean : cleaned (run_60s batches) (reader (run_60s batches))
                   = batches)
    by (by rewrite cleaned_run_60s, sort_batches_id).
  destruct (batch_invariance_floored (run_60s batches) "60s")
    as (final & series & direct & Hrun & Hseries & Hdirect & Hrows).
  - apply fresh_run_60s.
  - simpl. by left.
  - by rewrite Hclean.
  - rewrite Hclean, Hcut. simpl.
    intros r sec t Hr%list_elem_of_singleton Hsec Ht. subst r.
    rewrite lookup_singleton_eq in Hsec. injection Hsec as <-.
    by apply (example_ticks_floored d).
  - exists final, series. split_and!; [done|done|].
    rewrite Hrows. rewrite Hclean, Hcut in Hdirect.
    rewrite sort_id in Hdirect by apply example_ticks_sorted_on.
    destruct (bars_from_ticks_sorted "60s" 60 (example_ticks (d * us_per_day))
                configured_60s (example_ticks_sorted_on _)) as (Hbars & _).
    rewrite Hbars in Hdirect. injection Hdirect as <-. simpl.
    apply example_bars_of.
Qed.

Lemma end_to_end_example_witness :
  exists final series,
    stream_and_merge
      (run_60s [take 2 (example_ticks (18323 * us_per_day));
                drop 2 (example_ticks (18323 * us_per_day))]) = Ok final
    /\ final !! "60s" = Some series
    /\ rows series = example_bars (18323 * us_per_day).
Proof.
  apply (end_to_end_example 18323).
  reflexivity.
Defined.

(** ** The buffer invariant *)

Lemma buffer_step (sec : Z) (ticks seen buf : list Tick)
    (fs : list BarFrame) (buf' : list Tick) (fs' : list BarFrame) :
  0 < sec ->
  buffer_holds_latest (sec * us_per_second) seen buf ->
  ingested sec ticks buf fs buf' fs' ->
  (forall t, t ∈ seen ++ ticks -> floors_at sec (datetime t)) ->
  buffer_holds_latest (sec * us_per_second) (seen ++ ticks) buf'.
Proof.
  intros Hsec (Hsorted & Hsub & Hlatest)
    (last_dt & cutoff & Hmax & Hfloor & -> & _) Hexact.
  set (every := sec * us_per_second) in *.
  assert (Hevery : 0 < every) by (unfold every, us_per_second; lia).
  set (combined := Polars.sort datetime (buf ++ ticks)) in *.
  assert (Hcomb : forall t, t ∈ combined <-> t ∈ buf \/ t ∈ ticks).
  { intros t. unfold combined. rewrite sort_perm. apply elem_of_app. }
  apply max_item_Some in Hmax as [Hin Hub].
  apply list_elem_of_fmap in Hin as (x & -> & Hx).
  assert (Hx' : x ∈ seen ++ ticks).
  { apply elem_of_app. apply Hcomb in Hx as [Hx|Hx]; [left; by apply Hsub|].
    by right. }
  assert (Hmax' : Polars.max_item (datetime <$> seen ++ ticks)
                  = Some (datetime x)).
  { apply max_item_Some. split; [by apply list_elem_of_fmap_2|].
    intros y (t & -> & Ht)%list_elem_of_fmap.
    apply elem_of_app in Ht as [Ht|Ht].
    - destruct (max_item_is_Some (datetime <$> seen)) as [m Hm].
      { destruct seen; [by apply elem_of_nil in Ht|done]. }
      destruct (Hlatest m Hm) as [(t0 & Ht0 & <-) _].
      apply max_item_Some in Hm as [_ Hm].
      transitivity (datetime t0).
      + apply Hm. by apply list_elem_of_fmap_2.
      + apply Hub, list_elem_of_fmap_2, Hcomb. by left.
    - apply Hub, list_elem_of_fmap_2, Hcomb. by right. }
  rewrite (Hexact x Hx') in Hfloor.
  injection Hfloor as <-. fold every.
  split_and!.
  - apply sorted_filter, sort_sorted.
  - intros t [_ Ht]%list_elem_of_filter.
    apply elem_of_app. apply Hcomb in Ht as [Ht|Ht]; [left; by apply Hsub|].
    by right.
  - intros m Hm. assert (m = datetime x) as -> by congruence. split.
    + exists x. split; [|done]. apply list_elem_of_filter. split; [|done].
      apply window_of_bounds. done.
    + by intros t [? _]%list_elem_of_filter.
Qed.

Lemma buffer_streamed (sec : Z) (batches : list (list Tick)) :
  0 < sec ->
  forall (seen buf : list Tick) (fs : list BarFrame)
         (buf' : list Tick) (fs' : list BarFrame),
  buffer_holds_latest (sec * us_per_second) seen buf ->
  streamed sec batches buf fs buf' fs' ->
  (forall t, t ∈ seen ++ List.concat batches -> floors_at sec (datetime t)) ->
  buffer_holds_latest (sec * us_per_second)
    (seen ++ List.concat batches) buf'.
Proof.
  intros Hsec. induction batches as [|b batches IH];
    intros seen buf fs buf' fs' Hinv Hrun Hexact.
  { destruct Hrun as [-> ->]. simpl. by rewrite app_nil_r. }
  destruct b as [|t b].
  { simpl in *. by apply (IH seen buf fs buf' fs'). }
  destruct Hrun as (buf1 & fs1 & Hstep & Hrest).
  change (List.concat ((t :: b) :: batches))
    with ((t :: b) ++ List.concat batches) in *.
  rewrite app_assoc in *.
  apply (IH (seen ++ t :: b) buf1 fs1 buf' fs'); try done.
  apply (buffer_step sec (t :: b) seen buf fs buf1 fs1); try done.
  intros c Hc. apply Hexact. apply elem_of_app. by left.
Qed.

(** The buffer invariant of the specification, for ticks on which
    [floor_dt_to_seconds] floors.  After the iterations of the batch loop
    over any batches [pre] of a fresh run, whatever their order, the buffer
    of every granularity is sorted and its ticks lie in the window of the
    latest tick seen. *)
Theorem buffer_invariant_from_epoch (data : LoopThroughFilesInputData)
    (pre : list RawBatch) (r : string) (sec : Z) :
  fresh_run data -> r ∈ rules data -> rule_secs data !! r = Some sec ->
  (forall t, t ∈ List.concat (cleaned data pre) ->
     floors_exactly (datetime t)) ->
  exists st calls buf,
    batch_loop data pre 0 (buffers data, bars_out data) = (Ok st, calls)
    /\ st.1 !! r = Some buf
    /\ buffer_invariant (sec * us_per_second)
         (List.concat (cleaned data pre)) buf.
Proof.
  intros [Hnodup Hfresh] Hr Hsec Hexact.
  assert (Hready : ready (rules data) (rule_secs data)
                     (buffers data, bars_out data)).
  { intros r' Hr'. destruct (Hfresh r' Hr') as (sec' & ? & ? & Hb & Ho).
    exists sec'. simpl. rewrite Hb, Ho. eauto. }
  destruct (batch_loop_streamed data pre 0 _ Hnodup Hready)
    as (st & Hloop & _ & Hin).
  destruct (Hfresh r Hr) as (sec' & Hconf & Hsec' & Hb & Ho).
  assert (sec' = sec) as -> by congruence.
  pose proof Hconf as (_ & _ & Hpos).
  assert (Hevery : 0 < sec * us_per_second) by (unfold us_per_second; lia).
  destruct (Hin r sec [] [] Hr Hsec Hb Ho) as (buf & fs & Hbuf & _ & Hstream).
  assert (Hstart : buffer_holds_latest (sec * us_per_second) [] []).
  { split_and!; [constructor|done|done]. }
  pose proof (buffer_streamed sec _ Hpos [] [] [] buf fs Hstart Hstream
                (fun t Ht => floors_exactly_at sec _ Hpos (Hexact t Ht)))
    as (Hsorted & Hsub & Hlatest).
  simpl in *.
  exists st, (S (length pre)), buf. split_and!; [done|done|].
  split; [done|]. intros m Hm t Ht.
  destruct (Hlatest m Hm) as [_ Hlow].
  split; [by apply Hlow|].
  apply max_item_Some in Hm as [_ Hub].
  assert (datetime t <= m) by (apply Hub, list_elem_of_fmap_2, Hsub, Ht).
  pose proof (window_of_bounds _ Hevery m). lia.
Qed.

(** The cutoff the code computes is never before the start of the window of
    the instant: truncation only moves up. *)
Lemma cutoff_ge_window (sec t cutoff : Z) :
  0 < sec -> floor_dt_to_seconds t sec = Ok cutoff ->
  Polars.window_of (sec * us_per_second) t <= cutoff.
Proof.
  intros Hsec. unfold floor_dt_to_seconds, Polars.window_of.
  destruct (Z.eqb_spec sec 0); [lia|]. intros [= <-].
  assert (Hu : 0 < us_per_second) by (unfold us_per_second; lia).
  assert (Hq : t / us_per_second <= t ÷ us_per_second).
  { pose proof (Z.div_mod t us_per_second ltac:(lia)) as Hdiv.
    pose proof (Z.mod_pos_bound t us_per_second Hu) as Hmod.
    pose proof (Z.quot_rem' t us_per_second) as Hquot.
    pose proof (Z.rem_bound_abs t us_per_second ltac:(lia)) as Hrem.
    nia. }
  apply (Z.div_le_mono _ _ sec) in Hq; [|lia].
  rewrite Z.div_div in Hq by lia.
  replace (us_per_second * sec) with (sec * us_per_second) in Hq by lia.
  rewrite <- Z.mul_assoc. apply Z.mul_le_mono_nonneg_r; [lia|done].
Qed.

Lemma buffer_step_ordered (sec : Z) (ticks seen buf : list Tick)
    (fs : list BarFrame) (buf' : list Tick) (fs' : list BarFrame) :
  0 < sec ->
  buffer_within (sec * us_per_second) seen buf ->
  ingested sec ticks buf fs buf' fs' -> ticks <> [] ->
  (forall a b, a ∈ seen -> b ∈ ticks -> datetime a <= datetime b) ->
  buffer_within (sec * us_per_second) (seen ++ ticks) buf'.
Proof.
  intros Hsec [Hsorted Hsub]
    (last_dt & cutoff & Hmax & Hfloor & -> & _) Hne Hcross.
  set (combined := Polars.sort datetime (buf ++ ticks)) in *.
  assert (Hcomb : forall t, t ∈ combined <-> t ∈ buf \/ t ∈ ticks).
  { intros t. unfold combined. rewrite sort_perm. apply elem_of_app. }
  assert (Hseen : forall t, t ∈ combined -> t ∈ seen ++ ticks).
  { intros t [Ht|Ht]%Hcomb; apply elem_of_app;
      [left; by apply Hsub|by right]. }
  apply max_item_Some in Hmax as [Hin Hub].
  apply list_elem_of_fmap in Hin as (x & -> & Hx).
  assert (Hmax' : Polars.max_item (datetime <$> seen ++ ticks)
                  = Some (datetime x)).
  { apply max_item_Some. split; [by apply list_elem_of_fmap_2, Hseen|].
    intros y (t & -> & Ht)%list_elem_of_fmap.
    apply elem_of_app in Ht as [Ht|Ht].
    - destruct ticks as [|b ticks]; [done|].
      transitivity (datetime b); [apply Hcross; [done|by left]|].
      apply Hub, list_elem_of_fmap_2, Hcomb. right. by left.
    - apply Hub, list_elem_of_fmap_2, Hcomb. by right. }
  apply (cutoff_ge_window sec _ _ Hsec) in Hfloor.
  split.
  - apply sorted_filter, sort_sorted.
  - intros t [Hcut Ht]%list_elem_of_filter. split; [by apply Hseen|].
    intros m Hm. assert (m = datetime x) as -> by congruence. lia.
Qed.

Lemma buffer_streamed_ordered (sec : Z) (batches : list (list Tick)) :
  0 < sec ->
  forall (seen buf : list Tick) (fs : list BarFrame)
         (buf' : list Tick) (fs' : list BarFrame),
  buffer_within (sec * us_per_second) seen buf ->
  streamed sec batches buf fs buf' fs' ->
  ordered_batches batches ->
  (forall a b, a ∈ seen -> b ∈ List.concat batches ->
     datetime a <= datetime b) ->
  buffer_within (sec * us_per_second) (seen ++ List.concat batches) buf'.
Proof.
  intros Hsec. induction batches as [|b batches IH];
    intros seen buf fs buf' fs' Hinv Hrun Hord Hcross.
  { destruct Hrun as [-> ->]. simpl. by rewrite app_nil_r. }
  destruct Hord as [Hnext Hord].
  destruct b as [|t b].
  { simpl in *. by apply (IH seen buf fs buf' fs'). }
  destruct Hrun as (buf1 & fs1 & Hstep & Hrest).
  change (List.concat ((t :: b) :: batches))
    with ((t :: b) ++ List.concat batches) in *.
  rewrite app_assoc.
  apply (IH (seen ++ t :: b) buf1 fs1 buf' fs'); try done.
  - apply (buffer_step_ordered sec (t :: b) seen buf fs buf1 fs1); try done.
    intros a c Ha Hc. apply Hcross; [done|]. apply elem_of_app. by left.
  - intros a c [Ha|Ha]%elem_of_app Hc.
    + apply Hcross; [done|]. apply elem_of_app. by right.
    + by apply Hnext.
Qed.

(** X26.  The buffer of a run in timestamp order.  For batches that keep
    timestamp order across their boundaries, whatever the instants: after the
    iterations of the batch loop over such batches [pre] of a fresh run, the
    buffer of every granularity is sorted and its ticks lie in the window of
    the latest tick seen. *)
Theorem buffer_invariant_ordered (data : LoopThroughFilesInputData)
    (pre : list RawBatch) (r : string) (sec : Z) :
  fresh_run data -> r ∈ rules data -> rule_secs data !! r = Some sec ->
  ordered_batches (cleaned data pre) ->
  exists st calls buf,
    batch_loop data pre 0 (buffers data, bars_out data) = (Ok st, calls)
    /\ st.1 !! r = Some buf
    /\ buffer_invariant (sec * us_per_second)
         (List.concat (cleaned data pre)) buf.
Proof.
  intros [Hnodup Hfresh] Hr Hsec Hord.
  assert (Hready : ready (rules data) (rule_secs data)
                     (buffers data, bars_out data)).
  { intros r' Hr'. destruct (Hfresh r' Hr') as (sec' & ? & ? & Hb & Ho).
    exists sec'. simpl. rewrite Hb, Ho. eauto. }
  destruct (batch_loop_streamed data pre 0 _ Hnodup Hready)
    as (st & Hloop & _ & Hin).
  destruct (Hfresh r Hr) as (sec' & Hconf & Hsec' & Hb & Ho).
  assert (sec' = sec) as -> by congruence.
  pose proof Hconf as (_ & _ & Hpos).
  assert (Hevery : 0 < sec * us_per_second) by (unfold us_per_second; lia).
  destruct (Hin r sec [] [] Hr Hsec Hb Ho) as (buf & fs & Hbuf & _ & Hstream).
  assert (Hstart : buffer_within (sec * us_per_second) [] []).
  { split; [constructor|]. by intros t ?%elem_of_nil. }
  pose proof (buffer_streamed_ordered sec _ Hpos [] [] [] buf fs
                Hstart Hstream Hord ltac:(by intros ? ? ?%elem_of_nil))
    as [Hsorted Hsub].
  simpl in *.
  exists st, (S (length pre)), buf. split_and!; [done|done|].
  split; [done|]. intros m Hm t Ht.
  destruct (Hsub t Ht) as [Hseen Hlow].
  split; [by apply Hlow|].
  apply max_item_Some in Hm as [_ Hub].
  assert (datetime t <= m) by (apply Hub, list_elem_of_fmap_2, Hseen).
  pose proof (window_of_bounds _ Hevery m). lia.
Qed.

(** The invariant after the first of two batches of the example's ticks, and
    after both. *)
Example buffer_invariant_example :
  forall pre,
    pre = take 1 (reader (run_60s [take 2 (example_ticks day_2020_03_02);
                                   drop 2 (example_ticks day_2020_03_02)]))
    \/ pre = reader (run_60s [take 2 (example_ticks day_2020_03_02);
                              drop 2 (example_ticks day_2020_03_02)]) ->
    exists st calls buf,
      batch_loop (run_60s []) pre 0 ({["60s" := []]}, {["60s" := []]})
      = (Ok st, calls)
      /\ st.1 !! "60s" = Some buf
      /\ buffer_invariant (60 * us_per_second)
           (List.concat (cleaned (run_60s []) pre)) buf.
Proof.
  intros pre Hpre.
  apply (buffer_invariant_from_epoch (run_60s []) pre "60s" 60).
  - apply fresh_run_60s.
  - by left.
  - reflexivity.
  - intros t Ht. left.
    destruct Hpre as [-> | ->]; vm_compute in Ht;
      repeat (apply elem_of_cons in Ht as [->|Ht]; [by vm_compute|]);
      by apply elem_of_nil in Ht.
Qed.

(** ** The run that [build_bars_from_ticks] starts *)

(** The dict comprehension of line 179, when every string is read: each
    string is bound to its number of seconds. *)
Lemma rule_secs_lookup (rules : list string) (acc : gmap string Z) :
  (forall r, r ∈ rules -> exists sec, rule_to_seconds r = Ok sec) ->
  exists m,
    for_rules (fun r d => sec ← rule_to_seconds r; Ok (<[r := sec]> d))
      rules acc = Ok m
    /\ (forall r sec, r ∈ rules -> rule_to_seconds r = Ok sec ->
          m !! r = Some sec)
    /\ (forall r, r ∉ rules -> m !! r = acc !! r).
Proof.
  revert acc. induction rules as [|r rules IH]; intros acc Hall.
  - exists acc. split_and!; [reflexivity| |done].
    by intros r sec ?%elem_of_nil.
  - destruct (Hall r ltac:(by left)) as [sec Hsec].
    destruct (IH (<[r := sec]> acc)) as (m & Hm & Hin & Hout).
    { intros r' Hr'. apply Hall. by right. }
    exists m. split_and!.
    + simpl. rewrite Hsec. simpl. exact Hm.
    + intros r' sec' Hr' Hsec'.
      destruct (decide (r' ∈ rules)) as [Hmem|Hmem]; [by apply Hin|].
      apply elem_of_cons in Hr' as [->|?]; [|done].
      rewrite (Hout r Hmem), lookup_insert_eq. congruence.
    + intros r' Hr'. apply not_elem_of_cons in Hr' as [Hne Hr'].
      rewrite (Hout r' Hr'). by rewrite lookup_insert_ne.
Qed.

(** The dict comprehensions of lines 181-186: each string is bound to an
    empty value. *)
Lemma empty_entries_lookup {A : Type} (rules : list string) (r : string) :
  r ∈ rules ->
  (list_to_map ((fun r => (r, [])) <$> rules) : gmap string (list A)) !! r
  = Some [].
Proof.
  induction rules as [|r' rules IH]; intros Hr; [by apply elem_of_nil in Hr|].
  simpl. destruct (decide (r = r')) as [->|Hne].
  - by rewrite lookup_insert_eq.
  - rewrite lookup_insert_ne by done. apply IH.
    by apply elem_of_cons in Hr as [?|?].
Qed.

(** When the window-length strings are distinct and of the whole-seconds
    form and the file name is recognised, [build_bars_from_ticks] hands
    [loop_through_files] a fresh run over its own batches and strings, and
    returns what streaming and merging that run gives. *)
Theorem build_bars_from_ticks_fresh (d : BuildBarsFromTicksOutputData)
    (symbol year month : list ascii) :
  NoDup (timeframemap d).*2 ->
  (forall r, r ∈ (timeframemap d).*2 -> exists sec, configured r sec) ->
  re_search_file_name (file_name d) = Some (symbol, year, month) ->
  exists loop,
    fresh_run loop
    /\ reader loop = data d
    /\ rules loop = (timeframemap d).*2
    /\ (build_bars_from_ticks d).1 = stream_and_merge loop.
Proof.
  intros Hnd Hall Hre.
  destruct (rule_secs_lookup (timeframemap d).*2 ∅) as (secs & Hsecs & Hin & _).
  { intros r Hr. destruct (Hall r Hr) as (sec & _ & Hsec & _). by exists sec. }
  eexists {| reader := data d; rules := (timeframemap d).*2;
             rule_secs := secs;
             symbol_filter :=
               filter_symbol_in_files (string_of_list_ascii symbol)
                 (Py.int_of_digits year) (Py.int_of_digits month);
             buffers := list_to_map ((fun r => (r, [])) <$> (timeframemap d).*2);
             bars_out := list_to_map ((fun r => (r, [])) <$> (timeframemap d).*2);
             sanity_min_price := build_sanity_min_price d;
             sanity_max_price := build_sanity_max_price d |}.
  split_and!; [|reflexivity|reflexivity|].
  - split; [exact Hnd|]. simpl. intros r Hr.
    destruct (Hall r Hr) as (sec & Hconf).
    exists sec. split_and!; [exact Hconf| |by apply empty_entries_lookup..].
    apply Hin; [done|]. by destruct Hconf as (_ & ? & _).
  - unfold build_bars_from_ticks, stream_and_merge, rule_secs_of.
    rewrite Hsecs, Hre. simpl.
    by destruct (loop_through_files _) as [[st|e] calls].
Qed.

(** ** The sanitizer *)

Lemma elem_of_sort {A : Type} (key : A -> Z) (l : list A) (x : A) :
  x ∈ Polars.sort key l <-> x ∈ l.
Proof. by rewrite (sort_perm key l). Qed.

Lemma clean_tick_batch_elem_of (raw : RawBatch) (symbol_filter : option string)
    (lo hi : option Q) (t : Tick) :
  t ∈ clean_tick_batch raw symbol_filter lo hi
  <-> exists row, row ∈ raw_rows raw
        /\ passes (has_symbol_column raw) symbol_filter lo hi row t.
Proof.
  unfold clean_tick_batch, sanity_check_tick_data.
  rewrite elem_of_sort.
  set (ticks := omap _ _).
  assert (forall t, t ∈ ticks <->
            exists row, row ∈ raw_rows raw
              /\ ts_event row = Some (datetime t)
              /\ price row = Some (mid t)
              /\ (has_symbol_column raw = true ->
                  is_Some (symbol row) /\ symbol row = symbol_filter))
    as Hticks.
  { intros t'. subst ticks. rewrite list_elem_of_omap. split.
    - intros (row & Hrow & Ht').
      destruct (ts_event row) as [d|] eqn:Hd; [|done].
      destruct (price row) as [p|] eqn:Hp; [|done].
      simpl in Ht'. injection Ht' as <-. simpl.
      exists row. destruct (has_symbol_column raw).
      + apply list_elem_of_filter in Hrow as [Hsym Hrow].
        apply list_elem_of_filter in Hrow as [_ Hrow]. by split_and!.
      + apply list_elem_of_filter in Hrow as [_ Hrow]. by split_and!.
    - intros (row & Hrow & Hd & Hp & Hsym). exists row. split.
      + destruct (has_symbol_column raw).
        * apply list_elem_of_filter. split; [by apply Hsym|].
          apply list_elem_of_filter. rewrite Hd, Hp. by split_and!.
        * apply list_elem_of_filter. rewrite Hd, Hp. by split_and!.
      + rewrite Hd, Hp. simpl. by destruct t'. }
  unfold passes. destruct lo as [l|], hi as [h|];
    rewrite ?list_elem_of_filter, Hticks, ?Qle_bool_iff.
  - split.
    + intros (Hh & Hl & row & Hrow & ? & ? & ?). exists row.
      split_and!; try done; by intros ? [= <-].
    + intros (row & Hrow & ? & ? & ? & Hl & Hh).
      split_and!; [by apply Hh|by apply Hl|]. by exists row.
  - split.
    + intros (Hl & row & Hrow & ? & ? & ?). exists row.
      split_and!; try done; by intros ? [= <-].
    + intros (row & Hrow & ? & ? & ? & Hl & Hh).
      split_and!; [by apply Hl|]. by exists row.
  - split.
    + intros (Hh & row & Hrow & ? & ? & ?). exists row.
      split_and!; try done; by intros ? [= <-].
    + intros (row & Hrow & ? & ? & ? & Hl & Hh).
      split_and!; [by apply Hh|]. by exists row.
  - split.
    + intros (row & Hrow & ? & ? & ?). exists row.
      split_and!; try done.
    + intros (row & Hrow & ? & ? & ? & Hl & Hh). by exists row.
Qed.

(** Before the sort, the sanitizer goes through the rows once and keeps
    the tick of each row that passes. *)
Lemma clean_tick_batch_rows (raw : RawBatch) (symbol_filter : option string)
    (lo hi : option Q) :
  clean_tick_batch raw symbol_filter lo hi
  = Polars.sort datetime
      (omap (row_tick (has_symbol_column raw) symbol_filter lo hi)
         (raw_rows raw)).
Proof.
  unfold clean_tick_batch, sanity_check_tick_data. f_equal.
  destruct (has_symbol_column raw), lo as [l|], hi as [h|]; simpl;
    induction (raw_rows raw) as [|row rows IH]; try done;
    destruct row as [[d|] [p|] sym]; rewrite filter_cons; csimpl;
    unfold row_tick at 1; simpl.
  all: repeat (first [progress (rewrite ?filter_cons; csimpl)
                     | case_decide | case_bool_decide]).
  all: repeat match goal with
         | H : Qle_bool _ _ = true |- _ => rewrite H; clear H
         | H : ~ Qle_bool _ _ = true |- _ =>
             apply not_true_is_false in H; rewrite H; clear H
         end.
  all: rewrite ?andb_false_r; simpl.
  all: try (by rewrite IH).
  all: try (exfalso; tauto).
  all: exfalso;
    match goal with
    | H : ~ (is_Some _ /\ is_Some _) |- _ => apply H; split; eauto
    end.
Qed.

Lemma row_tick_passes (has_symbol : bool) (symbol_filter : option string)
    (lo hi : option Q) (row : RawRow) (t : Tick) :
  row_tick has_symbol symbol_filter lo hi row = Some t
  <-> passes has_symbol symbol_filter lo hi row t.
Proof.
  unfold row_tick, passes.
  destruct row as [[d|] [p|] sym], t as [d' p']; simpl;
    try (split; [done|by intros (? & ? & _)]).
  split.
  - destruct (_ && _ && _) eqn:Hall; [|done]. intros [= <- <-].
    apply andb_prop in Hall as [[Hsym Hlo]%andb_prop Hhi].
    split_and!; try done.
    + intros ->. by apply bool_decide_eq_true in Hsym.
    + intros l ->. by apply Qle_bool_iff.
    + intros h ->. by apply Qle_bool_iff.
  - intros ([= <-] & [= <-] & Hsym & Hlo & Hhi).
    assert ((if has_symbol
             then bool_decide (is_Some sym /\ sym = symbol_filter)
             else true) = true) as ->.
    { destruct has_symbol; [|done]. by apply bool_decide_eq_true, Hsym. }
    assert (from_option (fun l => Qle_bool l p) true lo = true) as ->.
    { destruct lo as [l|]; [|done]. by apply Qle_bool_iff, Hlo. }
    assert (from_option (fun h => Qle_bool p h) true hi = true) as ->.
    { destruct hi as [h|]; [|done]. by apply Qle_bool_iff, Hhi. }
    done.
Qed.

(** X1.  What [clean_tick_batch] returns of the frame selected in lines
    68-82: in timestamp order, one tick for each row that passes the
    sanitizer, a tick as many times as there are such rows that carry it, and
    nothing else.  A row passes with the tick of its instant and its price
    when both cells were read, the symbol matches when there is a symbol
    column, and the price lies within the bounds that are set. *)
Theorem clean_tick_batch_passes (raw : RawBatch) (symbol_filter : option string)
    (lo hi : option Q) :
  sorted_on datetime (clean_tick_batch raw symbol_filter lo hi)
  /\ clean_tick_batch raw symbol_filter lo hi
     ≡ₚ omap (row_tick (has_symbol_column raw) symbol_filter lo hi)
          (raw_rows raw)
  /\ forall row t,
       row_tick (has_symbol_column raw) symbol_filter lo hi row = Some t
       <-> passes (has_symbol_column raw) symbol_filter lo hi row t.
Proof.
  split_and!; [| |apply row_tick_passes].
  - apply sort_sorted.
  - rewrite clean_tick_batch_rows. apply sort_perm.
Qed.

(** X2.  Price bounds that no price of a batch meets, as when the lower bound
    is above the upper one, leave no tick of the batch. *)
Theorem clean_tick_batch_out_of_bounds (raw : RawBatch)
    (symbol_filter : option string) (l h : Q) :
  (forall row p, row ∈ raw_rows raw -> price row = Some p ->
     ~ (l <= p /\ p <= h)%Q) ->
  clean_tick_batch raw symbol_filter (Some l) (Some h) = [].
Proof.
  intros Hout. apply elem_of_nil_inv. intros t Ht.
  apply clean_tick_batch_elem_of in Ht
    as (row & Hrow & _ & Hp & _ & Hl & Hh).
  apply (Hout row (mid t) Hrow Hp). split; [by apply Hl|by apply Hh].
Qed.

Lemma clean_tick_batch_out_of_bounds_witness :
  clean_tick_batch (canonical_batch (example_ticks day_2020_03_02)) None
    (Some 200%Q) (Some 100%Q) = [].
Proof.
  apply clean_tick_batch_out_of_bounds.
  intros row p _ _ [Hl Hh].
  pose proof (Qle_trans _ _ _ Hl Hh) as Habs. by vm_compute in Habs.
Defined.

(** A batch with a symbol column leaves no tick when the run has no contract
    symbol to compare with. *)
Lemma clean_tick_batch_no_contract (raw : RawBatch) (lo hi : option Q) :
  has_symbol_column raw = true -> clean_tick_batch raw None lo hi = [].
Proof.
  intros Hcol. apply elem_of_nil_inv. intros t Ht.
  apply clean_tick_batch_elem_of in Ht as (row & _ & _ & _ & Hsym & _).
  destruct (Hsym Hcol) as [[s Hs] Hnone]. congruence.
Qed.

(** ** A fresh run, granularity by granularity *)

(** A fresh run returns from the batch loop and from the flush after one
    call of the reader per batch and one more; each granularity has gone
    through its own stream of ingests and its own flush. *)
Lemma loop_through_files_view (data : LoopThroughFilesInputData) :
  fresh_run data ->
  exists st1 out,
    batch_loop data (reader data) 0 (buffers data, bars_out data)
    = (Ok st1, S (length (reader data)))
    /\ loop_through_files data = (Ok (st1.1, out), S (length (reader data)))
    /\ forall r sec, r ∈ rules data -> rule_secs data !! r = Some sec ->
         configured r sec
         /\ exists buf fs fs',
              st1.1 !! r = Some buf /\ st1.2 !! r = Some fs
              /\ out !! r = Some fs'
              /\ streamed sec (cleaned data (reader data)) [] [] buf fs
              /\ flushed r buf fs fs'.
Proof.
  intros [Hnodup Hfresh].
  assert (Hready : ready (rules data) (rule_secs data)
                     (buffers data, bars_out data)).
  { intros r Hr. destruct (Hfresh r Hr) as (sec & ? & ? & Hb & Ho).
    exists sec. simpl. rewrite Hb, Ho. eauto. }
  destruct (batch_loop_streamed data (reader data) 0 _ Hnodup Hready)
    as (st1 & Hloop & Hready1 & Hin1).
  destruct (for_rules_flush (rules data) (rule_secs data) st1 Hnodup Hready1)
    as (out & Hflush & _ & Hin2).
  exists st1, out. split_and!.
  - exact Hloop.
  - unfold loop_through_files. by rewrite Hloop, Hflush.
  - intros r sec Hr Hsec.
    destruct (Hfresh r Hr) as (sec' & Hconf & Hsec' & Hb & Ho).
    assert (sec' = sec) as -> by congruence.
    split; [done|].
    destruct (Hin1 r sec [] [] Hr Hsec Hb Ho)
      as (buf1 & fs1 & Hbuf1 & Hfs1 & Hstream).
    destruct (Hin2 r buf1 fs1 Hr Hbuf1 Hfs1) as (fs & Hfs & Hflushed).
    by exists buf1, fs1, fs.
Qed.

(** A property of the ticks seen, the buffer and the bar list that every
    ingest of a sorted batch keeps is kept by the whole stream. *)
Lemma streamed_invariant (sec : Z)
    (I : list Tick -> list Tick -> list BarFrame -> Prop) :
  (forall seen buf fs ticks buf' fs',
     I seen buf fs -> ticks <> [] -> sorted_on datetime ticks ->
     ingested sec ticks buf fs buf' fs' -> I (seen ++ ticks) buf' fs') ->
  forall batches seen buf fs buf' fs',
    Forall (sorted_on datetime) batches ->
    I seen buf fs -> streamed sec batches buf fs buf' fs' ->
    I (seen ++ List.concat batches) buf' fs'.
Proof.
  intros Hstep batches.
  induction batches as [|b batches IH]; intros seen buf fs buf' fs' Hs HI Hst.
  - simpl in *. destruct Hst as [-> ->]. by rewrite app_nil_r.
  - apply Forall_cons in Hs as [Hb Hs].
    destruct b as [|t b].
    + simpl in *. by apply (IH seen buf fs).
    + destruct Hst as (buf1 & fs1 & Hing & Hst).
      change (List.concat ((t :: b) :: batches))
        with ((t :: b) ++ List.concat batches).
      rewrite app_assoc. apply (IH _ buf1 fs1); [done| |done].
      by apply (Hstep seen buf fs).
Qed.

(** The buffer of a granularity is sorted and every frame of its bar list
    has the schema of [bars_from_ticks], whatever the batches are. *)
Lemma streamed_frames (sec : Z) (batches : list (list Tick))
    (buf : list Tick) (fs : list BarFrame) :
  Forall (sorted_on datetime) batches ->
  streamed sec batches [] [] buf fs ->
  sorted_on datetime buf /\ Forall (fun f => schema f = bars_schema) fs.
Proof.
  intros Hs Hst.
  refine (streamed_invariant sec
            (fun _ buf fs => sorted_on datetime buf
               /\ Forall (fun f => schema f = bars_schema) fs)
            _ batches [] [] [] buf fs Hs _ Hst); [|by split; constructor].
  clear. intros _ buf fs ticks buf' fs' [_ Hfs] _ _
    (last_dt & cutoff & _ & _ & -> & ->). split.
  - apply sorted_filter, sort_sorted.
  - by apply schema_of_appended.
Qed.

Lemma flushed_frames (r : string) (sec : Z) (buf : list Tick)
    (fs fs' : list BarFrame) :
  configured r sec -> sorted_on datetime buf ->
  Forall (fun f => schema f = bars_schema) fs -> flushed r buf fs fs' ->
  Forall (fun f => schema f = bars_schema) fs'
  /\ List.concat (rows <$> fs') = List.concat (rows <$> fs) ++ bars_of sec buf.
Proof.
  intros Hconf Hsorted Hfs Hfl. destruct buf as [|t buf].
  - simpl in Hfl. subst fs'. split; [done|].
    unfold bars_of. simpl. by rewrite app_nil_r.
  - destruct Hfl as (b & Hb & ->).
    destruct (bars_from_ticks_sorted r sec _ Hconf Hsorted) as (Hb' & _ & Hne).
    rewrite Hb' in Hb. injection Hb as <-.
    unfold height. simpl.
    destruct (bars_of sec (t :: buf)) as [|x bars] eqn:Hbars;
      [by destruct Hne|].
    simpl. split.
    + apply Forall_app. split; [done|]. by constructor.
    + rewrite fmap_app, concat_app. simpl. by rewrite app_nil_r.
Qed.

(** What a fresh run leaves for [merge_data]: for every granularity a bar
    list whose frames have the schema of [bars_from_ticks]. *)
Lemma fresh_run_well_formed (data : LoopThroughFilesInputData) :
  fresh_run data ->
  exists st,
    loop_through_files data = (Ok st, S (length (reader data)))
    /\ well_formed_out (rules data) st.2
    /\ forall r, r ∈ rules data ->
         exists fs, st.2 !! r = Some fs
           /\ Forall (fun f => schema f = bars_schema) fs.
Proof.
  intros Hfresh.
  destruct (loop_through_files_view data Hfresh) as (st1 & out & _ & Hloop & Hview).
  exists (st1.1, out). split; [done|].
  assert (forall r, r ∈ rules data ->
            exists fs, out !! r = Some fs
              /\ Forall (fun f => schema f = bars_schema) fs) as Hfs.
  { intros r Hr. destruct Hfresh as [_ Hfresh].
    destruct (Hfresh r Hr) as (sec & _ & Hsec & _).
    destruct (Hview r sec Hr Hsec)
      as (Hconf & buf & fs & fs' & _ & _ & Hout & Hst & Hfl).
    destruct (streamed_frames sec _ buf fs (cleaned_sorted _ _) Hst)
      as [Hsorted Hschema].
    exists fs'. split; [done|].
    by apply (flushed_frames r sec buf fs fs'). }
  split; [|done].
  intros r Hr. destruct (Hfs r Hr) as (fs & Hout & Hschema).
  exists fs. split; [done|]. rewrite Forall_forall in Hschema.
  intros f g Hf Hg. by rewrite (Hschema f Hf), (Hschema g Hg).
Qed.

(** On the frames of a fresh run the loop and [merge_data] go through:
    the loop asks the reader once per batch and once more, and [merge_data]
    returns for every granularity a series with strictly increasing window
    starts, which either has the schema of [bars_from_ticks] or is the empty
    series. *)
Lemma fresh_run_series (data : LoopThroughFilesInputData) :
  fresh_run data ->
  exists st final,
    loop_through_files data = (Ok st, S (length (reader data)))
    /\ stream_and_merge data = Ok final
    /\ forall r, r ∈ rules data ->
         exists series,
           final !! r = Some series
           /\ ascending_on window_start (rows series)
           /\ (schema series = bars_schema
               \/ series = {| schema := empty_schema; rows := [] |}).
Proof.
  intros Hfresh.
  destruct (fresh_run_well_formed data Hfresh) as (st & Hloop & Hwf & Hfs).
  destruct (merge_data_complete st.2 (rules data) Hwf) as (final & Hmerge & _).
  exists st, final. split_and!; [done|..].
  { unfold stream_and_merge. by rewrite Hloop. }
  intros r Hr. destruct (Hfs r Hr) as (fs & Hout & Hschema).
  destruct (merge_data_lookup st.2 (rules data) r fs Hwf Hr Hout)
    as (final' & series & Hmerge' & _ & Hseries & Hempty & Hfull).
  assert (final' = final) as -> by congruence.
  exists series. split; [done|]. destruct fs as [|f fs].
  - rewrite Hempty by done. split; [constructor|by right].
  - destruct Hfull as [(g & Hg & Hsg) Hrows]; [done|]. split.
    + rewrite Hrows. apply unique_last_ascending, sort_sorted.
    + left. rewrite Hsg. rewrite Forall_forall in Hschema. by apply Hschema.
Qed.

Lemma batch_loop_calls (data : LoopThroughFilesInputData)
    (pending : list RawBatch) (c c' : nat) (st : Dicts) :
  (batch_loop data pending c st).1 = (batch_loop data pending c' st).1.
Proof.
  revert c c' st. induction pending as [|raw pending IH]; intros c c' st;
    [done|].
  simpl. destruct (clean_tick_batch _ _ _ _); [apply IH|].
  destruct (for_rules _ _ _); [apply IH|done].
Qed.

Lemma batch_loop_ok_calls (data : LoopThroughFilesInputData)
    (pending : list RawBatch) (c : nat) (st st' : Dicts) :
  (batch_loop data pending c st).1 = Ok st' ->
  (batch_loop data pending c st).2 = S (c + length pending).
Proof.
  revert c st. induction pending as [|raw pending IH]; intros c st.
  - simpl. intros _. lia.
  - simpl. destruct (clean_tick_batch _ _ _ _).
    + intros H. rewrite (IH _ _ H). lia.
    + destruct (for_rules _ _ _); [|done].
      intros H. rewrite (IH _ _ H). lia.
Qed.

(** What the loop returns, it returns after one call per batch and one
    more. *)
Lemma loop_through_files_ok_calls (data : LoopThroughFilesInputData)
    (st : Dicts) :
  (loop_through_files data).1 = Ok st ->
  (loop_through_files data).2 = S (length (reader data)).
Proof.
  unfold loop_through_files.
  destruct (batch_loop _ _ _ _) as [[st'|e] calls] eqn:Hloop; [|done].
  intros _. simpl.
  assert (calls = (batch_loop data (reader data) 0
                     (buffers data, bars_out data)).2) as ->
    by by rewrite Hloop.
  apply (batch_loop_ok_calls data (reader data) 0 _ st'). by rewrite Hloop.
Qed.

(** X3.  When [loop_through_files] returns on a fresh run, it has asked the
    reader once per batch and once more, and [merge_data] does not raise on
    the bar lists it leaves: it returns for every granularity a series with
    strictly increasing window starts, which either has the schema of
    [bars_from_ticks] or is the empty series. *)
Theorem returned_run_merges (data : LoopThroughFilesInputData) :
  fresh_run data ->
  (exists st, (loop_through_files data).1 = Ok st) ->
  (loop_through_files data).2 = S (length (reader data))
  /\ exists final,
       stream_and_merge data = Ok final
       /\ forall r, r ∈ rules data ->
            exists series,
              final !! r = Some series
              /\ ascending_on window_start (rows series)
              /\ (schema series = bars_schema
                  \/ series = {| schema := empty_schema; rows := [] |}).
Proof.
  intros Hfresh [st Hst].
  split; [by apply (loop_through_files_ok_calls data st)|].
  destruct (fresh_run_series data Hfresh) as (_ & final & _ & Hmerge & Hall).
  by exists final.
Qed.

Lemma returned_run_merges_witness :
  (loop_through_files split_run).2 = 3%nat
  /\ exists final,
       stream_and_merge split_run = Ok final
       /\ forall r, r ∈ ["60s"] ->
            exists series,
              final !! r = Some series
              /\ ascending_on window_start (rows series)
              /\ (schema series = bars_schema
                  \/ series = {| schema := empty_schema; rows := [] |}).
Proof.
  apply (returned_run_merges split_run).
  - apply fresh_run_60s.
  - eexists. vm_compute. reflexivity.
Defined.

(** ** Runs whose batches leave no tick *)

Lemma batch_loop_no_ticks (data : LoopThroughFilesInputData)
    (pending : list RawBatch) (calls : nat) (st : Dicts) :
  (forall raw, raw ∈ pending ->
     clean_tick_batch raw (symbol_filter data) (sanity_min_price data)
       (sanity_max_price data) = []) ->
  batch_loop data pending calls st = (Ok st, S (calls + length pending)).
Proof.
  revert calls. induction pending as [|raw pending IH]; intros calls Hempty.
  - simpl. by rewrite Nat.add_0_r.
  - simpl. rewrite (Hempty raw) by by left.
    rewrite IH by (intros raw' ?; apply Hempty; by right).
    do 2 f_equal. lia.
Qed.

Lemma flush_empty_buffers (rules : list string) (st : Dicts) :
  (forall r, r ∈ rules -> st.1 !! r = Some []) ->
  for_rules flush rules st = Ok st.
Proof.
  induction rules as [|r rules IH]; intros Hbuf; [done|].
  assert (flush r st = Ok st) as Hflush.
  { unfold flush, getitem. rewrite (Hbuf r) by by left. by destruct st. }
  simpl. rewrite Hflush. simpl.
  apply IH. intros r' Hr'. apply Hbuf. by right.
Qed.

(** X4.  When no batch of a fresh run leaves a tick, the loop changes neither
    dictionary and [merge_data] returns the empty series for every
    granularity. *)
Theorem run_without_ticks (data : LoopThroughFilesInputData) :
  fresh_run data ->
  (forall raw, raw ∈ reader data ->
     clean_tick_batch raw (symbol_filter data) (sanity_min_price data)
       (sanity_max_price data) = []) ->
  loop_through_files data
  = (Ok (buffers data, bars_out data), S (length (reader data)))
  /\ exists final,
       stream_and_merge data = Ok final
       /\ forall r, r ∈ rules data ->
            final !! r = Some {| schema := empty_schema; rows := [] |}.
Proof.
  intros [Hnodup Hfresh] Hempty.
  assert (loop_through_files data
          = (Ok (buffers data, bars_out data), S (length (reader data))))
    as Hloop.
  { unfold loop_through_files.
    rewrite (batch_loop_no_ticks data (reader data) 0 _ Hempty). simpl.
    rewrite flush_empty_buffers; [done|].
    intros r Hr. simpl. by destruct (Hfresh r Hr) as (? & _ & _ & -> & _). }
  split; [done|].
  assert (well_formed_out (rules data) (bars_out data)) as Hwf.
  { intros r Hr. destruct (Hfresh r Hr) as (? & _ & _ & _ & Hout).
    exists []. split; [done|]. by intros f g ?%elem_of_nil. }
  destruct (merge_data_complete _ _ Hwf) as (final & Hmerge & _ & Hfinal).
  exists final. split.
  - unfold stream_and_merge. by rewrite Hloop.
  - intros r Hr. apply Hfinal; [done|].
    by destruct (Hfresh r Hr) as (? & _ & _ & _ & ->).
Qed.

Lemma run_without_ticks_witness :
  loop_through_files (run_60s [[]; []])
  = (Ok ({["60s" := []]}, {["60s" := []]}), 3%nat)
  /\ exists final,
       stream_and_merge (run_60s [[]; []]) = Ok final
       /\ forall r, r ∈ ["60s"] ->
            final !! r = Some {| schema := empty_schema; rows := [] |}.
Proof.
  apply (run_without_ticks (run_60s [[]; []])).
  - apply fresh_run_60s.
  - intros raw Hraw.
    repeat (apply elem_of_cons in Hraw as [->|Hraw]; [by vm_compute|]).
    by apply elem_of_nil in Hraw.
Defined.

(** ** Every tick is counted once *)

Lemma total_volume_app (l1 l2 : list Bar) :
  total_volume (l1 ++ l2) = total_volume l1 + total_volume l2.
Proof.
  induction l1 as [|b l1 IH]; simpl; [done|]. rewrite IH. lia.
Qed.

Lemma total_volume_perm (l1 l2 : list Bar) :
  l1 ≡ₚ l2 -> total_volume l1 = total_volume l2.
Proof.
  induction 1; simpl; lia.
Qed.

Lemma group_by_dynamic_volume (every : Z) (l : list Tick) :
  Forall (fun g => g.2 <> []) (Polars.group_by_dynamic every l)
  /\ total_volume (omap Polars.agg (Polars.group_by_dynamic every l))
     = Z.of_nat (length l).
Proof.
  induction l as [|t l [IHne IHvol]]; [by split; [constructor|]|].
  simpl. destruct (Polars.group_by_dynamic every l) as [|[k' g] gs] eqn:Hgs.
  - split; [by repeat constructor|].
    destruct l; [done|]. simpl in IHvol. lia.
  - apply Forall_cons in IHne as [Hg Hgs']. simpl in Hg.
    destruct g as [|t' g]; [done|].
    destruct (_ =? _); (split; [by repeat constructor|]);
      revert IHvol; csimpl; unfold Polars.agg; simpl; lia.
Qed.

Lemma bars_of_volume (sec : Z) (l : list Tick) :
  total_volume (bars_of sec l) = Z.of_nat (length l).
Proof. apply group_by_dynamic_volume. Qed.

(** X5.  [bars_from_ticks] loses no tick and counts none twice: the volumes of
    the bars of a sorted frame add up to its number of rows. *)
Theorem bars_from_ticks_volume (ticks : list Tick) (r : string) (sec : Z) :
  configured r sec -> sorted_on datetime ticks ->
  exists frame,
    bars_from_ticks ticks r = Ok frame
    /\ total_volume (rows frame) = Z.of_nat (length ticks).
Proof.
  intros Hconf Hsorted.
  destruct (bars_from_ticks_sorted r sec ticks Hconf Hsorted) as (-> & _).
  eexists. split; [done|]. simpl. apply bars_of_volume.
Qed.

Lemma bars_from_ticks_volume_witness :
  exists frame,
    bars_from_ticks (example_ticks day_2020_03_02) "60s" = Ok frame
    /\ total_volume (rows frame) = 4.
Proof.
  apply (bars_from_ticks_volume (example_ticks day_2020_03_02) "60s" 60).
  - apply configured_60s.
  - apply example_ticks_sorted.
Defined.

Lemma ingested_counts (sec : Z) (seen buf : list Tick) (fs : list BarFrame)
    (ticks buf' : list Tick) (fs' : list BarFrame) :
  total_volume (List.concat (rows <$> fs)) + Z.of_nat (length buf)
  = Z.of_nat (length seen) ->
  ingested sec ticks buf fs buf' fs' ->
  total_volume (List.concat (rows <$> fs')) + Z.of_nat (length buf')
  = Z.of_nat (length (seen ++ ticks)).
Proof.
  intros Hcount (last_dt & cutoff & _ & _ & -> & ->).
  rewrite rows_of_appended, total_volume_app, bars_of_volume.
  pose proof (sorted_split datetime cutoff _
                (sort_sorted datetime (buf ++ ticks))) as Hsplit.
  apply (f_equal length) in Hsplit.
  rewrite length_app, (Permutation_length (sort_perm datetime (buf ++ ticks))),
    length_app in Hsplit.
  rewrite length_app. lia.
Qed.

(** X6.  The loop finalizes every sanitized tick once, whatever the batches
    and their order: when a fresh run returns, the volumes in the bar list of
    each granularity add up to the number of ticks the sanitizer let
    through. *)
Theorem loop_through_files_counts_ticks (data : LoopThroughFilesInputData) :
  fresh_run data ->
  exists st,
    loop_through_files data = (Ok st, S (length (reader data)))
    /\ forall r, r ∈ rules data ->
         exists fs,
           st.2 !! r = Some fs
           /\ total_volume (List.concat (rows <$> fs))
              = Z.of_nat (length (List.concat (cleaned data (reader data)))).
Proof.
  intros Hfresh.
  destruct (loop_through_files_view data Hfresh)
    as (st1 & out & _ & Hloop & Hview).
  exists (st1.1, out). split; [done|]. intros r Hr.
  destruct Hfresh as [_ Hfresh].
  destruct (Hfresh r Hr) as (sec & _ & Hsec & _).
  destruct (Hview r sec Hr Hsec)
    as (Hconf & buf & fs & fs' & _ & _ & Hout & Hst & Hfl).
  destruct (streamed_frames sec _ buf fs (cleaned_sorted _ _) Hst)
    as [Hsorted Hschema].
  destruct (flushed_frames r sec buf fs fs' Hconf Hsorted Hschema Hfl)
    as [_ Hrows].
  exists fs'. split; [done|].
  rewrite Hrows, total_volume_app, bars_of_volume.
  refine (streamed_invariant sec
            (fun seen buf fs =>
               total_volume (List.concat (rows <$> fs)) + Z.of_nat (length buf)
               = Z.of_nat (length seen))
            _ _ [] [] [] buf fs (cleaned_sorted _ _) _ Hst); [|done].
  clear. intros seen buf fs ticks buf' fs' Hcount _ _ Hing.
  by apply (ingested_counts sec seen buf fs).
Qed.

Lemma loop_through_files_counts_ticks_witness :
  exists st,
    loop_through_files
      (run_60s [take 2 (example_ticks day_2020_03_02);
                drop 2 (example_ticks day_2020_03_02)])
    = (Ok st, 3%nat)
    /\ forall r, r ∈ ["60s"] ->
         exists fs,
           st.2 !! r = Some fs
           /\ total_volume (List.concat (rows <$> fs)) = 4.
Proof.
  apply (loop_through_files_counts_ticks
           (run_60s [take 2 (example_ticks day_2020_03_02);
                     drop 2 (example_ticks day_2020_03_02)])).
  apply fresh_run_60s.
Defined.

(** ** Candles *)

Lemma bars_of_candles (sec : Z) (ticks : list Tick) :
  0 < sec -> sorted_on datetime ticks ->
  forall b, b ∈ bars_of sec ticks ->
    valid_candle b /\ window_start b mod (sec * us_per_second) = 0.
Proof.
  intros Hpos Hsorted b Hb.
  assert (0 < sec * us_per_second) as Hevery by (unfold us_per_second; lia).
  destruct (bars_reduce_windows _ ticks Hevery Hsorted) as (_ & _ & Hbars).
  destruct (Hbars b Hb)
    as (Hal & first & rest & _ & Hopen & Hclose & Hhigh & Hlow & Hvol).
  split; [|done].
  assert (mid first ∈ mid <$> first :: rest) as Hfirst by by left.
  assert (mid (List.last rest first) ∈ mid <$> first :: rest) as Hlast.
  { apply list_elem_of_fmap. exists (List.last rest first). split; [done|].
    clear. induction rest as [|x rest IH]; [by left|].
    destruct rest as [|y rest]; [by right; left|].
    change (List.last (x :: y :: rest) first)
      with (List.last (y :: rest) first).
    apply elem_of_cons in IH as [->|IH]; [by left|by do 2 right]. }
  destruct Hhigh as [_ Hhigh], Hlow as [_ Hlow].
  unfold valid_candle. rewrite Hopen, Hclose, Hvol.
  split_and!; [by apply Hlow|by apply Hhigh|by apply Hlow|by apply Hhigh|].
  simpl length. lia.
Qed.

(** ** Cutting a frame on a window boundary *)

(** X8.  [bars_from_ticks] distributes over a cut on a window boundary: the
    bars of a sorted frame are the bars of its part before the boundary
    followed by the bars of its part from the boundary on.  This is what lets
    the loop finalize the ticks before its cutoff and keep the others. *)
Theorem bars_from_ticks_cut (ticks : list Tick) (r : string) (sec c : Z) :
  configured r sec -> sorted_on datetime ticks ->
  c mod (sec * us_per_second) = 0 ->
  exists whole before after,
    bars_from_ticks ticks r = Ok whole
    /\ bars_from_ticks (filter (fun t => datetime t < c) ticks) r = Ok before
    /\ bars_from_ticks (filter (fun t => c <= datetime t) ticks) r = Ok after
    /\ rows whole = rows before ++ rows after.
Proof.
  intros Hconf Hsorted Hc.
  destruct (bars_from_ticks_sorted r sec ticks Hconf Hsorted) as (-> & _).
  destruct (bars_from_ticks_sorted r sec
              (filter (fun t => datetime t < c) ticks) Hconf
              ltac:(by apply sorted_filter)) as (-> & _).
  destruct (bars_from_ticks_sorted r sec
              (filter (fun t => c <= datetime t) ticks) Hconf
              ltac:(by apply sorted_filter)) as (-> & _).
  eexists _, _, _. split_and!; try done. simpl.
  rewrite (sorted_split datetime c ticks Hsorted) at 1.
  destruct Hconf as (_ & _ & Hpos).
  apply (bars_of_app sec c); [done|done|..].
  - by intros t [? _]%list_elem_of_filter.
  - by intros t [? _]%list_elem_of_filter.
Qed.

Lemma bars_from_ticks_cut_witness :
  exists whole before after,
    bars_from_ticks (example_ticks day_2020_03_02) "60s" = Ok whole
    /\ bars_from_ticks
         (filter (fun t => datetime t < day_2020_03_02 + 32460000000)
            (example_ticks day_2020_03_02)) "60s" = Ok before
    /\ bars_from_ticks
         (filter (fun t => day_2020_03_02 + 32460000000 <= datetime t)
            (example_ticks day_2020_03_02)) "60s" = Ok after
    /\ rows whole = rows before ++ rows after.
Proof.
  apply (bars_from_ticks_cut (example_ticks day_2020_03_02) "60s" 60).
  - apply configured_60s.
  - apply example_ticks_sorted.
  - by vm_compute.
Defined.

(** ** The cutoff *)

(** X9.  For an instant less than 2^34 seconds from the epoch and a positive
    number of seconds up to 2^34, where the float arithmetic of the function
    is exact and its result is within the years of [datetime],
    [floor_dt_to_seconds] returns a multiple of the window length that lies
    less than one window below the instant and less than one second above
    it, and never above an instant from the epoch on; applied to its own
    result it returns it again. *)
Theorem floor_dt_to_seconds_range (dt sec : Z) :
  float_exact dt sec ->
  exists c,
    floor_dt_to_seconds dt sec = Ok c
    /\ c mod (sec * us_per_second) = 0
    /\ dt - sec * us_per_second < c < dt + us_per_second
    /\ (0 <= dt -> c <= dt)
    /\ floor_dt_to_seconds c sec = Ok c.
Proof.
  intros (_ & Hsec & _). unfold floor_dt_to_seconds.
  destruct (Z.eqb_spec sec 0) as [->|_]; [lia|].
  eexists. split; [done|].
  set (q := dt ÷ us_per_second).
  assert (q * us_per_second < dt + us_per_second
          /\ dt - us_per_second < q * us_per_second
          /\ (0 <= dt -> q * us_per_second <= dt)) as (Hq1 & Hq2 & Hq3).
  { subst q. unfold us_per_second.
    pose proof (Z.quot_rem' dt 1000000) as Hqr.
    destruct (Z_le_gt_dec 0 dt) as [Hdt|Hdt].
    - pose proof (Z.rem_bound_pos dt 1000000 Hdt ltac:(lia)). lia.
    - pose proof (Z.rem_bound_pos_neg dt 1000000 ltac:(lia) ltac:(lia)). lia. }
  pose proof (Z.mod_pos_bound q sec Hsec) as Hmod.
  pose proof (Z.div_mod q sec ltac:(lia)) as Hdiv.
  assert (q / sec * sec = q - q mod sec) as Hflo by lia.
  split_and!.
  - rewrite <- Z.mul_assoc. apply Z.mod_mul. unfold us_per_second. lia.
  - rewrite Hflo. unfold us_per_second in *. nia.
  - rewrite Hflo. unfold us_per_second in *. nia.
  - intros Hdt. rewrite Hflo. unfold us_per_second in *. specialize (Hq3 Hdt). nia.
  - destruct (Z.eqb_spec sec 0) as [->|_]; [lia|].
    do 2 f_equal. rewrite Z.quot_mul by (unfold us_per_second; lia).
    by rewrite Z.div_mul by lia.
Qed.

Lemma floor_dt_to_seconds_range_witness :
  exists c,
    floor_dt_to_seconds (-500000) 60 = Ok c
    /\ c mod (60 * us_per_second) = 0
    /\ -500000 - 60 * us_per_second < c < -500000 + us_per_second
    /\ (0 <= -500000 -> c <= -500000)
    /\ floor_dt_to_seconds c 60 = Ok c.
Proof.
  apply (floor_dt_to_seconds_range (-500000) 60).
  repeat split; by vm_compute.
Defined.

(** X10.  The cutoff never moves back when the latest timestamp moves forward,
    before the epoch as after it. *)
Theorem floor_dt_to_seconds_monotone (dt dt' sec c c' : Z) :
  0 < sec -> dt <= dt' ->
  floor_dt_to_seconds dt sec = Ok c -> floor_dt_to_seconds dt' sec = Ok c' ->
  c <= c'.
Proof.
  unfold floor_dt_to_seconds. intros Hsec Hle.
  destruct (Z.eqb_spec sec 0) as [->|_]; [lia|].
  intros [= <-] [= <-].
  apply Z.mul_le_mono_nonneg_r; [unfold us_per_second; lia|].
  apply Z.mul_le_mono_nonneg_r; [lia|].
  apply Z.div_le_mono; [done|].
  apply Z.quot_le_mono; [unfold us_per_second; lia|done].
Qed.

Lemma floor_dt_to_seconds_monotone_witness :
  floor_dt_to_seconds (-61500000) 60 = Ok (-120000000)
  /\ floor_dt_to_seconds (-500000) 60 = Ok 0
  /\ -120000000 <= 0.
Proof.
  split_and!; [reflexivity|reflexivity|].
  apply (floor_dt_to_seconds_monotone (-61500000) (-500000) 60);
    [lia|lia|reflexivity|reflexivity].
Defined.

(** ** The value of a window-length string *)

Section Numerals.
Import Decimal.

Lemma int_of_digits_acc (d : uint) (acc : positive) :
  fold_left (fun a c => 10 * a + Py.digit_value c)
    (list_ascii_of_string (NilEmpty.string_of_uint d)) (Zpos acc)
  = Zpos (Pos.of_uint_acc d acc).
Proof.
  revert acc. induction d; intros acc; simpl list_ascii_of_string;
    [done|..];
    (cbn [fold_left NilEmpty.string_of_uint Pos.of_uint_acc];
     rewrite <- IHd; f_equal;
     try (set (v := Py.digit_value _); vm_compute in v; subst v; lia)).
Qed.

Lemma int_of_digits_uint (d : uint) :
  Py.int_of_digits (list_ascii_of_string (NilEmpty.string_of_uint d))
  = Z.of_N (Pos.of_uint d).
Proof.
  unfold Py.int_of_digits.
  induction d; simpl list_ascii_of_string; [done|..];
    cbn [fold_left NilEmpty.string_of_uint Pos.of_uint];
    [exact IHd|..];
    (etrans; [|apply int_of_digits_acc]; f_equal).
Qed.

Lemma uint_digits (d : uint) :
  Forall (fun c => Py.isdigit c = true)
    (list_ascii_of_string (NilEmpty.string_of_uint d)).
Proof.
  induction d; simpl; [constructor|..]; by constructor.
Qed.

(** The decimal numeral of a number that is not negative: digits, at least
    one, that [int] reads back as the number. *)
Lemma str_digits (n : Z) :
  0 <= n ->
  list_ascii_of_string (Py.str n) <> []
  /\ Forall (fun c => Py.isdigit c = true) (list_ascii_of_string (Py.str n))
  /\ Py.int_of_digits (list_ascii_of_string (Py.str n)) = n.
Proof.
  intros Hn. unfold Py.str. destruct n as [|p|p]; [| |lia].
  - split_and!; [done|by repeat constructor|done].
  - simpl Z.to_int. simpl NilZero.string_of_int.
    rewrite string_of_uint_nonnil by apply Unsigned.to_uint_nonnil.
    split_and!.
    + pose proof (string_of_uint_nonempty (Pos.to_uint p)
                    (Unsigned.to_uint_nonnil p)) as Hne.
      by destruct (NilEmpty.string_of_uint (Pos.to_uint p)).
    + apply uint_digits.
    + by rewrite int_of_digits_uint, Unsigned.of_to.
Qed.
End Numerals.

Lemma list_ascii_of_string_app (a b : string) :
  list_ascii_of_string (a +:+ b)
  = list_ascii_of_string a ++ list_ascii_of_string b.
Proof. induction a as [|c a IH]; simpl; [done|]. by rewrite IH. Qed.

Lemma digit_value_range (c : ascii) :
  Py.isdigit c = true -> 0 <= Py.digit_value c <= 9.
Proof.
  unfold Py.isdigit, Py.digit_value.
  intros [?%Nat.leb_le ?%Nat.leb_le]%andb_true_iff. lia.
Qed.

Lemma int_of_digits_nonneg (ds : list ascii) :
  Forall (fun c => Py.isdigit c = true) ds -> 0 <= Py.int_of_digits ds.
Proof.
  unfold Py.int_of_digits. intros Hds.
  assert (forall acc, 0 <= acc ->
            0 <= fold_left (fun a c => 10 * a + Py.digit_value c) ds acc)
    as Hacc; [|by apply Hacc].
  induction Hds as [|c ds Hc _ IH]; intros acc Hacc; [done|].
  simpl. apply IH. apply digit_value_range in Hc. lia.
Qed.

(** On digits, white space and the letter [s], with white space around,
    [rule_to_seconds] returns the number the digits spell. *)
Lemma rule_to_seconds_spaced (pre ds gap post : list ascii) :
  Forall (fun c => Py.isspace c = true) pre ->
  ds <> [] -> Forall (fun c => Py.isdigit c = true) ds ->
  Forall (fun c => Py.isspace c = true) gap ->
  Forall (fun c => Py.isspace c = true) post ->
  rule_to_seconds (string_of_list_ascii (pre ++ ds ++ gap ++ ["s"%char] ++ post))
  = Ok (Py.int_of_digits ds).
Proof.
  intros Hpre Hne Hds Hgap Hpost. unfold rule_to_seconds.
  rewrite list_ascii_of_string_of_list_ascii.
  replace (pre ++ ds ++ gap ++ ["s"%char] ++ post)
    with (pre ++ (ds ++ gap ++ ["s"%char]) ++ post)
    by (by rewrite <- !app_assoc).
  assert (stops Py.isdigit (gap ++ ["s"%char])) as Hstop.
  { destruct Hgap as [|c gap Hc _]; [done|]. simpl. by apply space_not_digit. }
  rewrite strip_core; [|done|done|..].
  - rewrite take_while_app, drop_while_app by done.
    rewrite drop_while_app by done.
    rewrite bool_decide_eq_true_2 by done.
    by rewrite bool_decide_eq_true_2 by done.
  - destruct Hds as [|c ds Hc _]; [done|]. simpl. by apply digit_not_space.
  - by rewrite !reverse_app.
Qed.

(** X11.  For at most 4300 digits, the most that [int] reads: white space
    around the digits and before the letter changes nothing, zeros in front
    are read as in [int], and the number of seconds is never negative. *)
Theorem rule_to_seconds_value (pre ds gap post : list ascii) :
  Forall (fun c => Py.isspace c = true) pre ->
  ds <> [] -> (length ds <= 4300)%nat ->
  Forall (fun c => Py.isdigit c = true) ds ->
  Forall (fun c => Py.isspace c = true) gap ->
  Forall (fun c => Py.isspace c = true) post ->
  rule_to_seconds (string_of_list_ascii (pre ++ ds ++ gap ++ ["s"%char] ++ post))
  = Ok (Py.int_of_digits ds)
  /\ rule_to_seconds (string_of_list_ascii (ds ++ ["s"%char]))
     = Ok (Py.int_of_digits ds)
  /\ 0 <= Py.int_of_digits ds.
Proof.
  intros Hpre Hne _ Hds Hgap Hpost. split_and!.
  - by apply rule_to_seconds_spaced.
  - by apply (rule_to_seconds_spaced [] ds [] []).
  - by apply int_of_digits_nonneg.
Qed.

Lemma rule_to_seconds_value_witness :
  rule_to_seconds " 060 s " = Ok 60
  /\ rule_to_seconds "060s" = Ok 60
  /\ 0 <= 60.
Proof.
  apply (rule_to_seconds_value [" "%char] ["0"%char; "6"%char; "0"%char]
           [" "%char] [" "%char]);
    [by repeat constructor|done|simpl; lia|by repeat constructor..].
Defined.

(** X12.  [rule_to_seconds] reads back what [str] writes: for a number of
    seconds that is not negative and has at most 4300 digits, the most that
    [str] writes and [int] reads, the string of its decimal numeral and the
    letter [s] has that number as its value. *)
Theorem rule_to_seconds_str (n : Z) :
  0 <= n < 10 ^ 4300 -> rule_to_seconds (Py.str n +:+ "s") = Ok n.
Proof.
  intros [Hn _]. destruct (str_digits n Hn) as (Hne & Hds & Hval).
  rewrite <- (string_of_list_ascii_of_string (Py.str n +:+ "s")).
  rewrite list_ascii_of_string_app. simpl (list_ascii_of_string "s").
  rewrite <- Hval at 2.
  by apply (rule_to_seconds_spaced [] _ [] []).
Qed.

Lemma rule_to_seconds_str_witness : rule_to_seconds (Py.str 86400 +:+ "s") = Ok 86400.
Proof. apply rule_to_seconds_str. split; by vm_compute. Defined.

(** ** A window of no seconds *)

Lemma ingest_zero_seconds (secs : gmap string Z) (ticks : list Tick)
    (r : string) (st : Dicts) (buf : list Tick) :
  st.1 !! r = Some buf -> secs !! r = Some 0 -> ticks <> [] ->
  ingest secs ticks r st = Raised ZeroDivisionError.
Proof.
  intros Hbuf Hsec Hticks. unfold ingest, getitem. rewrite Hbuf. simpl.
  destruct (max_item_is_Some
              (datetime <$> Polars.sort datetime (buf ++ ticks))) as [m ->].
  { intros Hnil%fmap_nil_inv. apply (sort_nonempty datetime (buf ++ ticks));
      [|done]. by destruct buf, ticks. }
  by rewrite Hsec.
Qed.

(** X13.  [rule_to_seconds] lets a window of no seconds through, and the run
    then ends with [ZeroDivisionError] in the first batch that holds a tick,
    on the first granularity, when the cutoff is computed. *)
Theorem zero_seconds_window_raises (d : BuildBarsFromTicksOutputData)
    (symbol year month : list ascii) (k r : string)
    (rest : list (string * string)) (raw : RawBatch) (more : list RawBatch) :
  timeframemap d = (k, r) :: rest ->
  rule_to_seconds r = Ok 0 ->
  (forall r', r' ∈ rest.*2 -> exists n, rule_to_seconds r' = Ok n) ->
  re_search_file_name (file_name d) = Some (symbol, year, month) ->
  data d = raw :: more ->
  clean_tick_batch raw
    (filter_symbol_in_files (string_of_list_ascii symbol)
       (Py.int_of_digits year) (Py.int_of_digits month))
    (build_sanity_min_price d) (build_sanity_max_price d) <> [] ->
  build_bars_from_ticks d = (Raised ZeroDivisionError, 1%nat).
Proof.
  intros Hmap Hzero Hrest Hre Hdata Hticks.
  unfold build_bars_from_ticks, rule_secs_of. rewrite Hmap.
  change (((k, r) :: rest).*2) with (r :: rest.*2).
  destruct (rule_secs_lookup (r :: rest.*2) ∅) as (secs & -> & Hsecs & _).
  { intros r' [->|Hr']%elem_of_cons; [by exists 0|by apply Hrest]. }
  rewrite Hre, Hdata.
  unfold loop_through_files. cbn [reader batch_loop symbol_filter
    sanity_min_price sanity_max_price rules rule_secs buffers bars_out].
  destruct (clean_tick_batch _ _ _ _) as [|t ticks] eqn:Hclean; [done|].
  cbn [for_rules].
  rewrite (ingest_zero_seconds secs (t :: ticks) r _ []); [done| |by apply Hsecs; [left|]|done].
  apply (empty_entries_lookup (r :: rest.*2) r). by left.
Qed.

Lemma zero_seconds_window_raises_witness :
  build_bars_from_ticks zero_window_run = (Raised ZeroDivisionError, 1%nat).
Proof.
  apply (zero_seconds_window_raises zero_window_run
           ["N"%char; "Q"%char] ["2"%char; "0"%char; "2"%char; "0"%char]
           ["0"%char; "3"%char] "0" "0s" []
           (canonical_batch (example_ticks day_2020_03_02)) []);
    try reflexivity.
  - by intros r' ?%elem_of_nil.
  - by vm_compute.
Defined.

(** ** File names *)

Lemma dash_not_upper (c : ascii) :
  is_dash_or_underscore c = true -> Py.isupper_AZ c = false.
Proof.
  unfold is_dash_or_underscore.
  intros [Hc|Hc]%orb_true_iff; apply bool_decide_eq_true in Hc; by subst.
Qed.

Lemma digit_not_dash (c : ascii) :
  Py.isdigit c = true -> is_dash_or_underscore c = false.
Proof.
  intros Hc. unfold is_dash_or_underscore.
  apply orb_false_iff. split; apply bool_decide_eq_false; intros ->;
    by vm_compute in Hc.
Qed.

Lemma re_search_file_name_complete (name : string)
    (sym year month : list ascii) :
  file_name_form name sym year month ->
  re_search_file_name name = Some (sym, year, month).
Proof.
  intros (sep & y1 & y2 & m1 & m2 & sep2 & nl & Hne & Hsym & Hsep & Hy1 & Hy2
          & Hm1 & Hm2 & Hsep2 & Hnl & -> & -> & Hname).
  unfold re_search_file_name. rewrite Hname.
  rewrite take_while_app, drop_while_app;
    [|done|by apply dash_not_upper|done|by apply dash_not_upper].
  destruct sym as [|s0 sym]; [done|].
  assert (bool_decide (nl = []) || bool_decide (nl = ["010"%char]) = true)
    as Hnl'.
  { by destruct Hnl as [-> | ->]. }
  destruct Hsep2 as [->|(c & -> & Hc)]; simpl.
  - rewrite (digit_not_dash m1 Hm1), Hsep, Hy1, Hy2, Hm1, Hm2. simpl.
    by rewrite Hnl'.
  - rewrite Hc, Hsep, Hy1, Hy2, Hm1, Hm2. simpl. by rewrite Hnl'.
Qed.

Lemma re_search_file_name_sound (name : string)
    (sym year month : list ascii) :
  re_search_file_name name = Some (sym, year, month) ->
  file_name_form name sym year month.
Proof.
  unfold re_search_file_name.
  pose proof (take_drop_while Py.isupper_AZ (list_ascii_of_string name)) as Hcs.
  pose proof (take_while_all Py.isupper_AZ (list_ascii_of_string name)) as Hup.
  destruct (take_while Py.isupper_AZ (list_ascii_of_string name))
    as [|s0 sym0]; [done|].
  destruct (drop_while Py.isupper_AZ (list_ascii_of_string name))
    as [|sep [|c2 [|c0 [|y1 [|y2 rest]]]]]; try done;
    try (by case_char c2); try (by case_char c2; case_char c0).
  case_char c2. case_char c0.
  set (rest' := match rest with
                | c :: r => if is_dash_or_underscore c then r else rest
                | [] => rest
                end).
  assert (exists sep2,
            rest = sep2 ++ rest'
            /\ (sep2 = [] \/ exists c, sep2 = [c]
                                /\ is_dash_or_underscore c = true))
    as (sep2 & Hrest & Hsep2).
  { subst rest'. destruct rest as [|c r]; [by exists []; split; [|left]|].
    destruct (is_dash_or_underscore c) eqn:Hc.
    - exists [c]. split; [done|]. right. by exists c.
    - exists []. split; [done|]. by left. }
  clearbody rest'.
  destruct rest' as [|m1 [|m2 [|d1 [|d2 [|d3 [|d4 tail]]]]]]; try done;
    try (by case_char d1); try (by case_char d1; case_char d2);
    try (by case_char d1; case_char d2; case_char d3).
  case_char d1. case_char d2. case_char d3. case_char d4.
  destruct (is_dash_or_underscore sep) eqn:Hsep; [|done].
  destruct (Py.isdigit y1) eqn:Hy1; [|done].
  destruct (Py.isdigit y2) eqn:Hy2; [|done].
  destruct (Py.isdigit m1) eqn:Hm1; [|done].
  destruct (Py.isdigit m2) eqn:Hm2; [|done].
  simpl. destruct (_ || _) eqn:Htail; [|done].
  intros [= <- <- <-].
  exists sep, y1, y2, m1, m2, sep2, tail. split_and!; try done.
  - apply orb_true_iff in Htail as [Ht|Ht]; apply bool_decide_eq_true in Ht;
      [by left|by right].
  - by rewrite <- Hcs, Hrest.
Qed.

(** X14.  [build_bars_from_ticks] recognises exactly the file names of the
    form symbol, separator, year of this century, optional separator, month
    and [.csv], and reads the three parts off them. *)
Theorem re_search_file_name_form (name : string)
    (sym year month : list ascii) :
  re_search_file_name name = Some (sym, year, month)
  <-> file_name_form name sym year month.
Proof.
  split; [apply re_search_file_name_sound|apply re_search_file_name_complete].
Qed.

(** X15.  The order in which [build_bars_from_ticks] meets what can go
    wrong before the first batch.  Once every window-length string has been
    read, a file that the reader refuses ends the run with the exception of
    polars, whatever the file name, and a file that it opens but whose name
    is not of the recognised form ends it with [AttributeError]; in both
    cases no batch has been asked of the reader. *)
Theorem unrecognised_file_name_raises (path : CsvFile) (name : string)
    (tfm : list (string * string)) (lo hi : option Q) :
  (forall r, r ∈ tfm.*2 -> exists n, rule_to_seconds r = Ok n) ->
  (forall sym year month, ~ file_name_form name sym year month) ->
  build_bars_from_path path name tfm lo hi
  = (Raised match path with
            | refused => PolarsError
            | opens _ => AttributeError
            end, 0%nat).
Proof.
  intros Hrules Hname. unfold build_bars_from_path.
  destruct (rule_secs_lookup tfm.*2 ∅ Hrules) as (secs & Hsecs & _).
  unfold rule_secs_of at 1. rewrite Hsecs.
  destruct path as [batches|]; [|done].
  unfold build_bars_from_ticks, rule_secs_of. simpl timeframemap.
  rewrite Hsecs. simpl file_name.
  destruct (re_search_file_name name) as [[[sym year] month]|] eqn:Hre;
    [|done].
  by apply re_search_file_name_sound, Hname in Hre.
Qed.

Lemma unrecognised_file_name_raises_witness :
  build_bars_from_path
    (opens [canonical_batch (example_ticks day_2020_03_02)])
    "nq_2020_03.csv" [("1m", "60s")] None None
  = (Raised AttributeError, 0%nat).
Proof.
  apply (unrecognised_file_name_raises
           (opens [canonical_batch (example_ticks day_2020_03_02)])).
  - intros r Hr. apply list_elem_of_singleton in Hr as ->. by exists 60.
  - intros sym year month Hform.
    apply re_search_file_name_complete in Hform. by vm_compute in Hform.
Defined.

(** The same file name on a file the reader refuses. *)
Example refused_file_raises :
  build_bars_from_path refused "nq_2020_03.csv" [("1m", "60s")] None None
  = (Raised PolarsError, 0%nat).
Proof. reflexivity. Qed.

(** ** The keys of the merged result *)

Lemma merge_rule_ok (bars_out : gmap string (list BarFrame)) (r : string)
    (acc acc' : gmap string BarFrame) :
  merge_rule bars_out r acc = Ok acc' ->
  is_Some (bars_out !! r) /\ exists frame, acc' = <[r := frame]> acc.
Proof.
  unfold merge_rule, getitem.
  destruct (bars_out !! r) as [fs|]; [|done]. simpl.
  destruct fs as [|f fs].
  - intros [= <-]. eauto.
  - destruct (Polars.concat (f :: fs)); [|done]. simpl.
    intros [= <-]. eauto.
Qed.

Lemma merge_rules_keys (bars_out : gmap string (list BarFrame))
    (rules : list string) (acc final : gmap string BarFrame) :
  for_rules (merge_rule bars_out) rules acc = Ok final ->
  (forall r, is_Some (final !! r) <-> r ∈ rules \/ is_Some (acc !! r))
  /\ forall r, r ∈ rules -> is_Some (bars_out !! r).
Proof.
  revert acc. induction rules as [|r rules IH]; intros acc.
  - intros [= <-]. split.
    + intros r. split; [by right|]. by intros [?%elem_of_nil|?].
    + by intros r ?%elem_of_nil.
  - simpl. destruct (merge_rule bars_out r acc) as [acc'|e] eqn:Hrule; [|done].
    simpl. intros Hrest.
    destruct (merge_rule_ok _ _ _ _ Hrule) as (Hin & frame & ->).
    destruct (IH _ Hrest) as [Hkeys Hall]. split.
    + intros r'. rewrite Hkeys, elem_of_cons.
      destruct (decide (r' = r)) as [->|Hne].
      * rewrite lookup_insert_eq. split; [by left; left|by intros; right].
      * rewrite lookup_insert_ne by done.
        split; [intros [?|?]; [by left; right|by right]|].
        intros [[?|?]|?]; [done|by left|by right].
    + intros r' [->|Hr']%elem_of_cons; [done|by apply Hall].
Qed.

(** X16.  When [merge_data] returns, its result has a series for each
    granularity asked for and for nothing else, and every granularity asked
    for had a bar list: a granularity without one makes the call raise. *)
Theorem merge_data_keys (bars_out : gmap string (list BarFrame))
    (rules : list string) (final : gmap string BarFrame) (r : string) :
  merge_data bars_out rules = Ok final ->
  (is_Some (final !! r) <-> r ∈ rules)
  /\ (r ∈ rules -> is_Some (bars_out !! r)).
Proof.
  intros Hmerge.
  destruct (merge_rules_keys _ _ _ _ Hmerge) as [Hkeys Hall].
  split; [|by apply Hall].
  rewrite Hkeys. split; [|by left].
  intros [?|Hempty]; [done|]. rewrite lookup_empty in Hempty.
  by destruct Hempty.
Qed.

Lemma merge_data_keys_witness :
  (is_Some (two_series !! "60s") <-> "60s" ∈ ["60s"; "300s"])
  /\ ("60s" ∈ ["60s"; "300s"] -> is_Some (two_bar_lists !! "60s")).
Proof.
  apply (merge_data_keys two_bar_lists ["60s"; "300s"] two_series "60s").
  by vm_compute.
Defined.

(** ** Bar lists that are already in order *)

(** X17.  When the bars of a bar list, taken frame after frame, already have
    strictly increasing window starts, [merge_data] returns them as they are:
    nothing is dropped and nothing is moved. *)
Theorem merge_data_in_order (bars_out : gmap string (list BarFrame))
    (rules : list string) (r : string) (fs : list BarFrame) :
  well_formed_out rules bars_out ->
  r ∈ rules -> bars_out !! r = Some fs -> fs <> [] ->
  ascending_on window_start (List.concat (rows <$> fs)) ->
  exists final series,
    merge_data bars_out rules = Ok final
    /\ final !! r = Some series
    /\ rows series = List.concat (rows <$> fs).
Proof.
  intros Hwf Hr Hfs Hne Hasc.
  destruct (merge_data_lookup bars_out rules r fs Hwf Hr Hfs)
    as (final & series & Hmerge & _ & Hseries & _ & Hfull).
  exists final, series. split_and!; [done|done|].
  destruct (Hfull Hne) as [_ ->].
  rewrite sort_id by by apply ascending_sorted.
  by apply unique_last_id.
Qed.

Lemma finalized_in_order_well_formed :
  well_formed_out ["60s"] finalized_in_order.
Proof.
  intros r Hr. apply list_elem_of_singleton in Hr as ->.
  eexists. split; [reflexivity|].
  intros f g Hf Hg.
  repeat (apply elem_of_cons in Hf as [->|Hf]);
    repeat (apply elem_of_cons in Hg as [->|Hg]);
    try done; try (by apply elem_of_nil in Hf); by apply elem_of_nil in Hg.
Qed.

Lemma merge_data_in_order_witness :
  exists final series,
    merge_data finalized_in_order ["60s"] = Ok final
    /\ final !! "60s" = Some series
    /\ rows series
       = List.concat (rows <$> default [] (finalized_in_order !! "60s")).
Proof.
  apply (merge_data_in_order finalized_in_order ["60s"] "60s"
           (default [] (finalized_in_order !! "60s"))).
  - apply finalized_in_order_well_formed.
  - by left.
  - reflexivity.
  - done.
  - repeat constructor; by vm_compute.
Defined.

(** ** Granularities do not interfere *)

Lemma ingested_functional (sec : Z) (ticks buf : list Tick)
    (fs : list BarFrame) (b1 b2 : list Tick) (f1 f2 : list BarFrame) :
  ingested sec ticks buf fs b1 f1 -> ingested sec ticks buf fs b2 f2 ->
  b1 = b2 /\ f1 = f2.
Proof.
  intros (m1 & c1 & Hm1 & Hc1 & -> & ->) (m2 & c2 & Hm2 & Hc2 & -> & ->).
  assert (m1 = m2) as -> by congruence.
  assert (c1 = c2) as -> by congruence. done.
Qed.

Lemma streamed_functional (sec : Z) (batches : list (list Tick)) :
  forall (buf : list Tick) (fs : list BarFrame)
         (b1 b2 : list Tick) (f1 f2 : list BarFrame),
  streamed sec batches buf fs b1 f1 -> streamed sec batches buf fs b2 f2 ->
  b1 = b2 /\ f1 = f2.
Proof.
  induction batches as [|b batches IH]; intros buf fs b1 b2 f1 f2.
  - simpl. by intros [-> ->] [-> ->].
  - destruct b as [|t b]; simpl; [apply IH|].
    intros (bufa & fsa & Hia & Hsa) (bufb & fsb & Hib & Hsb).
    destruct (ingested_functional _ _ _ _ _ _ _ _ Hia Hib) as [-> ->].
    by apply (IH bufb fsb).
Qed.

Lemma flushed_functional (r : string) (buf : list Tick)
    (fs f1 f2 : list BarFrame) :
  flushed r buf fs f1 -> flushed r buf fs f2 -> f1 = f2.
Proof.
  destruct buf as [|t buf]; simpl; [congruence|].
  intros (b1 & Hb1 & ->) (b2 & Hb2 & ->).
  assert (b1 = b2) as -> by congruence. done.
Qed.

Lemma fresh_only_rule (data : LoopThroughFilesInputData) (r : string) :
  fresh_run data -> r ∈ rules data -> fresh_run (only_rule data r).
Proof.
  intros [_ Hfresh] Hr. split; simpl.
  - apply NoDup_singleton.
  - intros r' Hr'. apply list_elem_of_singleton in Hr' as ->. by apply Hfresh.
Qed.

(** X18.  The series of a granularity does not depend on the other
    granularities of the run: a fresh run returns for it the series that the
    run reduced to this one granularity returns. *)
Theorem granularities_independent (data : LoopThroughFilesInputData)
    (r : string) :
  fresh_run data -> r ∈ rules data ->
  exists final alone series,
    stream_and_merge data = Ok final
    /\ stream_and_merge (only_rule data r) = Ok alone
    /\ final !! r = Some series
    /\ alone !! r = Some series.
Proof.
  intros Hfresh Hr.
  pose proof (fresh_only_rule data r Hfresh Hr) as Hfresh1.
  assert (r ∈ rules (only_rule data r)) as Hr1 by by left.
  destruct (fresh_run_well_formed data Hfresh) as (st & Hloop & Hwf & Hfs).
  destruct (fresh_run_well_formed _ Hfresh1) as (st1 & Hloop1 & Hwf1 & Hfs1).
  destruct (Hfs r Hr) as (fs & Hout & Hschema).
  destruct (Hfs1 r Hr1) as (fs1 & Hout1 & _).
  assert (fs1 = fs) as ->.
  { destruct (loop_through_files_view data Hfresh)
      as (sa & outa & _ & Hloopa & Hviewa).
    destruct (loop_through_files_view _ Hfresh1)
      as (sb & outb & _ & Hloopb & Hviewb).
    rewrite Hloop in Hloopa. rewrite Hloop1 in Hloopb.
    injection Hloopa as ->. injection Hloopb as ->.
    destruct Hfresh as [_ Hfresh].
    destruct (Hfresh r Hr) as (sec & _ & Hsec & _).
    destruct (Hviewa r sec Hr Hsec)
      as (_ & bufa & fa & fa' & _ & _ & Houta & Hsta & Hfla).
    destruct (Hviewb r sec Hr1 Hsec)
      as (_ & bufb & fb & fb' & _ & _ & Houtb & Hstb & Hflb).
    change (cleaned (only_rule data r) (reader (only_rule data r)))
      with (cleaned data (reader data)) in Hstb.
    destruct (streamed_functional _ _ _ _ _ _ _ _ Hsta Hstb) as [-> ->].
    pose proof (flushed_functional _ _ _ _ _ Hfla Hflb) as ->.
    simpl in *. congruence. }
  destruct (merge_data_lookup st.2 _ r fs Hwf Hr Hout)
    as (final & series & Hmerge & _ & Hseries & Hempty & Hfull).
  destruct (merge_data_lookup st1.2 _ r fs Hwf1 Hr1 Hout1)
    as (alone & series1 & Hmerge1 & _ & Hseries1 & Hempty1 & Hfull1).
  exists final, alone, series. split_and!.
  - unfold stream_and_merge. by rewrite Hloop.
  - unfold stream_and_merge. by rewrite Hloop1.
  - done.
  - rewrite Hseries1. f_equal. destruct fs as [|f fs].
    + by rewrite Hempty, Hempty1.
    + destruct Hfull as [(g & Hg & Hsg) Hrows]; [done|].
      destruct Hfull1 as [(g1 & Hg1 & Hsg1) Hrows1]; [done|].
      rewrite Forall_forall in Hschema.
      rewrite (Hschema g Hg) in Hsg. rewrite (Hschema g1 Hg1) in Hsg1.
      destruct series, series1. simpl in *. congruence.
Qed.

(** ** Batches that leave no tick *)

Lemma batch_loop_with_reader (data : LoopThroughFilesInputData)
    (batches pending : list RawBatch) (calls : nat) (st : Dicts) :
  batch_loop (with_reader data batches) pending calls st
  = batch_loop data pending calls st.
Proof.
  revert calls st. induction pending as [|raw pending IH]; intros calls st;
    [done|].
  simpl. destruct (clean_tick_batch _ _ _ _); [apply IH|].
  destruct (for_rules _ _ _); [apply IH|done].
Qed.

Lemma batch_loop_skip (data : LoopThroughFilesInputData)
    (pre : list RawBatch) (raw : RawBatch) (post : list RawBatch)
    (c : nat) (st : Dicts) :
  clean_tick_batch raw (symbol_filter data) (sanity_min_price data)
    (sanity_max_price data) = [] ->
  (batch_loop data (pre ++ raw :: post) c st).1
  = (batch_loop data (pre ++ post) c st).1.
Proof.
  intros Hraw. revert c st. induction pre as [|b pre IH]; intros c st.
  - simpl. rewrite Hraw. apply batch_loop_calls.
  - simpl. destruct (clean_tick_batch b _ _ _); [apply IH|].
    destruct (for_rules _ _ _); [apply IH|done].
Qed.

Lemma loop_through_files_fst (data : LoopThroughFilesInputData) :
  (loop_through_files data).1
  = (batch_loop data (reader data) 0 (buffers data, bars_out data)).1
      ≫= for_rules flush (rules data).
Proof.
  unfold loop_through_files.
  by destruct (batch_loop _ _ _ _) as [[st|e] calls].
Qed.

Lemma loop_through_files_snd (data : LoopThroughFilesInputData) :
  (loop_through_files data).2
  = (batch_loop data (reader data) 0 (buffers data, bars_out data)).2.
Proof.
  unfold loop_through_files.
  by destruct (batch_loop _ _ _ _) as [[st|e] calls].
Qed.

(** X19.  A batch of which the sanitizer leaves nothing changes nothing but
    the number of reader calls: the loop ends as it does without this batch,
    with the same dictionaries or the same exception, and when it returns it
    has asked the reader once more. *)
Theorem empty_batch_skipped (data : LoopThroughFilesInputData)
    (pre : list RawBatch) (raw : RawBatch) (post : list RawBatch) :
  clean_tick_batch raw (symbol_filter data) (sanity_min_price data)
    (sanity_max_price data) = [] ->
  (loop_through_files (with_reader data (pre ++ raw :: post))).1
  = (loop_through_files (with_reader data (pre ++ post))).1
  /\ (forall st,
        (loop_through_files (with_reader data (pre ++ post))).1 = Ok st ->
        (loop_through_files (with_reader data (pre ++ raw :: post))).2
        = S (loop_through_files (with_reader data (pre ++ post))).2).
Proof.
  intros Hraw.
  assert ((batch_loop data (pre ++ raw :: post) 0
             (buffers data, bars_out data)).1
          = (batch_loop data (pre ++ post) 0
               (buffers data, bars_out data)).1) as Hskip
    by by apply batch_loop_skip.
  split.
  - rewrite !loop_through_files_fst. simpl.
    by rewrite !batch_loop_with_reader, Hskip.
  - intros st Hst. rewrite !loop_through_files_snd.
    rewrite loop_through_files_fst in Hst. simpl in *.
    rewrite !batch_loop_with_reader in *.
    assert (exists st1,
              (batch_loop data (pre ++ post) 0
                 (buffers data, bars_out data)).1 = Ok st1) as [st1 Hst1].
    { destruct (batch_loop data (pre ++ post) 0 _).1; [eauto|done]. }
    rewrite (batch_loop_ok_calls _ _ _ _ _ Hst1).
    rewrite Hst1 in Hskip.
    rewrite (batch_loop_ok_calls _ _ _ _ _ Hskip).
    rewrite !length_app. simpl. lia.
Qed.

Lemma empty_batch_skipped_witness :
  (loop_through_files
     (with_reader (run_60s [])
        ([canonical_batch (take 2 (example_ticks day_2020_03_02))]
           ++ canonical_batch []
              :: [canonical_batch (drop 2 (example_ticks day_2020_03_02))]))).1
  = (loop_through_files
       (with_reader (run_60s [])
          ([canonical_batch (take 2 (example_ticks day_2020_03_02))]
             ++ [canonical_batch (drop 2 (example_ticks day_2020_03_02))]))).1
  /\ (forall st,
        (loop_through_files
           (with_reader (run_60s [])
              ([canonical_batch (take 2 (example_ticks day_2020_03_02))]
                 ++ [canonical_batch
                       (drop 2 (example_ticks day_2020_03_02))]))).1
        = Ok st ->
        (loop_through_files
           (with_reader (run_60s [])
              ([canonical_batch (take 2 (example_ticks day_2020_03_02))]
                 ++ canonical_batch []
                    :: [canonical_batch
                          (drop 2 (example_ticks day_2020_03_02))]))).2
        = S (loop_through_files
               (with_reader (run_60s [])
                  ([canonical_batch (take 2 (example_ticks day_2020_03_02))]
                     ++ [canonical_batch
                           (drop 2 (example_ticks day_2020_03_02))]))).2).
Proof.
  apply (empty_batch_skipped (run_60s [])
           [canonical_batch (take 2 (example_ticks day_2020_03_02))]
           (canonical_batch [])
           [canonical_batch (drop 2 (example_ticks day_2020_03_02))]).
  reflexivity.
Defined.

(** ** Bars finalized before the flush *)

Lemma batch_loop_view (data : LoopThroughFilesInputData)
    (pre : list RawBatch) :
  fresh_run data ->
  exists st,
    batch_loop data pre 0 (buffers data, bars_out data)
    = (Ok st, S (length pre))
    /\ forall r sec, r ∈ rules data -> rule_secs data !! r = Some sec ->
         configured r sec
         /\ exists buf fs,
              st.1 !! r = Some buf /\ st.2 !! r = Some fs
              /\ streamed sec (cleaned data pre) [] [] buf fs.
Proof.
  intros [Hnodup Hfresh].
  assert (Hready : ready (rules data) (rule_secs data)
                     (buffers data, bars_out data)).
  { intros r' Hr'. destruct (Hfresh r' Hr') as (sec' & ? & ? & Hb & Ho).
    exists sec'. simpl. rewrite Hb, Ho. eauto. }
  destruct (batch_loop_streamed data pre 0 _ Hnodup Hready)
    as (st & Hloop & _ & Hin).
  exists st. split; [done|]. intros r sec Hr Hsec.
  destruct (Hfresh r Hr) as (sec' & Hconf & Hsec' & Hb & Ho).
  assert (sec' = sec) as -> by congruence.
  split; [done|].
  destruct (Hin r sec [] [] Hr Hsec Hb Ho) as (buf & fs & Hbuf & Hfs & Hstream).
  by exists buf, fs.
Qed.

Lemma elem_of_concat {A : Type} (x : A) (l : list A) (ls : list (list A)) :
  x ∈ l -> l ∈ ls -> x ∈ List.concat ls.
Proof.
  intros Hx. induction ls as [|l' ls IH]; [by intros ?%elem_of_nil|].
  simpl. rewrite elem_of_app.
  intros [->|Hl]%elem_of_cons; [by left|right; by apply IH].
Qed.

Lemma aligned_below (every a c : Z) :
  0 < every -> a mod every = 0 -> c mod every = 0 -> a < c -> a + every <= c.
Proof.
  intros Hevery Ha Hc Hlt.
  pose proof (Z.div_mod a every ltac:(lia)) as Hda.
  pose proof (Z.div_mod c every ltac:(lia)) as Hdc.
  rewrite Ha, Z.add_0_r in Hda. rewrite Hc, Z.add_0_r in Hdc.
  assert (a / every < c / every) as Hq.
  { apply (Z.mul_lt_mono_pos_l every); [done|]. by rewrite <- Hda, <- Hdc. }
  rewrite Hda, Hdc.
  replace (every * (a / every) + every) with (every * (a / every + 1)) by lia.
  apply Z.mul_le_mono_nonneg_l; lia.
Qed.

Lemma ingested_closed (sec : Z) (seen buf : list Tick) (fs : list BarFrame)
    (ticks buf' : list Tick) (fs' : list BarFrame) :
  0 < sec ->
  (forall t, t ∈ seen ++ ticks -> floors_exactly (datetime t)) ->
  (forall t, t ∈ buf -> t ∈ seen)
  /\ (forall b, b ∈ List.concat (rows <$> fs) ->
        exists t, t ∈ seen
          /\ window_start b + sec * us_per_second
             <= Polars.window_of (sec * us_per_second) (datetime t)) ->
  ingested sec ticks buf fs buf' fs' ->
  (forall t, t ∈ buf' -> t ∈ seen ++ ticks)
  /\ (forall b, b ∈ List.concat (rows <$> fs') ->
        exists t, t ∈ seen ++ ticks
          /\ window_start b + sec * us_per_second
             <= Polars.window_of (sec * us_per_second) (datetime t)).
Proof.
  intros Hsec Hexact [Hsub Hclosed] (last_dt & cutoff & Hmax & Hcut & -> & ->).
  assert (0 < sec * us_per_second) as Hevery by (unfold us_per_second; lia).
  assert (forall t, t ∈ Polars.sort datetime (buf ++ ticks) ->
            t ∈ seen ++ ticks) as Hcomb.
  { intros t Ht. apply elem_of_sort, elem_of_app in Ht as [Ht|Ht];
      apply elem_of_app; [left; by apply Hsub|by right]. }
  split.
  - intros t [_ Ht]%list_elem_of_filter. by apply Hcomb.
  - intros b. rewrite rows_of_appended, elem_of_app.
    intros [Hb|Hb].
    + destruct (Hclosed b Hb) as (t & Ht & Hle). exists t.
      split; [apply elem_of_app; by left|done].
    + apply max_item_Some in Hmax as [Hlast _].
      apply list_elem_of_fmap in Hlast as (tl & -> & Htl).
      exists tl. split; [by apply Hcomb|].
      assert (cutoff = Polars.window_of (sec * us_per_second) (datetime tl))
        as Hcutoff.
      { pose proof (floors_exactly_at sec (datetime tl) Hsec
                      (Hexact tl (Hcomb tl Htl))) as Hfl.
        unfold floors_at in Hfl. congruence. }
      rewrite <- Hcutoff.
      pose proof (bars_reduce_windows _
                    (filter (fun t => datetime t < cutoff)
                       (Polars.sort datetime (buf ++ ticks))) Hevery
                    ltac:(apply sorted_filter, sort_sorted))
        as (_ & _ & Hbars).
      destruct (Hbars b Hb) as (Hal & first & rest & Hwin & _).
      assert (first ∈ window_ticks (sec * us_per_second) (window_start b)
                (filter (fun t => datetime t < cutoff)
                   (Polars.sort datetime (buf ++ ticks)))) as Hfirst
        by (rewrite Hwin; by left).
      apply list_elem_of_filter in Hfirst as [[Hlo _] Hfirst].
      apply list_elem_of_filter in Hfirst as [Hlt _].
      apply aligned_below; [done|done| |lia].
      rewrite Hcutoff. by apply window_of_aligned.
Qed.

(** X20.  Before the flush the bar list holds closed windows only.  When no
    tick is both before the epoch and off the whole seconds, then after any
    number of batches, in whatever order their ticks come, every bar finalized
    so far is of a window that ends at or before the start of the window of
    the latest tick seen. *)
Theorem finalized_windows_closed (data : LoopThroughFilesInputData)
    (pre : list RawBatch) (r : string) (sec : Z) :
  fresh_run data -> r ∈ rules data -> rule_secs data !! r = Some sec ->
  (forall t, t ∈ List.concat (cleaned data pre) ->
     floors_exactly (datetime t)) ->
  exists st fs,
    batch_loop data pre 0 (buffers data, bars_out data)
    = (Ok st, S (length pre))
    /\ st.2 !! r = Some fs
    /\ forall m,
         Polars.max_item (datetime <$> List.concat (cleaned data pre))
         = Some m ->
         forall f b, f ∈ fs -> b ∈ rows f ->
           window_start b + sec * us_per_second
           <= Polars.window_of (sec * us_per_second) m.
Proof.
  intros Hfresh Hr Hsec Hexact.
  destruct (batch_loop_view data pre Hfresh) as (st & Hloop & Hview).
  destruct (Hview r sec Hr Hsec) as (Hconf & buf & fs & _ & Hfs & Hst).
  exists st, fs. split_and!; [done|done|].
  pose proof Hconf as (_ & _ & Hpos).
  assert (0 < sec * us_per_second) as Hevery by (unfold us_per_second; lia).
  set (I := fun (seen buf : list Tick) (fs : list BarFrame) =>
       (forall t, t ∈ seen -> floors_exactly (datetime t)) ->
       (forall t, t ∈ buf -> t ∈ seen)
       /\ (forall b, b ∈ List.concat (rows <$> fs) ->
             exists t, t ∈ seen
               /\ window_start b + sec * us_per_second
                  <= Polars.window_of (sec * us_per_second) (datetime t))).
  assert (forall seen buf fs ticks buf' fs',
            I seen buf fs -> ticks <> [] -> sorted_on datetime ticks ->
            ingested sec ticks buf fs buf' fs' ->
            I (seen ++ ticks) buf' fs') as Hstep.
  { intros seen buf0 fs0 ticks buf' fs' HI _ _ Hing Hex.
    apply (ingested_closed sec seen buf0 fs0); [done|done| |done].
    apply HI. intros t Ht. apply Hex, elem_of_app. by left. }
  assert (I [] [] []) as Hstart.
  { intros _. split; [done|by intros b ?%elem_of_nil]. }
  destruct (streamed_invariant sec I Hstep (cleaned data pre) [] [] [] buf fs
              (cleaned_sorted _ _) Hstart Hst Hexact) as [_ Hclosed].
  intros m Hm f b Hf Hb.
  destruct (Hclosed b) as (t & Ht & Hle).
  { apply (elem_of_concat _ (rows f)); [done|].
    by apply list_elem_of_fmap_2. }
  apply max_item_Some in Hm as [_ Hub].
  assert (datetime t <= m) as Htm by by apply Hub, list_elem_of_fmap_2.
  pose proof (window_of_mono _ Hevery _ _ Htm). lia.
Qed.

Lemma finalized_windows_closed_witness :
  exists st fs,
    batch_loop (run_60s [example_ticks day_2020_03_02])
      [canonical_batch (example_ticks day_2020_03_02)] 0
      ({["60s" := []]}, {["60s" := []]})
    = (Ok st, 2%nat)
    /\ st.2 !! "60s" = Some fs
    /\ forall m,
         Polars.max_item
           (datetime <$>
              List.concat
                (cleaned (run_60s [example_ticks day_2020_03_02])
                   [canonical_batch (example_ticks day_2020_03_02)]))
         = Some m ->
         forall f b, f ∈ fs -> b ∈ rows f ->
           window_start b + 60 * us_per_second
           <= Polars.window_of (60 * us_per_second) m.
Proof.
  apply (finalized_windows_closed (run_60s [example_ticks day_2020_03_02])
           [canonical_batch (example_ticks day_2020_03_02)] "60s" 60).
  - apply fresh_run_60s.
  - by left.
  - reflexivity.
  - intros t Ht. left. vm_compute in Ht.
    repeat (apply elem_of_cons in Ht as [->|Ht]; [by vm_compute|]).
    by apply elem_of_nil in Ht.
Defined.

(** ** build_bars_from_ticks on a well-formed configuration *)

Lemma build_starts (d : BuildBarsFromTicksOutputData)
    (symbol year month : list ascii) :
  NoDup (timeframemap d).*2 ->
  (forall r, r ∈ (timeframemap d).*2 -> exists sec, configured r sec) ->
  re_search_file_name (file_name d) = Some (symbol, year, month) ->
  exists secs,
    fresh_run (started_run d secs symbol year month)
    /\ build_bars_from_ticks d
       = match loop_through_files (started_run d secs symbol year month) with
         | (Ok st, calls) => (merge_data st.2 (timeframemap d).*2, calls)
         | (Raised e, calls) => (Raised e, calls)
         end.
Proof.
  intros Hnd Hall Hre.
  destruct (rule_secs_lookup (timeframemap d).*2 ∅) as (secs & Hsecs & Hin & _).
  { intros r Hr. destruct (Hall r Hr) as (sec & _ & Hsec & _). by exists sec. }
  exists secs. split.
  - split; [exact Hnd|]. simpl. intros r Hr.
    destruct (Hall r Hr) as (sec & Hconf).
    exists sec. split_and!; [exact Hconf| |by apply empty_entries_lookup..].
    apply Hin; [done|]. by destruct Hconf as (_ & ? & _).
  - unfold build_bars_from_ticks, rule_secs_of. by rewrite Hsecs, Hre.
Qed.

(** Line 179 returns only when [rule_to_seconds] has read every string. *)
Lemma rule_secs_of_read (rules : list string) (acc m : gmap string Z) :
  for_rules (fun r d => sec ← rule_to_seconds r; Ok (<[r := sec]> d))
    rules acc = Ok m ->
  forall r, r ∈ rules -> exists sec, rule_to_seconds r = Ok sec.
Proof.
  revert acc. induction rules as [|r0 rules IH]; intros acc Hm r Hr.
  { by apply elem_of_nil in Hr. }
  cbn [for_rules] in Hm.
  destruct (rule_to_seconds r0) as [sec|e] eqn:Hr0; [|done]. simpl in Hm.
  apply elem_of_cons in Hr as [->|Hr]; [by exists sec|].
  by apply (IH _ Hm).
Qed.

(** X21.  Whenever [build_bars_from_ticks] returns, it has read every
    window-length string, recognised the file name and asked the reader once
    per batch and once more, and its result has a series for each
    window-length string and for nothing else. *)
Theorem build_bars_from_ticks_returns (d : BuildBarsFromTicksOutputData)
    (final : gmap string BarFrame) :
  (build_bars_from_ticks d).1 = Ok final ->
  (build_bars_from_ticks d).2 = S (length (data d))
  /\ (forall r, r ∈ (timeframemap d).*2 ->
        exists sec, rule_to_seconds r = Ok sec)
  /\ (exists symbol year month,
        file_name_form (file_name d) symbol year month)
  /\ forall r, is_Some (final !! r) <-> r ∈ (timeframemap d).*2.
Proof.
  unfold build_bars_from_ticks.
  destruct (rule_secs_of _) as [secs|e] eqn:Hsecs; [|done].
  destruct (re_search_file_name _) as [[[symbol year] month]|] eqn:Hre;
    [|done].
  destruct (loop_through_files _) as [[st|e] calls] eqn:Hloop; [|done].
  simpl. intros Hmerge. split_and!.
  - pose proof (loop_through_files_ok_calls _ st ltac:(by rewrite Hloop))
      as Hcalls.
    by rewrite Hloop in Hcalls.
  - by apply (rule_secs_of_read _ ∅ secs).
  - exists symbol, year, month. by apply re_search_file_name_sound.
  - intros r. destruct (merge_rules_keys _ _ _ _ Hmerge) as [Hkeys _].
    rewrite Hkeys. split; [|by left].
    intros [?|Hempty]; [done|]. rewrite lookup_empty in Hempty.
    by destruct Hempty.
Qed.

Lemma configured_digits (r : string) (ds : list ascii) :
  list_ascii_of_string r = ds ++ ["s"%char] ->
  ds <> [] -> Forall (fun c => Py.isdigit c = true) ds ->
  0 < Py.int_of_digits ds ->
  configured r (Py.int_of_digits ds).
Proof.
  intros Hr Hne Hds Hpos. split_and!; [by exists ds| |done].
  rewrite <- (string_of_list_ascii_of_string r), Hr.
  by apply (rule_to_seconds_spaced [] ds [] []).
Qed.

Lemma configured_300s : configured "300s" 300.
Proof.
  by apply (configured_digits "300s" ["3"%char; "0"%char; "0"%char]);
    [|done|repeat constructor|].
Qed.

Lemma file_name_form_march :
  file_name_form "NQ_2020_03.csv" ["N"%char; "Q"%char]
    ["2"%char; "0"%char; "2"%char; "0"%char] ["0"%char; "3"%char].
Proof. by apply re_search_file_name_sound. Qed.

Lemma build_bars_from_ticks_returns_witness :
  (build_bars_from_ticks march_run).2 = 3%nat
  /\ (forall r, r ∈ ["60s"; "300s"] ->
        exists sec, rule_to_seconds r = Ok sec)
  /\ (exists symbol year month,
        file_name_form "NQ_2020_03.csv" symbol year month)
  /\ forall r, is_Some (march_series !! r) <-> r ∈ ["60s"; "300s"].
Proof.
  apply (build_bars_from_ticks_returns march_run march_series).
  by vm_compute.
Defined.

(** ** Files named for a month outside the calendar *)

Lemma build_no_ticks (d : BuildBarsFromTicksOutputData)
    (symbol year month : list ascii) :
  NoDup (timeframemap d).*2 ->
  (forall r, r ∈ (timeframemap d).*2 -> exists sec, configured r sec) ->
  re_search_file_name (file_name d) = Some (symbol, year, month) ->
  (forall raw, raw ∈ data d ->
     clean_tick_batch raw
       (filter_symbol_in_files (string_of_list_ascii symbol)
          (Py.int_of_digits year) (Py.int_of_digits month))
       (build_sanity_min_price d) (build_sanity_max_price d) = []) ->
  exists final,
    build_bars_from_ticks d = (Ok final, S (length (data d)))
    /\ forall r, r ∈ (timeframemap d).*2 ->
         final !! r = Some {| schema := empty_schema; rows := [] |}.
Proof.
  intros Hnd Hall Hre Hempty.
  destruct (build_starts d symbol year month Hnd Hall Hre)
    as (secs & [_ Hfresh] & ->).
  unfold loop_through_files.
  rewrite (batch_loop_no_ticks (started_run d secs symbol year month)
             (data d) 0 _ Hempty).
  rewrite flush_empty_buffers
    by (intros r Hr; by destruct (Hfresh r Hr) as (? & _ & _ & ? & _)).
  assert (well_formed_out (timeframemap d).*2
            (bars_out (started_run d secs symbol year month))) as Hwf.
  { intros r Hr. destruct (Hfresh r Hr) as (? & _ & _ & _ & Hout).
    exists []. split; [done|]. by intros f g ?%elem_of_nil. }
  destruct (merge_data_complete _ _ Hwf) as (final & Hmerge & _ & Hfinal).
  exists final. split.
  - simpl. by rewrite <- Hmerge.
  - intros r Hr. apply Hfinal; [done|].
    by destruct (Hfresh r Hr) as (? & _ & _ & _ & ?).
Qed.

(** X22.  A file whose name carries a month outside 1-12 is read without a
    contract symbol, and when its batches have a symbol column no tick passes:
    every series comes out empty, and nothing is raised. *)
Theorem month_outside_calendar_empty (d : BuildBarsFromTicksOutputData)
    (symbol year month : list ascii) :
  NoDup (timeframemap d).*2 ->
  (forall r, r ∈ (timeframemap d).*2 -> exists sec, configured r sec) ->
  file_name_form (file_name d) symbol year month ->
  ~ 1 <= Py.int_of_digits month <= 12 ->
  (forall raw, raw ∈ data d -> has_symbol_column raw = true) ->
  exists final,
    build_bars_from_ticks d = (Ok final, S (length (data d)))
    /\ forall r, r ∈ (timeframemap d).*2 ->
         final !! r = Some {| schema := empty_schema; rows := [] |}.
Proof.
  intros Hnd Hall Hform%re_search_file_name_complete Hmonth Hcol.
  apply (build_no_ticks d symbol year month); try done.
  intros raw Hraw.
  assert (filter_symbol_in_files (string_of_list_ascii symbol)
            (Py.int_of_digits year) (Py.int_of_digits month) = None) as ->.
  { unfold filter_symbol_in_files.
    repeat match goal with
           | |- context [?a =? ?b] => rewrite (proj2 (Z.eqb_neq a b)) by lia
           end.
    done. }
  by apply clean_tick_batch_no_contract, Hcol.
Qed.

Lemma month_outside_calendar_empty_witness :
  exists final,
    build_bars_from_ticks thirteenth_month_run = (Ok final, 2%nat)
    /\ forall r, r ∈ ["60s"] ->
         final !! r = Some {| schema := empty_schema; rows := [] |}.
Proof.
  apply (month_outside_calendar_empty thirteenth_month_run
           ["N"%char; "Q"%char] ["2"%char; "0"%char; "2"%char; "0"%char]
           ["1"%char; "3"%char]).
  - refine (bool_decide_unpack _ _). by vm_compute.
  - intros r Hr. apply list_elem_of_singleton in Hr as ->.
    exists 60. apply configured_60s.
  - by apply re_search_file_name_sound.
  - vm_compute (Py.int_of_digits _). lia.
  - intros raw Hraw. by apply list_elem_of_singleton in Hraw as ->.
Defined.

(** ** main *)

Lemma configured_str (n : Z) : 0 < n -> configured (Py.str n +:+ "s") n.
Proof.
  intros Hn. destruct (str_digits n ltac:(lia)) as (Hne & Hds & Hval).
  rewrite <- Hval at 2. apply configured_digits; [|done|done|lia].
  apply list_ascii_of_string_app.
Qed.

Lemma timeframe_map_configured :
  NoDup timeframe_map.*2
  /\ forall r, r ∈ timeframe_map.*2 -> exists sec, configured r sec.
Proof.
  split; [refine (bool_decide_unpack _ _); by vm_compute|].
  intros r Hr. unfold timeframe_map in Hr. simpl in Hr.
  repeat (apply elem_of_cons in Hr as [->|Hr]);
    [exists 60; exact (configured_str 60 eq_refl)
    |exists 300; exact (configured_str 300 eq_refl)
    |exists 900; exact (configured_str 900 eq_refl)
    |exists 1800; exact (configured_str 1800 eq_refl)
    |exists 3600; exact (configured_str 3600 eq_refl)
    |exists 7200; exact (configured_str 7200 eq_refl)
    |exists 14400; exact (configured_str 14400 eq_refl)
    |exists 43200; exact (configured_str 43200 eq_refl)
    |exists 86400; exact (configured_str 86400 eq_refl)
    |by apply elem_of_nil in Hr].
Qed.

Lemma timeframe_map_lookup (p : string) :
  p ∈ timeframe_map.*1 ->
  exists rule,
    (list_to_map timeframe_map : gmap string string) !! p = Some rule
    /\ rule ∈ timeframe_map.*2.
Proof.
  intros Hp. unfold timeframe_map in Hp. simpl in Hp.
  repeat (apply elem_of_cons in Hp as [->|Hp]);
    try (eexists; split; [reflexivity|];
         refine (bool_decide_unpack _ _); by vm_compute).
  by apply elem_of_nil in Hp.
Qed.

(** What [main] shows for a file with a recognised name: the chart of the
    series selected when it has rows, the warning otherwise. *)
Lemma main_named (w : Widgets) (name : string) (batches : list RawBatch)
    (sym year month : list ascii) :
  file w = Some (name, batches) -> product w ∈ timeframe_map.*1 ->
  re_search_file_name name = Some (sym, year, month) ->
  exists final rule df,
    build_bars_from_ticks
      {| data := batches; file_name := name; timeframemap := timeframe_map;
         build_sanity_min_price := Some (sanity_min_choice w);
         build_sanity_max_price := Some (sanity_max_choice w) |}
    = (Ok final, S (length batches))
    /\ rule ∈ timeframe_map.*2
    /\ final !! rule = Some df
    /\ main w = if (0 <? height df)%nat then plotly_chart df
                else no_data_warning.
Proof.
  intros Hfile Hp Hre.
  destruct timeframe_map_configured as [Hnd Hall].
  set (d := {| data := batches; file_name := name;
               timeframemap := timeframe_map;
               build_sanity_min_price := Some (sanity_min_choice w);
               build_sanity_max_price := Some (sanity_max_choice w) |}).
  destruct (build_starts d sym year month Hnd Hall Hre)
    as (secs & Hfresh & Hbuild).
  destruct (fresh_run_well_formed _ Hfresh) as (st & Hloop & Hwf & _).
  destruct (merge_data_complete st.2 _ Hwf) as (final & Hmerge & Hsome & _).
  assert (build_bars_from_ticks d = (Ok final, S (length batches)))
    as Hfinal.
  { rewrite Hbuild, Hloop. f_equal. exact Hmerge. }
  destruct (timeframe_map_lookup _ Hp) as (rule & Hrule & Hin).
  destruct (Hsome rule Hin) as [df Hdf].
  exists final, rule, df. split_and!; [done|done|done|].
  unfold main. rewrite Hfile. fold d. rewrite Hfinal.
  unfold getitem. rewrite Hrule. simpl. by rewrite Hdf.
Qed.

(** The series [main] draws has strictly increasing window starts. *)
Lemma main_named_series (w : Widgets) (name : string)
    (batches : list RawBatch) (sym year month : list ascii) :
  file w = Some (name, batches) -> product w ∈ timeframe_map.*1 ->
  re_search_file_name name = Some (sym, year, month) ->
  exists df,
    main w = (if (0 <? height df)%nat then plotly_chart df
              else no_data_warning)
    /\ ascending_on window_start (rows df).
Proof.
  intros Hfile Hp Hre.
  destruct (main_named w name batches sym year month Hfile Hp Hre)
    as (final & rule & df & Hbuild & Hrule & Hdf & Hmain).
  exists df. split; [done|].
  destruct timeframe_map_configured as [Hnd Hall].
  set (d := {| data := batches; file_name := name;
               timeframemap := timeframe_map;
               build_sanity_min_price := Some (sanity_min_choice w);
               build_sanity_max_price := Some (sanity_max_choice w) |}) in *.
  destruct (build_starts d sym year month Hnd Hall Hre)
    as (secs & Hfresh & Hbuild').
  destruct (fresh_run_series _ Hfresh)
    as (st & final' & Hloop & Hmerge & Hseries).
  unfold stream_and_merge in Hmerge. rewrite Hloop in Hmerge.
  rewrite Hbuild', Hloop in Hbuild. simpl in Hbuild, Hmerge.
  assert (final' = final) as -> by congruence.
  destruct (Hseries rule Hrule) as (series & Hlookup & Hasc & _).
  simpl in Hlookup. by assert (series = df) as -> by congruence.
Qed.

(** A name that is not recognised ends in the error box. *)
Lemma main_unnamed (w : Widgets) (name : string) (batches : list RawBatch) :
  file w = Some (name, batches) -> re_search_file_name name = None ->
  main w = error_box AttributeError.
Proof.
  intros Hfile Hre. unfold main. rewrite Hfile.
  unfold build_bars_from_ticks, rule_secs_of. simpl timeframemap.
  destruct (rule_secs_lookup timeframe_map.*2 ∅) as (secs & -> & _).
  { intros r Hr.
    destruct (proj2 timeframe_map_configured r Hr) as (sec & _ & ? & _).
    by exists sec. }
  simpl file_name. by rewrite Hre.
Qed.

(** X23.  When [main] shows no error for an uploaded file, the name of the
    file is of the recognised form, and what it shows is the warning that no
    data is left or the chart of a series that has at least one bar and
    strictly increasing window starts. *)
Theorem main_shows_series (w : Widgets) (name : string)
    (batches : list RawBatch) :
  file w = Some (name, batches) -> product w ∈ timeframe_map.*1 ->
  (forall e, main w <> error_box e) ->
  (exists sym year month, file_name_form name sym year month)
  /\ (main w = no_data_warning
      \/ exists df,
           main w = plotly_chart df
           /\ rows df <> []
           /\ ascending_on window_start (rows df)).
Proof.
  intros Hfile Hp Hno.
  destruct (re_search_file_name name) as [[[sym year] month]|] eqn:Hre.
  - split.
    { exists sym, year, month. by apply re_search_file_name_sound. }
    destruct (main_named_series w name batches sym year month Hfile Hp Hre)
      as (df & Hmain & Hasc).
    rewrite Hmain. destruct (0 <? height df)%nat eqn:Hheight; [|by left].
    right. exists df. split_and!; [done| |done].
    intros Hrows. unfold height in Hheight. by rewrite Hrows in Hheight.
  - by destruct (Hno AttributeError (main_unnamed w name batches Hfile Hre)).
Qed.

Lemma main_shows_series_witness :
  (exists sym year month, file_name_form "NQ_2020_03.csv" sym year month)
  /\ (main march_upload = no_data_warning
      \/ exists df,
           main march_upload = plotly_chart df
           /\ rows df <> []
           /\ ascending_on window_start (rows df)).
Proof.
  apply (main_shows_series march_upload "NQ_2020_03.csv"
           [canonical_batch (example_ticks day_2020_03_02)]).
  - reflexivity.
  - by left.
  - intros e He. vm_compute in He. discriminate.
Defined.

(** What [main] shows for the example ticks: the chart of their two
    one-minute bars. *)
Example main_march_upload :
  main march_upload
  = plotly_chart {| schema := bars_schema;
                    rows := example_bars day_2020_03_02 |}.
Proof. by vm_compute. Qed.

(** X24.  When no price of the uploaded file lies within the two prices
    selected, as with both selectors left on their first option and prices
    that are not zero, [main] shows the warning that no data is left. *)
Theorem main_no_data (w : Widgets) (name : string) (batches : list RawBatch)
    (sym year month : list ascii) :
  file w = Some (name, batches) -> product w ∈ timeframe_map.*1 ->
  file_name_form name sym year month ->
  (forall raw row p, raw ∈ batches -> row ∈ raw_rows raw ->
     price row = Some p ->
     ~ (sanity_min_choice w <= p /\ p <= sanity_max_choice w)%Q) ->
  main w = no_data_warning.
Proof.
  intros Hfile Hp Hform%re_search_file_name_complete Hout.
  destruct (main_named w name batches sym year month Hfile Hp Hform)
    as (final & rule & df & Hbuild & Hrule & Hdf & ->).
  destruct timeframe_map_configured as [Hnd Hall].
  destruct (build_no_ticks
              {| data := batches; file_name := name;
                 timeframemap := timeframe_map;
                 build_sanity_min_price := Some (sanity_min_choice w);
                 build_sanity_max_price := Some (sanity_max_choice w) |}
              sym year month Hnd Hall Hform)
    as (final' & Hbuild' & Hempty).
  { simpl. intros raw Hraw. apply elem_of_nil_inv. intros t Ht.
    apply clean_tick_batch_elem_of in Ht
      as (row & Hrow & _ & Hprice & _ & Hl & Hh).
    apply (Hout raw row (mid t) Hraw Hrow Hprice).
    split; [by apply Hl|by apply Hh]. }
  rewrite Hbuild in Hbuild'. injection Hbuild' as <-.
  rewrite (Hempty rule Hrule) in Hdf. by injection Hdf as <-.
Qed.

Lemma main_no_data_witness : main default_selection = no_data_warning.
Proof.
  apply (main_no_data default_selection "NQ_2020_03.csv"
           [canonical_batch (example_ticks day_2020_03_02)]
           ["N"%char; "Q"%char] ["2"%char; "0"%char; "2"%char; "0"%char]
           ["0"%char; "3"%char]).
  - reflexivity.
  - by left.
  - apply file_name_form_march.
  - intros raw row p Hraw Hrow Hp [Hlo Hhi].
    apply list_elem_of_singleton in Hraw as ->.
    simpl in Hrow.
    repeat (apply elem_of_cons in Hrow as [->|Hrow];
            [injection Hp as <-; by vm_compute in Hhi|]).
    by apply elem_of_nil in Hrow.
Defined.

(** ** Runs in timestamp order *)

Lemma split_run_ordered :
  ordered_batches (cleaned split_run (reader split_run)).
Proof.
  unfold split_run. rewrite cleaned_run_60s.
  assert (sorted_on datetime
            (List.concat [take 2 (example_ticks day_2020_03_02);
                          drop 2 (example_ticks day_2020_03_02)])) as Hsorted
    by apply example_ticks_sorted.
  destruct (sorted_concat _ Hsorted) as [Hall Hord].
  by rewrite sort_batches_id.
Qed.

Lemma split_run_from_epoch (t : Tick) :
  t ∈ List.concat (cleaned split_run (reader split_run)) ->
  floors_exactly (datetime t).
Proof.
  intros Ht. left. vm_compute in Ht.
  repeat (apply elem_of_cons in Ht as [->|Ht]; [by vm_compute|]).
  by apply elem_of_nil in Ht.
Qed.

Lemma batch_invariance_witness :
  exists final series direct,
    stream_and_merge split_run = Ok final
    /\ final !! "60s" = Some series
    /\ bars_from_ticks
         (Polars.sort datetime
            (List.concat (cleaned split_run (reader split_run)))) "60s"
       = Ok direct
    /\ rows series = rows direct.
Proof.
  apply (batch_invariance split_run "60s").
  - apply fresh_run_60s.
  - by left.
  - apply split_run_ordered.
  - apply split_run_from_epoch.
Defined.

(** ** The bars of the final series *)

Lemma ingested_candles (sec : Z) (ticks buf : list Tick) (fs : list BarFrame)
    (buf' : list Tick) (fs' : list BarFrame) :
  0 < sec ->
  (forall b, b ∈ List.concat (rows <$> fs) ->
     valid_candle b /\ window_start b mod (sec * us_per_second) = 0) ->
  ingested sec ticks buf fs buf' fs' ->
  forall b, b ∈ List.concat (rows <$> fs') ->
    valid_candle b /\ window_start b mod (sec * us_per_second) = 0.
Proof.
  intros Hsec Hfs (last_dt & cutoff & _ & _ & _ & ->) b.
  rewrite rows_of_appended, elem_of_app. intros [Hb|Hb]; [by apply Hfs|].
  apply (bars_of_candles sec _ Hsec) in Hb; [done|].
  apply sorted_filter, sort_sorted.
Qed.

(** X27.  On ticks of finite prices, every bar of every series that a fresh
    run ends with can be drawn as a candle and starts on a multiple of its
    window length, in whatever order the batches come. *)
Theorem final_series_candles (data : LoopThroughFilesInputData)
    (r : string) (sec : Z) :
  fresh_run data -> r ∈ rules data -> rule_secs data !! r = Some sec ->
  exists final series,
    stream_and_merge data = Ok final
    /\ final !! r = Some series
    /\ forall b, b ∈ rows series ->
         valid_candle b /\ window_start b mod (sec * us_per_second) = 0.
Proof.
  intros Hfresh Hr Hsec.
  destruct (loop_through_files_view data Hfresh)
    as (st1 & out & _ & Hloop & Hview).
  destruct (Hview r sec Hr Hsec)
    as (Hconf & buf & fs & fs' & _ & _ & Hout & Hst & Hfl).
  pose proof Hconf as (_ & _ & Hpos).
  destruct (streamed_frames sec _ buf fs (cleaned_sorted _ _) Hst)
    as [Hsorted Hschema].
  destruct (flushed_frames r sec buf fs fs' Hconf Hsorted Hschema Hfl)
    as [_ Hrows].
  assert (forall b, b ∈ List.concat (rows <$> fs') ->
            valid_candle b /\ window_start b mod (sec * us_per_second) = 0)
    as Hcandles.
  { intros b. rewrite Hrows, elem_of_app. intros [Hb|Hb].
    - revert b Hb.
      refine (streamed_invariant sec
                (fun _ _ fs =>
                   forall b, b ∈ List.concat (rows <$> fs) ->
                     valid_candle b
                     /\ window_start b mod (sec * us_per_second) = 0)
                _ _ [] [] [] buf fs (cleaned_sorted _ _) _ Hst).
      + clear -Hpos. intros _ buf fs ticks buf' fs' Hfs _ _ Hing.
        by apply (ingested_candles sec ticks buf fs buf').
      + by intros b ?%elem_of_nil.
    - by apply (bars_of_candles sec buf). }
  destruct (fresh_run_well_formed data Hfresh) as (st & Hloop' & Hwf & _).
  rewrite Hloop in Hloop'. injection Hloop' as <-.
  destruct (merge_data_lookup _ (rules data) r fs' Hwf Hr Hout)
    as (final & series & Hmerge & _ & Hseries & Hempty & Hfull).
  exists final, series. split_and!.
  - unfold stream_and_merge. by rewrite Hloop.
  - done.
  - intros b Hb. destruct fs' as [|f fs'].
    + rewrite Hempty in Hb by done. by apply elem_of_nil in Hb.
    + destruct Hfull as [_ Hrows']; [done|]. rewrite Hrows' in Hb.
      apply unique_last_subseteq, elem_of_sort in Hb. by apply Hcandles.
Qed.

(** ** A granularity without a buffer *)

Lemma ingest_missing_buffer (secs : gmap string Z) (ticks : list Tick)
    (r : string) (st : Dicts) :
  st.1 !! r = None -> ingest secs ticks r st = Raised (KeyError r).
Proof. intros Hbuf. unfold ingest, getitem. by rewrite Hbuf. Qed.

Lemma flush_missing_buffer (r : string) (st : Dicts) :
  st.1 !! r = None -> flush r st = Raised (KeyError r).
Proof. intros Hbuf. unfold flush, getitem. by rewrite Hbuf. Qed.

Lemma batch_loop_missing_buffer (data : LoopThroughFilesInputData)
    (r : string) (rest : list string) (pending : list RawBatch) (c : nat)
    (st : Dicts) :
  rules data = r :: rest -> st.1 !! r = None ->
  batch_loop data pending c st = (Ok st, S (c + length pending))
  \/ exists n,
       batch_loop data pending c st = (Raised (KeyError r), n)
       /\ (c < n <= c + length pending)%nat.
Proof.
  intros Hrules Hbuf. revert c.
  induction pending as [|raw pending IH]; intros c.
  - left. simpl. by rewrite Nat.add_0_r.
  - simpl. destruct (clean_tick_batch _ _ _ _) as [|t ticks].
    + destruct (IH (S c)) as [->|(n & -> & Hn)].
      * left. do 2 f_equal. lia.
      * right. exists n. split; [done|lia].
    + right. exists (S c). split; [|lia].
      rewrite Hrules. cbn [for_rules].
      by rewrite ingest_missing_buffer.
Qed.

(** The iterations over the batches delivered first are the same whatever
    follows them. *)
Lemma batch_loop_app (data : LoopThroughFilesInputData)
    (pre post : list RawBatch) (calls : nat) (st : Dicts) :
  batch_loop data (pre ++ post) calls st
  = match batch_loop data pre calls st with
    | (Ok st', _) => batch_loop data post (calls + length pre) st'
    | (Raised e, n) => (Raised e, n)
    end.
Proof.
  revert calls st. induction pre as [|raw pre IH]; intros calls st; simpl.
  { by rewrite Nat.add_0_r. }
  destruct (clean_tick_batch raw _ _ _) as [|t ticks].
  - rewrite IH. by rewrite Nat.add_succ_comm.
  - destruct (for_rules _ _ st) as [st'|e]; [|done].
    rewrite IH. by rewrite Nat.add_succ_comm.
Qed.

(** X28.  [loop_through_files] on an object whose first granularity has no
    buffer ends with [KeyError] for that granularity: in the first batch of
    which the sanitizer leaves a tick, after one call of [next_batches] for
    it and for each batch before it, or else in the flush, after one call
    for each batch and one more. *)
Theorem missing_buffer_raises (data : LoopThroughFilesInputData)
    (r : string) (rest : list string) (pre post : list RawBatch) :
  rules data = r :: rest -> buffers data !! r = None ->
  reader data = pre ++ post ->
  (forall raw, raw ∈ pre ->
     clean_tick_batch raw (symbol_filter data) (sanity_min_price data)
       (sanity_max_price data) = []) ->
  match post with
  | [] => True
  | raw :: _ =>
      clean_tick_batch raw (symbol_filter data) (sanity_min_price data)
        (sanity_max_price data) <> []
  end ->
  loop_through_files data = (Raised (KeyError r), S (length pre)).
Proof.
  intros Hrules Hbuf Hreader Hpre Hpost. unfold loop_through_files.
  rewrite Hreader, batch_loop_app, (batch_loop_no_ticks data pre 0 _ Hpre).
  simpl. destruct post as [|raw post]; simpl.
  - rewrite Hrules. cbn [for_rules]. by rewrite flush_missing_buffer.
  - destruct (clean_tick_batch raw _ _ _) as [|t ticks]; [done|].
    rewrite Hrules. cbn [for_rules]. by rewrite ingest_missing_buffer.
Qed.

Lemma missing_buffer_raises_witness :
  loop_through_files unbuffered_late_run = (Raised (KeyError "60s"), 2%nat).
Proof.
  apply (missing_buffer_raises unbuffered_late_run "60s" []
           [canonical_batch []]
           [canonical_batch (take 2 (example_ticks day_2020_03_02));
            canonical_batch (drop 2 (example_ticks day_2020_03_02))]).
  - reflexivity.
  - reflexivity.
  - reflexivity.
  - by intros raw ->%list_elem_of_singleton.
  - by vm_compute.
Defined.

(** ** The volume of a run in timestamp order *)

(** X29.  When the batches of a fresh run keep timestamp order and no tick is
    both before the epoch and off the whole seconds, the final series of a
    granularity accounts for every sanitized tick once: its volumes add up to
    the number of ticks the sanitizer let through. *)
Theorem ordered_run_volume (data : LoopThroughFilesInputData) (r : string) :
  fresh_run data -> r ∈ rules data ->
  ordered_batches (cleaned data (reader data)) ->
  (forall t, t ∈ List.concat (cleaned data (reader data)) ->
     floors_exactly (datetime t)) ->
  exists final series,
    stream_and_merge data = Ok final
    /\ final !! r = Some series
    /\ total_volume (rows series)
       = Z.of_nat (length (List.concat (cleaned data (reader data)))).
Proof.
  intros Hfresh Hr Hord Hexact.
  pose proof Hfresh as [_ Hrules].
  destruct (Hrules r Hr) as (sec & Hconf & Hsec & _).
  destruct (batch_invariance_floored data r Hfresh Hr Hord)
    as (final & series & direct & Hrun & Hseries & Hdirect & Hrows).
  { intros r' sec' t Hr' Hsec' Ht.
    destruct (Hrules r' Hr') as (sec'' & (_ & _ & Hpos) & Hsec'' & _).
    assert (sec'' = sec') as -> by congruence.
    apply floors_exactly_at; [done|by apply Hexact]. }
  exists final, series. split_and!; [done|done|].
  destruct (bars_from_ticks_sorted r sec _ Hconf
              (sort_sorted datetime
                 (List.concat (cleaned data (reader data)))))
    as (Hbars & _).
  rewrite Hbars in Hdirect. injection Hdirect as <-.
  rewrite Hrows. simpl. rewrite bars_of_volume.
  by rewrite (Permutation_length (sort_perm datetime _)).
Qed.

Lemma ordered_run_volume_witness :
  exists final series,
    stream_and_merge split_run = Ok final
    /\ final !! "60s" = Some series
    /\ total_volume (rows series) = 4.
Proof.
  apply (ordered_run_volume split_run "60s").
  - apply fresh_run_60s.
  - by left.
  - apply split_run_ordered.
  - apply split_run_from_epoch.
Defined.

(** ** The contract symbol of a file *)

Lemma year_digits_value (y1 y2 : ascii) :
  Py.isdigit y1 = true -> Py.isdigit y2 = true ->
  Py.int_of_digits ["2"%char; "0"%char; y1; y2]
  = 2000 + 10 * Py.digit_value y1 + Py.digit_value y2
  /\ 2000 <= Py.int_of_digits ["2"%char; "0"%char; y1; y2] <= 2099.
Proof.
  intros H1%digit_value_range H2%digit_value_range.
  unfold Py.int_of_digits. simpl fold_left.
  change (Py.digit_value "2") with 2. change (Py.digit_value "0") with 0.
  lia.
Qed.

(** X30.  The contract symbol [build_bars_from_ticks] filters a recognised
    file by: the year its name carries lies in 2000-2099, and when the month
    it carries lies in 1-12 the symbol filter is the root symbol of the name,
    the code of the month and the last digit of the year, of the year after
    for December. *)
Theorem file_name_contract_symbol (name : string)
    (sym year month : list ascii) :
  file_name_form name sym year month ->
  1 <= Py.int_of_digits month <= 12 ->
  2000 <= Py.int_of_digits year <= 2099
  /\ filter_symbol_in_files (string_of_list_ascii sym)
       (Py.int_of_digits year) (Py.int_of_digits month)
     = Some (string_of_list_ascii sym
               +:+ contract_month_code (Py.int_of_digits month)
               +:+ digit_str
                     (contract_year (Py.int_of_digits year)
                        (Py.int_of_digits month) mod 10)).
Proof.
  intros (sep & y1 & y2 & m1 & m2 & sep2 & nl & _ & _ & _ & Hy1 & Hy2
          & _ & _ & _ & _ & -> & -> & _) Hm.
  destruct (year_digits_value y1 y2 Hy1 Hy2) as [_ Hyear].
  split; [done|].
  set (y := Py.int_of_digits ["2"%char; "0"%char; y1; y2]) in *.
  set (m := Py.int_of_digits [m1; m2]) in *.
  assert (Z.abs (contract_year y m) = contract_year y m) as Habs.
  { unfold contract_year. destruct (m =? 12); lia. }
  rewrite <- Habs. unfold filter_symbol_in_files, contract_year.
  rewrite !last_char_str.
  assert (m = 1 \/ m = 2 \/ m = 3 \/ m = 4 \/ m = 5 \/ m = 6 \/ m = 7
          \/ m = 8 \/ m = 9 \/ m = 10 \/ m = 11 \/ m = 12) as Hcases by lia.
  clearbody m.
  repeat (destruct Hcases as [-> | Hcases]; [reflexivity|]).
  subst m. reflexivity.
Qed.

Lemma file_name_contract_symbol_witness :
  2000 <= Py.int_of_digits ["2"%char; "0"%char; "2"%char; "9"%char] <= 2099
  /\ filter_symbol_in_files "NQ" 2029 12 = Some "NQH0".
Proof.
  apply (file_name_contract_symbol "NQ-2029-12.csv" ["N"%char; "Q"%char]
           ["2"%char; "0"%char; "2"%char; "9"%char] ["1"%char; "2"%char]).
  - by apply re_search_file_name_sound.
  - vm_compute (Py.int_of_digits _). lia.
Defined.

(** ** Batches as the reader delivers them *)

(** Every instant in a frame that lines 68-82 select lies on a whole
    second. *)
Lemma with_columns_select_whole_seconds (df : CsvBatch) (out : RawBatch)
    (row : RawRow) (d : Z) :
  with_columns_select df = Ok out -> row ∈ raw_rows out ->
  ts_event row = Some d -> d mod us_per_second = 0.
Proof.
  unfold with_columns_select.
  destruct (ts_event_column df); try done.
  destruct (has_price_column df); [|done].
  intros [= <-]. simpl. intros (row0 & -> & _)%list_elem_of_fmap. simpl.
  destruct (ts_event_seconds row0) as [s|]; [|done]. simpl. intros [= <-].
  by apply Z.mod_mul.
Qed.

(** So [floor_dt_to_seconds] floors at every tick the sanitizer returns. *)
Lemma cleaned_whole_seconds (data : LoopThroughFilesInputData)
    (csv : list CsvBatch) (frames : list RawBatch) (t : Tick) :
  Forall2 (fun df out => with_columns_select df = Ok out) csv frames ->
  t ∈ List.concat (cleaned data frames) -> floors_exactly (datetime t).
Proof.
  induction 1 as [|df out csv frames Hsel _ IH]; simpl.
  { by intros ?%elem_of_nil. }
  intros [Ht|Ht]%elem_of_app; [|by apply IH].
  apply clean_tick_batch_elem_of in Ht as (row & Hrow & Hd & _).
  right. by apply (with_columns_select_whole_seconds df out row).
Qed.

Lemma fresh_run_60s_300s (frames : list RawBatch) :
  fresh_run (run_60s_300s frames).
Proof.
  split; simpl.
  - refine (bool_decide_unpack _ _). by vm_compute.
  - intros r [->|[->|?%elem_of_nil]%elem_of_cons]%elem_of_cons; [| |done].
    + exists 60. split_and!; [exact configured_60s|done|done|done].
    + exists 300. split_and!; [exact configured_300s|done|done|done].
Qed.

(** Timestamp order across batch boundaries, one boundary at a time. *)
Lemma ordered_batches_cons (b : list Tick) (batches : list (list Tick)) :
  Forall (fun t => Forall (fun t' => datetime t <= datetime t')
                     (List.concat batches)) b ->
  ordered_batches batches -> ordered_batches (b :: batches).
Proof.
  intros Hb Hrest. split; [|done]. intros t t' Ht Ht'.
  rewrite Forall_forall in Hb. specialize (Hb t Ht).
  rewrite Forall_forall in Hb. by apply Hb.
Qed.


Lemma new_year_run_ordered :
  ordered_batches (cleaned new_year_run (reader new_year_run)).
Proof.
  repeat (apply ordered_batches_cons;
          [refine (bool_decide_unpack _ _); by vm_compute|]).
  done.
Qed.

Lemma straggler_csv_selected :
  Forall2 (fun df out => with_columns_select df = Ok out)
    straggler_csv (reader straggler_run).
Proof. by repeat constructor. Qed.



(** The bars of the run around the epoch: the window of 23:58 with the tick
    that arrived out of order, the window of 23:59 with one tick of each
    batch, and the window of 00:00. *)
Example new_year_run_bars :
  exists final series,
    stream_and_merge new_year_run = Ok final
    /\ final !! "60s" = Some series
    /\ rows series
       = [ {| window_start := -120000000; open := 99; high := 99;
              low := 99; close := 99; volume := 1 |};
           {| window_start := -60000000; open := 100; high := 101;
              low := 100; close := 101; volume := 2 |};
           {| window_start := 0; open := 102; high := 102;
              low := 102; close := 102; volume := 1 |} ].
Proof. eexists _, _. split_and!; [by vm_compute|by vm_compute|reflexivity]. Qed.

(** C5.  The buffer invariant.  [pre] stands for the batches delivered so
    far, sanitized from frames that lines 68-82 select, in any order.  After
    the iterations of the batch loop of a fresh run over them, one call of
    [next_batches] each and the one that follows, the buffer of every
    granularity is sorted by timestamp and each of its ticks lies in the
    window of the latest tick seen: not before the start of that window, and
    before its end. *)
Theorem buffer_invariant_every_batch (data : LoopThroughFilesInputData)
    (csv : list CsvBatch) (pre : list RawBatch) (r : string) (sec : Z) :
  fresh_run data -> r ∈ rules data -> rule_secs data !! r = Some sec ->
  Forall2 (fun df out => with_columns_select df = Ok out) csv pre ->
  exists st buf,
    batch_loop data pre 0 (buffers data, bars_out data)
    = (Ok st, S (length pre))
    /\ st.1 !! r = Some buf
    /\ buffer_invariant (sec * us_per_second)
         (List.concat (cleaned data pre)) buf.
Proof.
  intros Hfresh Hr Hsec Hcsv.
  destruct (buffer_invariant_from_epoch data pre r sec Hfresh Hr Hsec)
    as (st & calls & buf & Hloop & Hbuf & Hinv).
  { intros t Ht. by apply (cleaned_whole_seconds data csv pre). }
  exists st, buf. split_and!; [|done|done].
  destruct Hfresh as [Hnodup Hfresh].
  destruct (batch_loop_streamed data pre 0 (buffers data, bars_out data)
              Hnodup) as (st' & Hloop' & _).
  { intros r' Hr'. destruct (Hfresh r' Hr') as (sec' & ? & ? & Hb & Ho).
    exists sec'. simpl. rewrite Hb, Ho. eauto. }
  rewrite Hloop' in Hloop. rewrite Hloop'. simpl in *. congruence.
Qed.

Lemma buffer_invariant_every_batch_witness :
  exists st buf,
    batch_loop straggler_run (reader straggler_run) 0
      (buffers straggler_run, bars_out straggler_run)
    = (Ok st, 3%nat)
    /\ st.1 !! "60s" = Some buf
    /\ buffer_invariant (60 * us_per_second)
         (List.concat (cleaned straggler_run (reader straggler_run))) buf.
Proof.
  apply (buffer_invariant_every_batch straggler_run straggler_csv
           (reader straggler_run) "60s" 60).
  - apply fresh_run_60s_300s.
  - by left.
  - reflexivity.
  - apply straggler_csv_selected.
Defined.

(** After the late batch the buffer still holds the tick of 23:59:59, the
    latest seen; the tick of 23:58:19 has gone to its bar. *)
Example straggler_run_buffer :
  exists st,
    batch_loop straggler_run (reader straggler_run) 0
      (buffers straggler_run, bars_out straggler_run)
    = (Ok st, 3%nat)
    /\ st.1 !! "60s" = Some [ {| datetime := -1000000; mid := 100 |} ]
    /\ fmap (M := list) rows <$> (st.2 !! "60s")
       = Some [ [ {| window_start := -120000000; open := 101; high := 101;
                     low := 101; close := 101; volume := 1 |} ] ].
Proof. eexists. split_and!; [by vm_compute|by vm_compute|by vm_compute]. Qed.

(** ** Prices that are not finite *)

(** On finite prices the reducer of any float prices is [bars_from_ticks]. *)
Lemma float_ticks_of_finite (ticks : list Floats.Tick) :
  Forall (fun t => float_is_finite (Floats.mid t)) ticks ->
  exists qs, ticks = float_tick <$> qs.
Proof.
  induction 1 as [|t ticks [q Hq] _ (qs & ->)]; [by exists []|].
  exists ({| datetime := Floats.datetime t; mid := q |} :: qs).
  simpl. f_equal. destruct t. simpl in *. by subst.
Qed.

Lemma float_group_by_dynamic (every : Z) (qs : list Tick) :
  Floats.group_by_dynamic every (float_tick <$> qs)
  = (fun g : Z * list Tick => (g.1, float_tick <$> g.2))
      <$> Polars.group_by_dynamic every qs.
Proof.
  induction qs as [|t qs IH]; [done|]. csimpl. rewrite IH.
  destruct (Polars.group_by_dynamic every qs) as [|[k' g] groups];
    simpl; [done|].
  by destruct (_ =? _).
Qed.

Lemma foldl_float_max (a : Q) (l : list Q) :
  foldl Floats.max (Floats.finite a) (Floats.finite <$> l)
  = Floats.finite (foldl Polars.qmax a l).
Proof.
  revert a. induction l as [|x l IH]; intros a; [done|]. simpl.
  rewrite <- IH. f_equal. unfold Polars.qmax. by destruct (Qle_bool a x).
Qed.

Lemma foldl_float_min (a : Q) (l : list Q) :
  foldl Floats.min (Floats.finite a) (Floats.finite <$> l)
  = Floats.finite (foldl Polars.qmin a l).
Proof.
  revert a. induction l as [|x l IH]; intros a; [done|]. simpl.
  rewrite <- IH. f_equal. unfold Polars.qmin. by destruct (Qle_bool a x).
Qed.

Lemma last_fmap {A B : Type} (f : A -> B) (l : list A) (d : A) :
  List.last (f <$> l) (f d) = f (List.last l d).
Proof.
  induction l as [|x l IH]; [done|].
  destruct l as [|y l]; [done|]. exact IH.
Qed.

Lemma float_agg (k : Z) (g : list Tick) :
  Floats.agg (k, float_tick <$> g) = float_bar <$> Polars.agg (k, g).
Proof.
  destruct g as [|t ts]; [done|].
  unfold Floats.agg, Polars.agg, float_bar. simpl. do 2 f_equal.
  - rewrite <- list_fmap_compose.
    rewrite (list_fmap_compose mid Floats.finite). apply foldl_float_max.
  - rewrite <- list_fmap_compose.
    rewrite (list_fmap_compose mid Floats.finite). apply foldl_float_min.
  - by rewrite (last_fmap float_tick).
  - by rewrite length_fmap.
Qed.

Lemma float_bars_of (every : Z) (qs : list Tick) :
  omap Floats.agg (Floats.group_by_dynamic every (float_tick <$> qs))
  = float_bar <$> omap Polars.agg (Polars.group_by_dynamic every qs).
Proof.
  rewrite float_group_by_dynamic.
  induction (Polars.group_by_dynamic every qs) as [|[k g] groups IH];
    [done|].
  csimpl. rewrite float_agg, IH. by destruct (Polars.agg (k, g)).
Qed.

Lemma float_insert_sorted (b : Bar) (bars : list Bar) :
  Polars.insert_sorted Floats.window_start (float_bar b) (float_bar <$> bars)
  = float_bar <$> Polars.insert_sorted window_start b bars.
Proof.
  induction bars as [|x bars IH]; [done|]. csimpl.
  destruct (window_start b <=? window_start x); [done|].
  csimpl. by rewrite IH.
Qed.

Lemma float_sort (bars : list Bar) :
  Polars.sort Floats.window_start (float_bar <$> bars)
  = float_bar <$> Polars.sort window_start bars.
Proof.
  induction bars as [|x bars IH]; [done|].
  unfold Polars.sort in *. csimpl. rewrite IH. apply float_insert_sorted.
Qed.

Lemma float_bars_from_ticks (qs : list Tick) (rule : string) :
  Floats.bars_from_ticks (float_tick <$> qs) rule
  = (frame ← bars_from_ticks qs rule; Ok (float_bar <$> rows frame)).
Proof.
  unfold Floats.bars_from_ticks, bars_from_ticks.
  destruct (Polars.duration rule) as [every|e]; simpl; [|done].
  destruct (every <=? 0); [done|]. simpl.
  by rewrite float_bars_of, float_sort.
Qed.

(** Order by a column is kept by a map that keeps the column. *)
Lemma StronglySorted_fmap {A B : Type} (R : Z -> Z -> Prop)
    (f : A -> B) (key : A -> Z) (key' : B -> Z) (l : list A) :
  (forall a, key' (f a) = key a) ->
  StronglySorted (fun a b => R (key' a) (key' b)) (f <$> l)
  <-> StronglySorted (fun a b => R (key a) (key b)) l.
Proof.
  intros Hkey. induction l as [|x l IH]; simpl.
  { split; constructor. }
  split; intros H; apply StronglySorted_inv in H as [Hl Hx];
    constructor; try (by apply IH).
  - rewrite Forall_fmap in Hx. eapply Forall_impl; [exact Hx|].
    intros y. simpl. by rewrite !Hkey.
  - rewrite Forall_fmap. eapply Forall_impl; [exact Hx|].
    intros y. simpl. by rewrite !Hkey.
Qed.




Lemma example_float_ticks_sorted :
  sorted_on Floats.datetime (float_tick <$> example_ticks day_2020_03_02).
Proof.
  unfold sorted_on. apply (bool_decide_unpack _). vm_compute. exact I.
Defined.



(** X7.  Every bar that [bars_from_ticks] makes of a sorted frame of finite
    prices can be drawn as a candle and starts on a multiple of the window
    length. *)
Theorem bars_from_ticks_candles (ticks : list Floats.Tick) (r : string)
    (sec : Z) :
  configured r sec -> sorted_on Floats.datetime ticks ->
  Forall (fun t => float_is_finite (Floats.mid t)) ticks ->
  exists bars,
    Floats.bars_from_ticks ticks r = Ok bars
    /\ forall b, b ∈ bars ->
         float_valid_candle b
         /\ Floats.window_start b mod (sec * us_per_second) = 0.
Proof.
  intros Hconf Hsorted Hfinite.
  destruct (float_ticks_of_finite ticks Hfinite) as (qs & ->).
  assert (Hqs : sorted_on datetime qs).
  { by apply (StronglySorted_fmap Z.le float_tick datetime
                Floats.datetime qs). }
  destruct (bars_from_ticks_sorted r sec qs Hconf Hqs) as (Hframe & _).
  eexists. split; [by rewrite float_bars_from_ticks, Hframe|]. simpl.
  intros b (b0 & -> & Hb0)%list_elem_of_fmap.
  destruct Hconf as (_ & _ & Hpos).
  destruct (bars_of_candles sec qs Hpos Hqs b0 Hb0)
    as ((Hlo & Hoh & Hlc & Hch & Hvol) & Hal).
  split; [|done]. unfold float_valid_candle. simpl.
  by rewrite !Qle_bool_iff.
Qed.

Lemma bars_from_ticks_candles_witness :
  exists bars,
    Floats.bars_from_ticks (float_tick <$> example_ticks day_2020_03_02) "60s"
    = Ok bars
    /\ forall b, b ∈ bars ->
         float_valid_candle b
         /\ Floats.window_start b mod (60 * us_per_second) = 0.
Proof.
  apply (bars_from_ticks_candles
           (float_tick <$> example_ticks day_2020_03_02) "60s" 60).
  - apply configured_60s.
  - apply example_float_ticks_sorted.
  - repeat constructor; by eexists.
Defined.


(** ** The runs around the epoch *)

Lemma granularities_independent_witness :
  exists final alone series,
    stream_and_merge new_year_run = Ok final
    /\ stream_and_merge (only_rule new_year_run "300s") = Ok alone
    /\ final !! "300s" = Some series
    /\ alone !! "300s" = Some series.
Proof.
  apply (granularities_independent new_year_run "300s").
  - apply fresh_run_60s_300s.
  - by right; left.
Defined.

Lemma buffer_invariant_ordered_witness :
  exists st calls buf,
    batch_loop new_year_run (reader new_year_run) 0
      (buffers new_year_run, bars_out new_year_run) = (Ok st, calls)
    /\ st.1 !! "60s" = Some buf
    /\ buffer_invariant (60 * us_per_second)
         (List.concat (cleaned new_year_run (reader new_year_run))) buf.
Proof.
  apply (buffer_invariant_ordered new_year_run (reader new_year_run)
           "60s" 60).
  - apply fresh_run_60s_300s.
  - by left.
  - reflexivity.
  - apply new_year_run_ordered.
Defined.

(** After both batches the buffers hold the tick of 00:00:05, the only one
    in the window of the latest tick. *)
Example new_year_run_buffer :
  exists st,
    batch_loop new_year_run (reader new_year_run) 0
      (buffers new_year_run, bars_out new_year_run)
    = (Ok st, 3%nat)
    /\ st.1 !! "60s" = Some [ {| datetime := 5000000; mid := 102 |} ]
    /\ st.1 !! "300s" = Some [ {| datetime := 5000000; mid := 102 |} ].
Proof. eexists. split_and!; by vm_compute. Qed.

Lemma final_series_candles_witness :
  exists final series,
    stream_and_merge straggler_run = Ok final
    /\ final !! "60s" = Some series
    /\ forall b, b ∈ rows series ->
         valid_candle b /\ window_start b mod (60 * us_per_second) = 0.
Proof.
  apply (final_series_candles straggler_run "60s" 60).
  - apply fresh_run_60s_300s.
  - by left.
  - reflexivity.
Defined.
